(** * Internal link relevance engine (TF-IDF scoring, anchor synthesis,
      balanced selection and insertion)

    Shallow embedding of [supabase/functions/internal-linking-engine/index.ts]
    and the properties its specification states about it.

    Modelling conventions.
    - A JavaScript string is a [string]: a sequence of code units below 256
      (the Latin-1 part of UTF-16).  On that range [toLowerCase], the regular
      expression classes [\w], [\s], [.] and case-insensitive matching are
      written out exactly as ECMAScript defines them.
    - A JavaScript [number] that holds a count, an index or a length is a
      [nat]; [maxLinks], which comes unchecked from the request body, is a
      [Z]; every other [number] (term weight, score, ratio) is a real [R]:
      IEEE rounding, NaN and infinities are outside that model.  Where a
      property is about the rounding itself (the sum of a term-frequency
      map, the average the handler reports) the computation is given a
      second time over binary64 numbers, in [Binary64].
    - A [Map<string, number>] is an association list in insertion order, a
      [Set<string>] a duplicate-free list in insertion order.
    - The loops are folds over the data they run through; a [break] ends
      the recursion, a [continue] goes on with the state unchanged.
    - Of the imported [_shared/utils.ts] only [validateRequired] decides
      what the handler returns; it is a parameter of [handler].  The logger
      is not modelled, except that [insertLinksIntoContent] also returns the
      counter it writes to the log. *)

From Stdlib Require Import List String Ascii Bool Arith ZArith Lia Reals Lra.
From Stdlib Require Import Sorting.Permutation Sorting.Sorted.
From Stdlib Require QArith Qround Qabs Lqa Floats.SpecFloat.
Import ListNotations.

Open Scope string_scope.
Open Scope nat_scope.

(* ------------------------------------------------------------------ *)
(** ** Code units and string primitives *)
(* ------------------------------------------------------------------ *)

Module JsString.

Definition code (c : ascii) : nat := nat_of_ascii c.

Definition inRange (lo hi : nat) (c : ascii) : bool :=
  (lo <=? code c) && (code c <=? hi).

(** [A-Z] *)
Definition isUpperAZ (c : ascii) : bool := inRange 65 90 c.

(** [\w], that is [A-Za-z0-9_] *)
Definition isWordChar (c : ascii) : bool :=
  inRange 48 57 c || inRange 65 90 c || (code c =? 95) || inRange 97 122 c.

(** [\s] below 256: TAB, LF, VT, FF, CR, SP and NBSP *)
Definition isSpaceChar (c : ascii) : bool :=
  inRange 9 13 c || (code c =? 32) || (code c =? 160).

(** The line terminators below 256, which [.] does not match *)
Definition isLineTerminator (c : ascii) : bool :=
  (code c =? 10) || (code c =? 13).

(** [String.prototype.toLowerCase] on one code unit: [A-Z] and the Latin-1
    capitals U+00C0..U+00DE (but not the multiplication sign U+00D7). *)
Definition lowerChar (c : ascii) : ascii :=
  if isUpperAZ c || (inRange 192 222 c && negb (code c =? 215))
  then ascii_of_nat (code c + 32)
  else c.

Fixpoint mapStr (f : ascii -> ascii) (s : string) : string :=
  match s with
  | EmptyString => EmptyString
  | String c r => String (f c) (mapStr f r)
  end.

Fixpoint filterStr (p : ascii -> bool) (s : string) : string :=
  match s with
  | EmptyString => EmptyString
  | String c r => if p c then String c (filterStr p r) else filterStr p r
  end.

Fixpoint allChars (p : ascii -> bool) (s : string) : bool :=
  match s with
  | EmptyString => true
  | String c r => p c && allChars p r
  end.

Fixpoint anyChar (p : ascii -> bool) (s : string) : bool :=
  match s with
  | EmptyString => false
  | String c r => p c || anyChar p r
  end.

Definition toLowerCase (s : string) : string := mapStr lowerChar s.

(** [Array.prototype.join] *)
Fixpoint join (sep : string) (l : list string) : string :=
  match l with
  | [] => ""
  | [x] => x
  | x :: rest => x ++ sep ++ join sep rest
  end.

(** [s.split(/\s+/)]: the pieces between maximal runs of white space; a
    leading or trailing run leaves an empty first or last piece, and the
    empty string gives one empty piece. [cur] is the piece being read and
    [inRun] tells that the previous code unit was white space. *)
Fixpoint splitWsAux (cur : string) (inRun : bool) (s : string) : list string :=
  match s with
  | EmptyString => [cur]
  | String c r =>
      if isSpaceChar c
      then if inRun then splitWsAux "" true r
           else cur :: splitWsAux "" true r
      else splitWsAux (cur ++ String c "") false r
  end.

Definition splitWs (s : string) : list string := splitWsAux "" false s.

(** [s.split(sep)] for a one-character string separator *)
Fixpoint splitCharAux (sep : ascii) (cur : string) (s : string) : list string :=
  match s with
  | EmptyString => [cur]
  | String c r =>
      if Ascii.eqb c sep then cur :: splitCharAux sep "" r
      else splitCharAux sep (cur ++ String c "") r
  end.

Definition splitChar (sep : ascii) (s : string) : list string :=
  splitCharAux sep "" s.

(** [s.startsWith(p)] *)
Fixpoint isPrefix (p s : string) : bool :=
  match p, s with
  | EmptyString, _ => true
  | String _ _, EmptyString => false
  | String a p', String b s' => Ascii.eqb a b && isPrefix p' s'
  end.

(** [String.prototype.includes]: [needle] occurs somewhere in [s] *)
Fixpoint strIncludes (s needle : string) : bool :=
  isPrefix needle s ||
  match s with
  | EmptyString => false
  | String _ r => strIncludes r needle
  end.

(** [String.prototype.trim] and its two halves; the characters removed are
    those of [\s] *)
Fixpoint trimStart (s : string) : string :=
  match s with
  | EmptyString => EmptyString
  | String c r => if isSpaceChar c then trimStart r else s
  end.

Fixpoint trimEnd (s : string) : string :=
  match s with
  | EmptyString => EmptyString
  | String c r =>
      match trimEnd r with
      | EmptyString => if isSpaceChar c then EmptyString else String c EmptyString
      | r' => String c r'
      end
  end.

Definition trim (s : string) : string := trimEnd (trimStart s).

(** [Array.prototype.slice(i, j)] for [i <= j] *)
Definition slice {A : Type} (l : list A) (i j : nat) : list A :=
  firstn (j - i) (skipn i l).

(** [Array.prototype.includes] on strings *)
Definition includes (l : list string) (x : string) : bool :=
  existsb (String.eqb x) l.

End JsString.

(* ------------------------------------------------------------------ *)
(** ** Tokenizer *)
(* ------------------------------------------------------------------ *)

Module Tokenizer.
Import JsString.

Definition STOP_WORDS : list string :=
  [ "the"; "a"; "an"; "and"; "or"; "but"; "in"; "on"; "at"; "to"; "for"; "of"; "with";
    "by"; "from"; "as"; "is"; "was"; "are"; "were"; "been"; "be"; "have"; "has"; "had";
    "do"; "does"; "did"; "will"; "would"; "could"; "should"; "may"; "might"; "must";
    "shall"; "can"; "this"; "that"; "these"; "those"; "it"; "its"; "they"; "them";
    "their"; "what"; "which"; "who"; "whom"; "whose"; "when"; "where"; "why"; "how";
    "all"; "each"; "every"; "both"; "few"; "more"; "most"; "other"; "some"; "such";
    "no"; "nor"; "not"; "only"; "own"; "same"; "so"; "than"; "too"; "very"; "just";
    "your"; "you"; "our"; "we"; "my"; "i"; "me"; "he"; "she"; "him"; "her"; "his" ].

Definition isStopWord (w : string) : bool := includes STOP_WORDS w.

Definition isGt (c : ascii) : bool := Ascii.eqb c ">".
Definition isLt (c : ascii) : bool := Ascii.eqb c "<".

(** [s.replace(/<[^>]*>/g, ' ')].  A [<] opens a match exactly when some [>]
    follows it; the match then runs to the first such [>].  [inTag] tells
    that the scan is inside a match, whose closing [>] is still ahead. *)
Fixpoint stripTagsAux (inTag : bool) (s : string) : string :=
  match s with
  | EmptyString => EmptyString
  | String c r =>
      if inTag
      then if isGt c then stripTagsAux false r else stripTagsAux true r
      else if isLt c && anyChar isGt r
           then String " " (stripTagsAux true r)
           else String c (stripTagsAux false r)
  end.

Definition stripTags (s : string) : string := stripTagsAux false s.

(** [s.replace(/[^\w\s]/g, ' ')] *)
Definition blankPunct (c : ascii) : ascii :=
  if isWordChar c || isSpaceChar c then c else " "%char.

Definition stripPunctuation (s : string) : string := mapStr blankPunct s.

Definition tokenize (text : string) : list string :=
  filter (fun word => negb (isStopWord word))
    (filter (fun word => 2 <? String.length word)
       (splitWs (stripPunctuation (stripTags (toLowerCase text))))).

(** The code units a token is made of: [[a-z0-9_]] *)
Definition isTokenChar (c : ascii) : bool := isWordChar c && negb (isUpperAZ c).

Definition notUpper (c : ascii) : bool := negb (isUpperAZ c).

Definition tokenOrSpace (c : ascii) : bool := isTokenChar c || isSpaceChar c.

(** A well-formed token: lower-case word characters only, longer than two,
    not a stop word *)
Definition wellFormedToken (t : string) : Prop :=
  allChars isTokenChar t = true /\ 2 < String.length t /\ isStopWord t = false.

End Tokenizer.

(* ------------------------------------------------------------------ *)
(** ** Maps in insertion order *)
(* ------------------------------------------------------------------ *)

Module JsMap.

Definition t (V : Type) : Type := list (string * V).

Section Ops.
Context {V : Type}.

Fixpoint get (m : t V) (k : string) : option V :=
  match m with
  | [] => None
  | (k', v) :: r => if String.eqb k' k then Some v else get r k
  end.

Definition has (m : t V) (k : string) : bool :=
  match get m k with Some _ => true | None => false end.

(** [Map.prototype.set]: an existing key keeps its place, a new key goes last *)
Fixpoint set (m : t V) (k : string) (v : V) : t V :=
  match m with
  | [] => [(k, v)]
  | (k', v') :: r =>
      if String.eqb k' k then (k', v) :: r else (k', v') :: set r k v
  end.

Definition keys (m : t V) : list string := map fst m.
Definition values (m : t V) : list V := map snd m.

(** Overwrite every value in place, as a loop over the entries that calls
    [set] on the entry's own key does *)
Definition mapValues {W : Type} (f : V -> W) (m : t V) : t W :=
  map (fun e => (fst e, f (snd e))) m.

End Ops.

(** [(m.get(k) || 0)] on a map of counts *)
Definition getOr0 (m : t nat) (k : string) : nat :=
  match get m k with Some n => n | None => 0 end.

End JsMap.

(* ------------------------------------------------------------------ *)
(** ** TF-IDF *)
(* ------------------------------------------------------------------ *)

Module TfIdf.
Import JsString.

(** First loop of [calculateTF] (and the body of the loop of
    [calculateIDF]): [m.set(k, (m.get(k) || 0) + 1)] *)
Definition bump (m : JsMap.t nat) (k : string) : JsMap.t nat :=
  JsMap.set m k (JsMap.getOr0 m k + 1).

Definition countTokens (tokens : list string) : JsMap.t nat :=
  fold_left bump tokens [].

Definition calculateTF (tokens : list string) : JsMap.t R :=
  let total := List.length tokens in
  JsMap.mapValues (fun count => (INR count / INR total)%R) (countTokens tokens).

(** [new Set(doc)]: the distinct terms, in order of first occurrence *)
Fixpoint newSetAux (seen : list string) (doc : list string) : list string :=
  match doc with
  | [] => []
  | x :: r =>
      if includes seen x then newSetAux seen r
      else x :: newSetAux (x :: seen) r
  end.

Definition newSet (doc : list string) : list string := newSetAux [] doc.

(** The loop over the distinct terms of one document *)
Definition countStep (df : JsMap.t nat) (doc : list string) : JsMap.t nat :=
  fold_left bump (newSet doc) df.

Definition countDocuments (documents : list (list string)) : JsMap.t nat :=
  fold_left countStep documents [].

Definition idfWeightOf (N count : nat) : R :=
  (ln (INR (N + 1) / INR (count + 1)) + 1)%R.

Definition calculateIDF (documents : list (list string)) : JsMap.t R :=
  let N := List.length documents in
  JsMap.mapValues (idfWeightOf N) (countDocuments documents).

Record TfIdfResult : Type := mkTfIdf {
  score : R;
  matchedTerms : list string
}.

(** [idf.get(term) || 1]: a missing or zero weight counts as 1 *)
Definition idfOr1 (idf : JsMap.t R) (term : string) : R :=
  match JsMap.get idf term with
  | Some w => if Req_dec_T w 0 then 1%R else w
  | None => 1%R
  end.

Definition tfidfStep (candidateTF idf : JsMap.t R)
    (acc : TfIdfResult) (entry : string * R) : TfIdfResult :=
  let (term, contentWeight) := entry in
  match JsMap.get candidateTF term with
  | Some candidateWeight =>
      let idfWeight := idfOr1 idf term in
      mkTfIdf (score acc + contentWeight * candidateWeight * idfWeight * idfWeight)%R
              (matchedTerms acc ++ [term])
  | None => acc
  end.

Definition calculateTFIDF (contentTokens candidateTokens : list string)
    (idf : JsMap.t R) : TfIdfResult :=
  let contentTF := calculateTF contentTokens in
  let candidateTF := calculateTF candidateTokens in
  fold_left (tfidfStep candidateTF idf) contentTF (mkTfIdf 0%R []).

(** The sum of the values of a map of numbers *)
Definition sumValues (m : JsMap.t R) : R :=
  fold_right Rplus 0%R (JsMap.values m).

(** The number of times a term occurs in a token sequence *)
Definition occurrences (term : string) (tokens : list string) : nat :=
  List.length (filter (String.eqb term) tokens).

(** Document frequency: the number of documents that contain the term *)
Definition docFreq (term : string) (documents : list (list string)) : nat :=
  List.length (filter (fun doc => includes doc term) documents).

(** The sum of the values of a map of counts *)
Definition sumCounts (m : JsMap.t nat) : nat := fold_right Nat.add 0 (JsMap.values m).

(** What the scoring loop keeps true of the running result: a term is
    recorded only if both documents hold it, and the score stays 0 as long
    as no term is recorded. *)
Record Overlap (contentTokens candidateTokens : list string) (r : TfIdfResult) : Prop :=
  mkOverlap {
    matched_shared :
      forall t, In t (matchedTerms r) -> In t contentTokens /\ In t candidateTokens;
    unmatched_zero : matchedTerms r = [] -> score r = 0%R
  }.

End TfIdf.

(* ------------------------------------------------------------------ *)
(** ** Anchor text generation *)
(* ------------------------------------------------------------------ *)

Module Anchor.
Import JsString.

(** The class of the suffix pattern: hyphen, bar, en dash, em dash; the two
    dashes (U+2013, U+2014) lie above code unit 255, so the hyphen and the
    bar remain *)
Definition isDash (c : ascii) : bool := (code c =? 45) || (code c =? 124).

(** What must follow the dash for [\s*.*$] to match: once the white space
    after the dash is passed, no line terminator up to the end of the input *)
Definition suffixTailOk (r : string) : bool :=
  negb (anyChar isLineTerminator (trimStart r)).

(** [title.replace(/\s*DASH\s*.*$/, '')], DASH being that class: the leftmost
    match starts at the
    white space before the first dash whose tail matches, and runs to the
    end; [pre] is the text before the code unit under the scan. *)
Fixpoint removeSiteSuffixAux (pre : string) (s : string) : option string :=
  match s with
  | EmptyString => None
  | String c r =>
      if isDash c && suffixTailOk r then Some (trimEnd pre)
      else removeSiteSuffixAux (pre ++ String c "") r
  end.

Definition removeSiteSuffix (title : string) : string :=
  match removeSiteSuffixAux "" title with
  | Some kept => kept
  | None => title
  end.

(** The class [[\w\s,:']] *)
Definition keepAnchorChar (c : ascii) : bool :=
  isWordChar c || isSpaceChar c ||
  (code c =? 44) || (code c =? 58) || (code c =? 39).

Definition segmentScore (matchedTerms keywordWords : list string)
    (segment : string) : nat :=
  let segmentLower := toLowerCase segment in
  let afterTerms :=
    fold_left (fun sc term => if strIncludes segmentLower term then sc + 2 else sc)
      matchedTerms 0 in
  fold_left (fun sc kw => if strIncludes segmentLower kw then sc + 3 else sc)
    keywordWords afterTerms.

(** The inner loop [for (len = 3; len <= 6 && i + len <= words.length; len++)]
    over the lengths still to try; [best] is [(bestSegment, bestScore)] *)
Fixpoint windowLoop (words matchedTerms keywordWords : list string) (i : nat)
    (lens : list nat) (best : string * nat) : string * nat :=
  match lens with
  | [] => best
  | len :: rest =>
      if i + len <=? List.length words
      then
        let segment := join " " (slice words i (i + len)) in
        let sc := segmentScore matchedTerms keywordWords segment in
        windowLoop words matchedTerms keywordWords i rest
          (if snd best <? sc then (segment, sc) else best)
      else best
  end.

Definition bestWindow (words matchedTerms keywordWords : list string)
    : string * nat :=
  fold_left
    (fun best i => windowLoop words matchedTerms keywordWords i [3; 4; 5; 6] best)
    (seq 0 (List.length words)) ("", 0).

Definition generateRichAnchor (title : string) (matchedTerms : list string)
    (targetKeyword : string) : string :=
  let anchor := trim (filterStr keepAnchorChar (removeSiteSuffix title)) in
  if 50 <? String.length anchor
  then
    let words := splitChar " " anchor in
    let keywordWords := splitChar " " (toLowerCase targetKeyword) in
    let (bestSegment, bestScore) := bestWindow words matchedTerms keywordWords in
    if negb (String.eqb bestSegment "") && (0 <? bestScore)
    then bestSegment
    else join " " (firstn 6 words)
  else anchor.

End Anchor.

(* ------------------------------------------------------------------ *)
(** ** Link placement: position buckets and selection *)
(* ------------------------------------------------------------------ *)

Inductive Position : Type := early | middle | late.

Definition Position_eqb (p q : Position) : bool :=
  match p, q with
  | early, early | middle, middle | late, late => true
  | _, _ => false
  end.

Module ScoredLink.
Record t : Type := mk {
  url : string;
  title : string;
  anchor : string;
  score : R;
  matchedTerms : list string;
  position : Position
}.
End ScoredLink.

Module Placement.
Import JsString.

(** [index / total] against the literals [0.33] and [0.66].  With
    [total = 0] the quotient is NaN or Infinity and both comparisons fail. *)
Definition determineLinkPosition (index total : nat) : Position :=
  match total with
  | O => late
  | S _ =>
      let position := (INR index / INR total)%R in
      if Rlt_dec position 0.33 then early
      else if Rlt_dec position 0.66 then middle
      else late
  end.

(** [[...scoredLinks].sort((a, b) => b.score - a.score)]: a stable sort, the
    higher score first.  [insertByScore x l] puts [x], which stood before
    every element of [l], in front of the first element that does not have
    a strictly higher score. *)
Fixpoint insertByScore (x : ScoredLink.t) (l : list ScoredLink.t)
    : list ScoredLink.t :=
  match l with
  | [] => [x]
  | y :: r =>
      if Rlt_dec (ScoredLink.score x) (ScoredLink.score y)
      then y :: insertByScore x r
      else x :: y :: r
  end.

Definition sortByScoreDesc (l : list ScoredLink.t) : list ScoredLink.t :=
  fold_right insertByScore [] l.

Record PositionCounts : Type := mkCounts {
  c_early : nat;
  c_middle : nat;
  c_late : nat
}.

Definition countOf (pc : PositionCounts) (p : Position) : nat :=
  match p with
  | early => c_early pc
  | middle => c_middle pc
  | late => c_late pc
  end.

Definition increment (pc : PositionCounts) (p : Position) : PositionCounts :=
  match p with
  | early => mkCounts (c_early pc + 1) (c_middle pc) (c_late pc)
  | middle => mkCounts (c_early pc) (c_middle pc + 1) (c_late pc)
  | late => mkCounts (c_early pc) (c_middle pc) (c_late pc + 1)
  end.

(** The three locals the loop of [selectOptimalLinks] updates *)
Record Selection : Type := mkSelection {
  selected : list ScoredLink.t;
  usedAnchors : list string;
  positionCounts : PositionCounts
}.

(** [Math.ceil(maxLinks / 3)] on an integer *)
Definition ceilThird (maxLinks : Z) : Z := (- ((- maxLinks) / 3))%Z.

Fixpoint selectLoop (maxLinks maxPerPosition : Z) (sorted : list ScoredLink.t)
    (st : Selection) : Selection :=
  match sorted with
  | [] => st
  | link :: rest =>
      if (Z.of_nat (List.length (selected st)) >=? maxLinks)%Z then st
      else
        let anchorLower := toLowerCase (ScoredLink.anchor link) in
        if includes (usedAnchors st) anchorLower
        then selectLoop maxLinks maxPerPosition rest st
        else if (Z.of_nat (countOf (positionCounts st) (ScoredLink.position link))
                   >=? maxPerPosition + 1)%Z
        then selectLoop maxLinks maxPerPosition rest st
        else selectLoop maxLinks maxPerPosition rest
               (mkSelection (selected st ++ [link])
                            (usedAnchors st ++ [anchorLower])
                            (increment (positionCounts st) (ScoredLink.position link)))
  end.

Definition selectOptimalLinks (scoredLinks : list ScoredLink.t) (maxLinks : Z)
    : list ScoredLink.t :=
  let sorted := sortByScoreDesc scoredLinks in
  let maxPerPosition := ceilThird maxLinks in
  selected (selectLoop maxLinks maxPerPosition sorted
              (mkSelection [] [] (mkCounts 0 0 0))).

(** The number of links of a list that carry a given position *)
Definition countPosition (p : Position) (l : list ScoredLink.t) : nat :=
  List.length (filter (fun x => Position_eqb (ScoredLink.position x) p) l).

(** The key under which the selection loop remembers an anchor *)
Definition anchorKey (l : ScoredLink.t) : string := toLowerCase (ScoredLink.anchor l).

(** What the loop keeps true of its three locals *)
Record Consistent (st : Selection) : Prop := mkConsistent {
  used_is_keys : usedAnchors st = map anchorKey (selected st);
  used_nodup : NoDup (usedAnchors st);
  counts_agree : forall p, countOf (positionCounts st) p = countPosition p (selected st)
}.

Record Within (maxLinks maxPerPosition : Z) (st : Selection) : Prop := mkWithin {
  total_within : (Z.of_nat (List.length (selected st)) <= Z.max 0 maxLinks)%Z;
  bucket_within :
    forall p, (Z.of_nat (countOf (positionCounts st) p) <= Z.max 0 (maxPerPosition + 1))%Z
}.

(** The order that the sort establishes: the score does not go up *)
Definition scoreGe (a b : ScoredLink.t) : Prop :=
  (ScoredLink.score a >= ScoredLink.score b)%R.

End Placement.

(* ------------------------------------------------------------------ *)
(** ** Content insertion *)
(* ------------------------------------------------------------------ *)

Module Inserter.
Import JsString.

(** Two code units match under the [i] flag *)
Definition eqCI (a b : ascii) : bool := Ascii.eqb (lowerChar a) (lowerChar b).

(** Match the literal [pat] at the head of [s], ignoring case: the code unit
    that ends the match ([prev] when [pat] is empty) and the text after it *)
Fixpoint matchLiteralCI (prev : option ascii) (pat s : string)
    : option (option ascii * string) :=
  match pat with
  | EmptyString => Some (prev, s)
  | String a pat' =>
      match s with
      | EmptyString => None
      | String b s' =>
          if eqCI a b then matchLiteralCI (Some b) pat' s' else None
      end
  end.

Definition startsWithCI (pat s : string) : bool :=
  match matchLiteralCI None pat s with Some _ => true | None => false end.

(** [content.split(/<\/p>/i)]; [skip] counts the code units of a separator
    that are still to be passed *)
Fixpoint splitCloseTagAux (skip : nat) (cur : string) (s : string) : list string :=
  match s with
  | EmptyString => [cur]
  | String c r =>
      match skip with
      | S k => splitCloseTagAux k cur r
      | O =>
          if startsWithCI "</p>" s
          then cur :: splitCloseTagAux 3 "" r
          else splitCloseTagAux 0 (cur ++ String c "") r
      end
  end.

Definition splitCloseTag (content : string) : list string :=
  splitCloseTagAux 0 "" content.

(** [[^>]*href] at the head of [s] *)
Fixpoint hrefAhead (s : string) : bool :=
  startsWithCI "href" s ||
  match s with
  | EmptyString => false
  | String c r => if Ascii.eqb c ">" then false else hrefAhead r
  end.

(** [/<a\s+[^>]*href/i.test(s)] *)
Fixpoint hasLinkTag (s : string) : bool :=
  match s with
  | EmptyString => false
  | String c1 r =>
      match r with
      | String c2 (String c3 r3) =>
          Ascii.eqb c1 "<" && eqCI "a" c2 && isSpaceChar c3 && hrefAhead r3
      | _ => false
      end || hasLinkTag r
  end.

Definition isWordOpt (o : option ascii) : bool :=
  match o with Some c => isWordChar c | None => false end.

(** [\b] between two neighbours, either of which may be the edge of the input *)
Definition isBoundary (before after : option ascii) : bool :=
  xorb (isWordOpt before) (isWordOpt after).

Definition headOf (s : string) : option ascii :=
  match s with EmptyString => None | String c _ => Some c end.

(** [new RegExp(`\\b${word}\\b`, 'i').test(s)] for a [word] in which every
    code unit stands for itself in a pattern, as is the case for the words
    of an anchor that [generateRichAnchor] built (letters, digits, [_],
    white space, comma, colon, apostrophe). [prev] is the code unit before
    the head of [s]. *)
Fixpoint wordSearch (word : string) (prev : option ascii) (s : string) : bool :=
  (isBoundary prev (headOf s) &&
   match matchLiteralCI prev word s with
   | Some (last, rest) => isBoundary last (headOf rest)
   | None => false
   end) ||
  match s with
  | EmptyString => false
  | String c r => wordSearch word (Some c) r
  end.

Definition wordRegexTest (word paragraph : string) : bool :=
  wordSearch word None paragraph.

(** [/<a[^>]*>[^<]*${word}/i.test(paragraph)].  This one is a regular
    expression literal, in which [${word}] is no substitution: [$] asserts
    the end of the input and the six characters [{word}] are asked for
    after it, so the pattern matches no string at all. *)
Definition linkedWordTest (paragraph : string) : bool := false.

Definition dquote : string := String (ascii_of_nat 34) EmptyString.

Definition linkHtml (link : ScoredLink.t) : string :=
  "<a href=" ++ dquote ++ ScoredLink.url link ++ dquote
  ++ " class=" ++ dquote ++ "wp-opt-internal" ++ dquote
  ++ " title=" ++ dquote ++ ScoredLink.title link ++ dquote ++ ">"
  ++ ScoredLink.anchor link ++ "</a>".

(** [paragraphs[p]], the empty string standing for [undefined] (both falsy) *)
Definition paragraphAt (paragraphs : list string) (p : nat) : string :=
  nth p paragraphs "".

(** [paragraphs[p] = v] for an index inside the array, the only case that
    the loops below reach *)
Fixpoint setParagraph (paragraphs : list string) (p : nat) (v : string)
    : list string :=
  match paragraphs, p with
  | [], _ => []
  | _ :: r, O => v :: r
  | x :: r, S p' => x :: setParagraph r p' v
  end.

(** The loop over [anchorWords]: some word of four code units or more is
    found in the paragraph as a whole word *)
Definition findsNaturalWord (anchorWords : list string) (paragraph : string) : bool :=
  existsb
    (fun word =>
       negb (String.length word <? 4)
       && wordRegexTest word paragraph
       && negb (linkedWordTest paragraph))
    anchorWords.

(** [for (p = start; p < end && !inserted; p++)], with [remaining = end - p]:
    the paragraphs after the first insertion, if one was made *)
Fixpoint naturalLoop (remaining p : nat) (anchorWords : list string)
    (html : string) (paragraphs : list string) : option (list string) :=
  match remaining with
  | O => None
  | S k =>
      let paragraph := paragraphAt paragraphs p in
      if String.eqb paragraph "" then naturalLoop k (S p) anchorWords html paragraphs
      else if hasLinkTag paragraph then naturalLoop k (S p) anchorWords html paragraphs
      else if findsNaturalWord anchorWords paragraph
      then Some (setParagraph paragraphs p (paragraph ++ " " ++ html))
      else naturalLoop k (S p) anchorWords html paragraphs
  end.

(** The state of the insertion loops: the paragraphs and [insertedCount] *)
Definition InsertState : Type := (list string * nat)%type.

(** The body of [for (const link of positionLinks)] *)
Definition insertOne (start stop : nat) (st : InsertState) (link : ScoredLink.t)
    : InsertState :=
  let (paragraphs, insertedCount) := st in
  let html := linkHtml link in
  let anchorWords := splitChar " " (toLowerCase (ScoredLink.anchor link)) in
  match naturalLoop (stop - start) start anchorWords html paragraphs with
  | Some paragraphs' => (paragraphs', insertedCount + 1)
  | None =>
      if start <? List.length paragraphs
      then
        let targetIdx :=
          Nat.min (start + (stop - start) / 2) (List.length paragraphs - 1) in
        let target := paragraphAt paragraphs targetIdx in
        if negb (String.eqb target "") && negb (hasLinkTag target)
        then (setParagraph paragraphs targetIdx (target ++ " Read more: " ++ html),
              insertedCount + 1)
        else st
      else st
  end.

Definition hasPosition (p : Position) (l : ScoredLink.t) : bool :=
  Position_eqb (ScoredLink.position l) p.

(** [insertLinksIntoContent]: the enhanced content it returns and the value
    of [insertedCount] it writes to the log *)
Definition insertLinksIntoContent (content : string) (links : list ScoredLink.t)
    : string * nat :=
  let paragraphs := splitCloseTag content in
  let totalParagraphs := List.length paragraphs in
  let earlyLinks := filter (hasPosition early) links in
  let middleLinks := filter (hasPosition middle) links in
  let lateLinks := filter (hasPosition late) links in
  let st0 : InsertState := (paragraphs, 0) in
  let st1 := fold_left (insertOne 0 (totalParagraphs / 3)) earlyLinks st0 in
  let st2 := fold_left (insertOne (totalParagraphs / 3) (2 * totalParagraphs / 3))
               middleLinks st1 in
  let st3 := fold_left (insertOne (2 * totalParagraphs / 3) totalParagraphs)
               lateLinks st2 in
  (join "</p>" (fst st3), snd st3).

End Inserter.

(* ------------------------------------------------------------------ *)
(** ** The request handler *)
(* ------------------------------------------------------------------ *)

Module LinkCandidate.
Record t : Type := mk {
  id : string;
  url : string;
  slug : string;
  title : string;
  categories : option (list string);
  tags : option (list string);
  post_type : option string
}.
End LinkCandidate.

Module InternalLinkRequest.
Record t : Type := mk {
  content : string;
  pageId : string;
  targetKeyword : string;
  maxLinks : option Z;
  siteUrl : string
}.
End InternalLinkRequest.

(** One element of the [links] array of the response *)
Module ResponseLink.
Record t : Type := mk {
  url : string;
  anchor : string;
  title : string;
  score : R;
  position : Position
}.
End ResponseLink.

Module Stats.
Record t : Type := mk {
  candidatesAnalyzed : nat;
  linksInserted : nat;
  avgRelevanceScore : R
}.
End Stats.

(** The JSON body of a successful response; [stats] is [None] when the
    object has no such field *)
Module ResponseBody.
Record t : Type := mk {
  success : bool;
  links : list ResponseLink.t;
  content : string;
  stats : option Stats.t
}.
End ResponseBody.

(** What the store query [supabase.from('pages')...] resolved to *)
Module QueryResult.
Record t : Type := mk {
  data : option (list LinkCandidate.t);
  error : bool
}.
End QueryResult.

Inductive HandlerError : Type :=
  | ValidationFailed      (* thrown by [validateRequired] *)
  | DbError.              (* [AppError('Failed to fetch link candidates', 'DB_ERROR', 500)] *)

Inductive HandlerResponse : Type :=
  | Preflight                            (* the reply to OPTIONS *)
  | ErrorResponse (e : HandlerError)     (* [createErrorResponse] *)
  | JsonResponse (body : ResponseBody.t).

Module Handler.
Import JsString Tokenizer TfIdf Anchor Placement Inserter.

Definition orEmpty (o : option (list string)) : list string :=
  match o with Some l => l | None => [] end.

(** [slug.replace(/-/g, ' ')] *)
Definition hyphensToSpaces (slug : string) : string :=
  mapStr (fun c => if Ascii.eqb c "-" then " "%char else c) slug.

(** The text a candidate is tokenized from *)
Definition candidateText (c : LinkCandidate.t) : string :=
  LinkCandidate.title c ++ " " ++ hyphensToSpaces (LinkCandidate.slug c)
  ++ " " ++ join " " (orEmpty (LinkCandidate.categories c))
  ++ " " ++ join " " (orEmpty (LinkCandidate.tags c)).

(** The keyword boost: [x 1.5] once for every keyword token that the
    candidate's tokens include *)
Definition keywordBoost (keywordTokens candidateTokens : list string) (score : R) : R :=
  fold_left
    (fun boosted kwToken =>
       if includes candidateTokens kwToken then (boosted * 1.5)%R else boosted)
    keywordTokens score.

(** [labels.map(s => s.toLowerCase()).some(s => keywordLower.includes(s))] *)
Definition someLabelInKeyword (labels : option (list string)) (keywordLower : string) : bool :=
  existsb (fun l => strIncludes keywordLower l) (map toLowerCase (orEmpty labels)).

Definition boostedScoreOf (keywordTokens candidateTokens : list string)
    (targetKeyword : string) (candidate : LinkCandidate.t) (score : R) : R :=
  let b1 := keywordBoost keywordTokens candidateTokens score in
  let keywordLower := toLowerCase targetKeyword in
  let b2 := if someLabelInKeyword (LinkCandidate.categories candidate) keywordLower
            then (b1 * 1.3)%R else b1 in
  if someLabelInKeyword (LinkCandidate.tags candidate) keywordLower
  then (b2 * 1.2)%R else b2.

(** The body of the scoring loop for the candidate at index [i] of [total]:
    the link pushed on [scoredLinks], if one is *)
Definition scoreCandidate (contentTokens keywordTokens : list string)
    (idf : JsMap.t R) (targetKeyword : string) (total i : nat)
    (candidate : LinkCandidate.t) (candidateTokens : list string)
    : option ScoredLink.t :=
  let r := calculateTFIDF contentTokens candidateTokens idf in
  let boostedScore :=
    boostedScoreOf keywordTokens candidateTokens targetKeyword candidate (score r) in
  if Rgt_dec boostedScore 0.001
  then
    let position := determineLinkPosition i total in
    let anchor :=
      generateRichAnchor (LinkCandidate.title candidate) (matchedTerms r) targetKeyword in
    Some (ScoredLink.mk (LinkCandidate.url candidate) (LinkCandidate.title candidate)
            anchor boostedScore (matchedTerms r) position)
  else None.

(** [for (let i = 0; i < candidates.length; i++)], from index [i] on, over
    the candidates and their token lists side by side *)
Fixpoint scoreLoop (contentTokens keywordTokens : list string)
    (idf : JsMap.t R) (targetKeyword : string) (total i : nat)
    (candidates : list LinkCandidate.t) (candidateDocuments : list (list string))
    : list ScoredLink.t :=
  match candidates, candidateDocuments with
  | candidate :: cs, candidateTokens :: ds =>
      match scoreCandidate contentTokens keywordTokens idf targetKeyword total i
              candidate candidateTokens with
      | Some link => [link]
      | None => []
      end
      ++ scoreLoop contentTokens keywordTokens idf targetKeyword total (S i) cs ds
  | _, _ => []
  end.

(** The scored pool that the handler builds from the content, the keyword
    and the candidates *)
Definition scoredPool (content targetKeyword : string)
    (candidates : list LinkCandidate.t) : list ScoredLink.t :=
  let contentTokens := tokenize content in
  let keywordTokens := tokenize targetKeyword in
  let candidateDocuments := map (fun c => tokenize (candidateText c)) candidates in
  let allDocuments := contentTokens :: candidateDocuments in
  let idf := calculateIDF allDocuments in
  scoreLoop contentTokens keywordTokens idf targetKeyword
    (List.length candidates) 0 candidates candidateDocuments.

Definition toResponseLink (l : ScoredLink.t) : ResponseLink.t :=
  ResponseLink.mk (ScoredLink.url l) (ScoredLink.anchor l) (ScoredLink.title l)
    (ScoredLink.score l) (ScoredLink.position l).

(** [selectedLinks.reduce((sum, l) => sum + l.score, 0) / (selectedLinks.length || 1)] *)
Definition avgScore (selectedLinks : list ScoredLink.t) : R :=
  (fold_left (fun sum l => sum + ScoredLink.score l) selectedLinks 0
   / INR (match List.length selectedLinks with O => 1 | n => n end))%R.

Section WithValidation.

(** [validateRequired] of [_shared/utils.ts], which the handler imports:
    whether the body passes, that is, whether the call returns rather than
    throws *)
Variable validateRequired : InternalLinkRequest.t -> list string -> bool.

(** The handler, from the parsed request body and the result of the store
    query to the response *)
Definition handler (isOptions : bool) (body : InternalLinkRequest.t)
    (query : QueryResult.t) : HandlerResponse :=
  if isOptions then Preflight
  else
    let content := InternalLinkRequest.content body in
    let targetKeyword := InternalLinkRequest.targetKeyword body in
    let maxLinks :=
      match InternalLinkRequest.maxLinks body with Some k => k | None => 5%Z end in
    if negb (validateRequired body ["content"; "pageId"; "targetKeyword"])
    then ErrorResponse ValidationFailed
    else if QueryResult.error query then ErrorResponse DbError
    else
      match QueryResult.data query with
      | None | Some [] =>
          JsonResponse (ResponseBody.mk true [] content None)
      | Some candidates =>
          let scoredLinks := scoredPool content targetKeyword candidates in
          let selectedLinks := selectOptimalLinks scoredLinks maxLinks in
          let enhancedContent := fst (insertLinksIntoContent content selectedLinks) in
          JsonResponse
            (ResponseBody.mk true
               (map toResponseLink selectedLinks)
               enhancedContent
               (Some (Stats.mk (List.length candidates)
                               (List.length selectedLinks)
                               (avgScore selectedLinks))))
      end.

End WithValidation.

(** A link whose matched terms are there, and are tokens of the content
    and of the candidate it links to *)
Definition sharesTerms (content : string) (candidates : list LinkCandidate.t)
    (link : ScoredLink.t) : Prop :=
  ScoredLink.matchedTerms link <> []
  /\ exists candidate,
       In candidate candidates
       /\ ScoredLink.url link = LinkCandidate.url candidate
       /\ forall t, In t (ScoredLink.matchedTerms link) ->
                    In t (tokenize content)
                    /\ In t (tokenize (candidateText candidate)).

End Handler.

(* ------------------------------------------------------------------ *)
(** ** Binary64 arithmetic *)
(* ------------------------------------------------------------------ *)

(** A finite binary64 number is the rational it stands for.  An operation
    gives the exact rational result rounded to 53 significant bits, to the
    nearest and with ties to the even significand, as IEEE 754 has it.  The
    exponent range is not modelled (no overflow to Infinity, no subnormal
    numbers, no NaN): term frequencies and their sums lie between
    [1 / total] and [total], scores above the floor of 0.001. *)
Module Binary64.
Import QArith Qround.

Definition pow2 (e : Z) : Q := 2 ^ e.

(** The exponent [e] of a positive number: [2^e <= q < 2^(e+1)] *)
Definition exponentOf (q : Q) : Z :=
  let e0 := (Z.log2 (Qnum q) - Z.log2 (Zpos (Qden q)))%Z in
  if Qle_bool (pow2 e0) q then e0 else (e0 - 1)%Z.

(** The nearest integer, the even one of two that are equally near *)
Definition roundHalfEven (x : Q) : Z :=
  let f := Qfloor x in
  match Qcompare (x - inject_Z f) (1 # 2) with
  | Lt => f
  | Gt => (f + 1)%Z
  | Eq => if Z.even f then f else (f + 1)%Z
  end.

(** A positive number rounded to a significand of 53 bits *)
Definition roundPos (q : Q) : Q :=
  let e := exponentOf q in
  Qred (inject_Z (roundHalfEven (q * pow2 (52 - e))) * pow2 (e - 52)).

Definition round64 (q : Q) : Q :=
  match Qnum q with
  | Z0 => 0
  | Zpos _ => roundPos q
  | Zneg _ => - roundPos (- q)
  end.

(** [x + y] and [x / y] on numbers *)
Definition fadd (x y : Q) : Q := round64 (x + y).
Definition fdiv (x y : Q) : Q := round64 (x / y).

(** A count or a length as a number: exact, being below [2^53] *)
Definition ofNat (n : nat) : Q := inject_Z (Z.of_nat n).

(** The unit roundoff of binary64, [2^-53] *)
Definition roundoff : Q := pow2 (-53).

Fixpoint powN (x : Q) (n : nat) : Q :=
  match n with O => 1 | S k => x * powN x k end.

Definition sumQ (l : list Q) : Q := fold_right Qplus 0 l.

(** [calculateTF] with the division [count / total] as the code performs it *)
Definition calculateTF64 (tokens : list string) : JsMap.t Q :=
  let total := List.length tokens in
  JsMap.mapValues (fun count => fdiv (ofNat count) (ofNat total))
    (TfIdf.countTokens tokens).

(** [[...tf.values()].reduce((a, b) => a + b, 0)]: the values of a map added
    up in the order of the map *)
Definition sumValues64 (m : JsMap.t Q) : Q := fold_left fadd (JsMap.values m) 0.

(** [selectedLinks.reduce((sum, l) => sum + l.score, 0) / (selectedLinks.length || 1)]
    on the scores of the selected links *)
Definition avgScore64 (scores : list Q) : Q :=
  fdiv (fold_left fadd scores 0)
       (ofNat (match List.length scores with O => 1%nat | n => n end)).

(** The same two operations as the IEEE 754 specification of the standard
    library defines them for binary64 (precision 53, largest exponent 1024),
    and the rational a finite number of that specification stands for *)
Definition ieeeOfZ (z : Z) : SpecFloat.spec_float :=
  SpecFloat.binary_normalize 53 1024 z 0 false.

Definition ieeeAdd : SpecFloat.spec_float -> SpecFloat.spec_float -> SpecFloat.spec_float :=
  SpecFloat.SFadd 53 1024.

Definition ieeeDiv : SpecFloat.spec_float -> SpecFloat.spec_float -> SpecFloat.spec_float :=
  SpecFloat.SFdiv 53 1024.

Definition valueOf (f : SpecFloat.spec_float) : Q :=
  match f with
  | SpecFloat.S754_finite s m e =>
      Qred ((if s then - (1) else 1) * inject_Z (Zpos m) * pow2 e)
  | _ => 0
  end.

End Binary64.

(* ------------------------------------------------------------------ *)
(** ** Sample inputs *)
(* ------------------------------------------------------------------ *)

Module Samples.

Definition sampleCorpus : list (list string) :=
  [ ["react"; "hooks"; "state"]; ["react"; "guide"]; ["react"; "hooks"] ].

Definition sampleLink (anchor : string) (score : R) (p : Position) : ScoredLink.t :=
  ScoredLink.mk "https://example.test/page" "Title" anchor score [] p.

Definition sampleLinks : list ScoredLink.t :=
  [sampleLink "React Hooks" 2%R early; sampleLink "react hooks" 1%R late].

(** A candidate with a keyword, a category and a tag boost but no token in
    common with the content *)
Definition cssCandidate : LinkCandidate.t :=
  LinkCandidate.mk "7" "https://example.test/css-grid" "css-grid-layout-basics"
    "CSS Grid Layout Basics" (Some ["css"]) (Some ["grid"]) None.

(** One paragraph, which already holds a link *)
Definition sampleContent : string := "<p>React hooks <a href=/old>here</a></p>".

Definition sampleCandidate : LinkCandidate.t :=
  LinkCandidate.mk "2" "https://example.test/react-guide" "react-guide"
    "React Guide" None None None.

Definition sampleRequest : InternalLinkRequest.t :=
  InternalLinkRequest.mk sampleContent "1" "seo" None "https://example.test".

Definition sampleQuery : QueryResult.t := QueryResult.mk (Some [sampleCandidate]) false.

Definition emptyQuery : QueryResult.t := QueryResult.mk (Some []) false.

(** A [validateRequired] that lets the sample request pass *)
Definition acceptAll (body : InternalLinkRequest.t) (fields : list string) : bool := true.

Definition sampleLinkOf (sc : R) : ScoredLink.t :=
  ScoredLink.mk "https://example.test/react-guide" "React Guide" "React Guide"
    sc ["react"] early.

(** The links the handler selects for the sample request, and its answer *)
Definition sampleSelected : list ScoredLink.t :=
  Placement.selectOptimalLinks
    (Handler.scoredPool sampleContent "seo" [sampleCandidate]) 5.

Definition sampleResponse : ResponseBody.t :=
  ResponseBody.mk true (map Handler.toResponseLink sampleSelected)
    (fst (Inserter.insertLinksIntoContent sampleContent sampleSelected))
    (Some (Stats.mk 1 (List.length sampleSelected) (Handler.avgScore sampleSelected))).

(** Ten tokens, no two the same *)
Definition tenTokens : list string :=
  [ "alpha"; "bravo"; "charlie"; "delta"; "echo0";
    "foxtrot"; "golf"; "hotel"; "india"; "juliet" ].

End Samples.

(* ------------------------------------------------------------------ *)
(** ** Notions the further properties are stated with *)
(* ------------------------------------------------------------------ *)

Module Notions.
Import JsString Tokenizer TfIdf Anchor Placement Inserter Handler.

(** Some [<] of the text has a [>] after it: the text still holds a tag *)
Fixpoint hasTag (s : string) : bool :=
  match s with
  | EmptyString => false
  | String c r => (isLt c && anyChar isGt r) || hasTag r
  end.

(** The frequency of a term in a token sequence: occurrences over length *)
Definition tfWeight (term : string) (tokens : list string) : R :=
  (INR (occurrences term tokens) / INR (List.length tokens))%R.

(** The terms two token sequences share, in the order in which the first
    brings them up, each once *)
Definition sharedTerms (contentTokens candidateTokens : list string) : list string :=
  filter (includes candidateTokens) (newSet contentTokens).

(** What one shared term adds to the score *)
Definition termScore (contentTokens candidateTokens : list string)
    (idf : JsMap.t R) (t : string) : R :=
  (tfWeight t contentTokens * tfWeight t candidateTokens
   * idfOr1 idf t * idfOr1 idf t)%R.

(** A running sum in the order of the list, as [score += ...] builds it *)
Definition sumOver (g : string -> R) (l : list string) : R :=
  fold_left (fun s t => (s + g t)%R) l 0%R.

(** The number of keyword tokens, repeats counted, that the candidate's
    tokens include *)
Definition keywordHits (keywordTokens candidateTokens : list string) : nat :=
  List.length (filter (includes candidateTokens) keywordTokens).

(** The boosted score that the handler computes for one of the candidates *)
Definition boostedOfCandidate (content targetKeyword : string)
    (candidates : list LinkCandidate.t) (c : LinkCandidate.t) : R :=
  boostedScoreOf (tokenize targetKeyword) (tokenize (candidateText c)) targetKeyword c
    (score (calculateTFIDF (tokenize content) (tokenize (candidateText c))
              (calculateIDF (tokenize content
                             :: map (fun c' => tokenize (candidateText c')) candidates)))).

Definition passesFloor (content targetKeyword : string)
    (candidates : list LinkCandidate.t) (c : LinkCandidate.t) : bool :=
  if Rgt_dec (boostedOfCandidate content targetKeyword candidates c) 0.001
  then true else false.

(** The title as [generateRichAnchor] cleans it before it measures it *)
Definition cleanTitle (title : string) : string :=
  trim (filterStr keepAnchorChar (removeSiteSuffix title)).

(** The characters that mean something in HTML text or in a regular
    expression: [<] [>] [&], the double quote, and the pattern characters
    backslash, caret, dollar, dot, bar, question mark, star, plus, slash
    and the three pairs of brackets *)
Definition isSpecialChar (c : ascii) : bool :=
  existsb (Nat.eqb (code c))
    [60; 62; 38; 34; 92; 94; 36; 46; 124; 63; 42; 43; 47; 40; 41; 91; 93; 123; 125].

(** What the window search holds as its best segment: nothing yet, or
    three to six neighbouring words with a score above 0 *)
Definition windowFound (words : list string) (best : string * nat) : Prop :=
  best = ("", 0)
  \/ exists i n, 3 <= n <= 6 /\ i + n <= List.length words
                 /\ fst best = join " " (slice words i (i + n)) /\ 0 < snd best.

(** The buckets in the order of the text: early, then middle, then late *)
Definition positionRank (p : Position) : nat :=
  match p with early => 0 | middle => 1 | late => 2 end.

(** The state of the selection loop once it has accepted a link *)
Definition accept (st : Selection) (link : ScoredLink.t) : Selection :=
  mkSelection (selected st ++ [link])
              (usedAnchors st ++ [toLowerCase (ScoredLink.anchor link)])
              (increment (positionCounts st) (ScoredLink.position link)).

(** Every link of the list is accepted in turn when the loop runs over it
    from the given state: the budget is not used up, the anchor is new and
    the bucket is not full *)
Fixpoint Accepted (maxLinks maxPerPosition : Z) (st : Selection)
    (l : list ScoredLink.t) : Prop :=
  match l with
  | [] => True
  | link :: rest =>
      (Z.of_nat (List.length (selected st)) >=? maxLinks)%Z = false
      /\ includes (usedAnchors st) (toLowerCase (ScoredLink.anchor link)) = false
      /\ (Z.of_nat (countOf (positionCounts st) (ScoredLink.position link))
            >=? maxPerPosition + 1)%Z = false
      /\ Accepted maxLinks maxPerPosition (accept st link) rest
  end.

(** [s.slice(n)]: the text after the first [n] code units *)
Fixpoint dropStr (n : nat) (s : string) : string :=
  match n, s with
  | O, _ => s
  | S _, EmptyString => EmptyString
  | S k, String _ r => dropStr k r
  end.

(** How a paragraph of the result stands to the paragraph it was: the same,
    or, if that was not empty and held no link, the same with the markup of
    one of the links appended, plainly or after [Read more:] *)
Definition paragraphKept (links : list ScoredLink.t) (before after : string) : Prop :=
  after = before
  \/ (before <> ""
      /\ hasLinkTag before = false
      /\ exists l, In l links
                   /\ (after = before ++ " " ++ linkHtml l
                       \/ after = before ++ " Read more: " ++ linkHtml l)).

(** The number of places at which two paragraph lists differ *)
Definition changedCount (before after : list string) : nat :=
  List.length
    (filter (fun pair => negb (String.eqb (fst pair) (snd pair))) (combine before after)).

(** [candidates || []]: the candidates of a query result, none if it holds
    no data *)
Definition candidatesOf (query : QueryResult.t) : list LinkCandidate.t :=
  match QueryResult.data query with Some cs => cs | None => [] end.

(** [maxLinks] with its default *)
Definition maxLinksOf (body : InternalLinkRequest.t) : Z :=
  match InternalLinkRequest.maxLinks body with Some k => k | None => 5%Z end.

(** A link of the response that stands for one of the candidates: above
    the floor, with the candidate's url and title, and with an anchor free
    of special characters *)
Definition linksTo (candidates : list LinkCandidate.t) (rl : ResponseLink.t) : Prop :=
  (ResponseLink.score rl > 0.001)%R
  /\ anyChar isSpecialChar (ResponseLink.anchor rl) = false
  /\ exists c, In c candidates
               /\ ResponseLink.url rl = LinkCandidate.url c
               /\ ResponseLink.title rl = LinkCandidate.title c.


(** A text without [<]: no tag can start in it *)
Definition plainText (s : string) : bool := negb (anyChar isLt s).

(** A piece of a split that is not the empty string *)
Definition nonEmpty (w : string) : bool := 0 <? String.length w.

End Notions.

(* ================================================================== *)
(** * Properties *)
(* ================================================================== *)

(* ------------------------------------------------------------------ *)
(** ** Strings *)
(* ------------------------------------------------------------------ *)

Section StringFacts.
Import JsString.

Lemma append_nil_r (s : string) : s ++ "" = s.
Proof. induction s as [|c s IH]; simpl; [reflexivity | now rewrite IH]. Qed.

Lemma append_assoc (a b c : string) : (a ++ b) ++ c = a ++ (b ++ c).
Proof. induction a as [|x a IH]; simpl; [reflexivity | now rewrite IH]. Qed.

Lemma allChars_app (p : ascii -> bool) (a b : string) :
  allChars p (a ++ b) = allChars p a && allChars p b.
Proof.
  induction a as [|x a IH]; simpl; [reflexivity|].
  now rewrite IH, andb_assoc.
Qed.

Lemma allChars_weaken (p q : ascii -> bool) (s : string) :
  (forall c, p c = true -> q c = true) ->
  allChars p s = true -> allChars q s = true.
Proof.
  intros Hpq. induction s as [|c s IH]; simpl; [reflexivity|].
  intros H. apply andb_true_iff in H as [Hc Hs].
  apply andb_true_iff. split; auto.
Qed.

Lemma mapStr_fixed (f : ascii -> ascii) (s : string) :
  allChars (fun c => Ascii.eqb (f c) c) s = true -> mapStr f s = s.
Proof.
  induction s as [|c s IH]; simpl; [reflexivity|].
  intros H. apply andb_true_iff in H as [Hc Hs].
  apply Ascii.eqb_eq in Hc. now rewrite Hc, IH.
Qed.

End StringFacts.

(* ------------------------------------------------------------------ *)
(** ** Tokenizer: a second pass changes nothing *)
(* ------------------------------------------------------------------ *)

Section TokenizerFacts.
Import JsString Tokenizer.

Ltac by_cases_on_char c :=
  destruct c as [[] [] [] [] [] [] [] []]; vm_compute; try reflexivity;
  try discriminate; try (intros; discriminate); try (intros; reflexivity).

Lemma lowerChar_notUpper (c : ascii) : notUpper (lowerChar c) = true.
Proof. by_cases_on_char c. Qed.

Lemma tokenChar_lower (c : ascii) :
  tokenOrSpace c = true -> Ascii.eqb (lowerChar c) c = true.
Proof. by_cases_on_char c. Qed.

Lemma tokenChar_notLt (c : ascii) : tokenOrSpace c = true -> isLt c = false.
Proof. by_cases_on_char c. Qed.

Lemma tokenChar_blank (c : ascii) :
  tokenOrSpace c = true -> Ascii.eqb (blankPunct c) c = true.
Proof. by_cases_on_char c. Qed.

Lemma tokenChar_notSpace (c : ascii) : isTokenChar c = true -> isSpaceChar c = false.
Proof. by_cases_on_char c. Qed.

Lemma tokenChar_tokenOrSpace (c : ascii) : isTokenChar c = true -> tokenOrSpace c = true.
Proof. unfold tokenOrSpace. now intros ->. Qed.

Lemma blankPunct_tokenOrSpace (c : ascii) :
  notUpper c = true -> tokenOrSpace (blankPunct c) = true.
Proof. by_cases_on_char c. Qed.

Lemma nonSpace_token (c : ascii) :
  tokenOrSpace c = true -> isSpaceChar c = false -> isTokenChar c = true.
Proof. unfold tokenOrSpace. intros H Hs. now rewrite Hs, orb_false_r in H. Qed.

(** *** The first pass only makes well-formed tokens *)

Lemma toLowerCase_notUpper (s : string) : allChars notUpper (toLowerCase s) = true.
Proof.
  induction s as [|c s IH]; simpl; [reflexivity|].
  now rewrite lowerChar_notUpper.
Qed.

Lemma stripTagsAux_notUpper (s : string) : forall inTag,
  allChars notUpper s = true -> allChars notUpper (stripTagsAux inTag s) = true.
Proof.
  induction s as [|c s IH]; intros inTag H; simpl; [reflexivity|].
  simpl in H. apply andb_true_iff in H as [Hc Hs].
  destruct inTag.
  - destruct (isGt c); auto.
  - destruct (isLt c && anyChar isGt s); simpl.
    + auto.
    + rewrite Hc. simpl. auto.
Qed.

Lemma stripPunctuation_tokenOrSpace (s : string) :
  allChars notUpper s = true -> allChars tokenOrSpace (stripPunctuation s) = true.
Proof.
  induction s as [|c s IH]; simpl; [reflexivity|].
  intros H. apply andb_true_iff in H as [Hc Hs].
  rewrite (blankPunct_tokenOrSpace c Hc). simpl. auto.
Qed.

Lemma splitWsAux_tokens (s : string) : forall cur inRun,
  allChars isTokenChar cur = true ->
  allChars tokenOrSpace s = true ->
  Forall (fun t => allChars isTokenChar t = true) (splitWsAux cur inRun s).
Proof.
  induction s as [|c s IH]; intros cur inRun Hcur H; simpl.
  - constructor; [assumption | constructor].
  - simpl in H. apply andb_true_iff in H as [Hc Hs].
    destruct (isSpaceChar c) eqn:Hsp.
    + destruct inRun; [| constructor; [assumption|]]; apply IH; auto.
    + apply IH; [|assumption].
      rewrite allChars_app, Hcur. simpl.
      now rewrite (nonSpace_token c Hc Hsp).
Qed.

Lemma tokenize_wellFormed (text : string) :
  Forall wellFormedToken (tokenize text).
Proof.
  unfold tokenize. apply Forall_forall. intros t Hin.
  apply filter_In in Hin as [Hin Hstop].
  apply filter_In in Hin as [Hin Hlen].
  repeat split.
  - pose proof (splitWsAux_tokens
        (stripPunctuation (stripTags (toLowerCase text))) "" false eq_refl
        (stripPunctuation_tokenOrSpace _
           (stripTagsAux_notUpper _ false (toLowerCase_notUpper text)))) as Hall.
    rewrite Forall_forall in Hall. now apply Hall.
  - now apply Nat.ltb_lt.
  - now apply negb_true_iff.
Qed.

(** *** Well-formed tokens, joined by spaces, come back as they are *)

Lemma join_tokenOrSpace (ts : list string) :
  Forall wellFormedToken ts -> allChars tokenOrSpace (join " " ts) = true.
Proof.
  induction ts as [|t ts IH]; intros H; [reflexivity|].
  inversion H as [|? ? [Ht _] Hts]; subst.
  assert (Ht' : allChars tokenOrSpace t = true)
    by (eapply allChars_weaken; [apply tokenChar_tokenOrSpace | exact Ht]).
  destruct ts as [|t2 ts]; [exact Ht'|].
  change (join " " (t :: t2 :: ts)) with (t ++ " " ++ join " " (t2 :: ts)).
  rewrite allChars_app, Ht'. simpl. apply IH. assumption.
Qed.

Lemma stripTagsAux_noLt (s : string) :
  allChars (fun c => negb (isLt c)) s = true -> stripTagsAux false s = s.
Proof.
  induction s as [|c s IH]; simpl; [reflexivity|].
  intros H. apply andb_true_iff in H as [Hc Hs].
  apply negb_true_iff in Hc. rewrite Hc. simpl. now rewrite IH.
Qed.

Lemma splitWsAux_nonSpace (t : string) : forall cur s,
  allChars isTokenChar t = true ->
  splitWsAux cur false (t ++ s) = splitWsAux (cur ++ t) false s.
Proof.
  induction t as [|c t IH]; intros cur s H; simpl.
  - now rewrite append_nil_r.
  - simpl in H. apply andb_true_iff in H as [Hc Ht].
    rewrite (tokenChar_notSpace c Hc), (IH _ _ Ht), append_assoc. reflexivity.
Qed.

Lemma splitWsAux_head (t s : string) (inRun : bool) :
  allChars isTokenChar t = true -> 0 < String.length t ->
  splitWsAux "" inRun (t ++ s) = splitWsAux t false s.
Proof.
  destruct t as [|c t]; simpl; [lia|].
  intros H _. apply andb_true_iff in H as [Hc Ht].
  rewrite (tokenChar_notSpace c Hc).
  now rewrite (splitWsAux_nonSpace t _ s Ht).
Qed.

Lemma splitWs_join (ts : list string) :
  Forall wellFormedToken ts -> ts <> [] ->
  forall inRun, splitWsAux "" inRun (join " " ts) = ts.
Proof.
  induction ts as [|t ts IH]; intros H Hne inRun; [congruence|].
  inversion H as [|? ? [Ht [Hlen _]] Hts]; subst.
  destruct ts as [|t2 ts].
  - simpl. rewrite <- (append_nil_r t) at 1.
    rewrite splitWsAux_head by (auto; lia). reflexivity.
  - change (join " " (t :: t2 :: ts)) with (t ++ " " ++ join " " (t2 :: ts)).
    rewrite splitWsAux_head by (auto; lia).
    change (" " ++ join " " (t2 :: ts)) with (String " " (join " " (t2 :: ts))).
    cbn [splitWsAux].
    change (isSpaceChar " ") with true. cbv iota.
    f_equal. apply IH; [assumption | discriminate].
Qed.

Lemma filter_all {A : Type} (p : A -> bool) (l : list A) :
  Forall (fun x => p x = true) l -> filter p l = l.
Proof.
  intros H. apply forallb_filter_id. now apply forallb_forall, Forall_forall.
Qed.

Lemma tokenize_join_wellFormed (ts : list string) :
  Forall wellFormedToken ts -> tokenize (join " " ts) = ts.
Proof.
  intros H. destruct ts as [|t0 ts0] eqn:E; [reflexivity|]. rewrite <- E in *.
  assert (Hne : ts <> []) by (rewrite E; discriminate).
  pose proof (join_tokenOrSpace ts H) as Hj.
  unfold tokenize.
  assert (Hlow : toLowerCase (join " " ts) = join " " ts).
  { apply mapStr_fixed. eapply allChars_weaken; [apply tokenChar_lower | exact Hj]. }
  rewrite Hlow.
  assert (Htag : stripTags (join " " ts) = join " " ts).
  { apply stripTagsAux_noLt. eapply allChars_weaken; [|exact Hj].
    intros c Hc. now rewrite (tokenChar_notLt c Hc). }
  rewrite Htag.
  assert (Hpun : stripPunctuation (join " " ts) = join " " ts).
  { apply mapStr_fixed. eapply allChars_weaken; [apply tokenChar_blank | exact Hj]. }
  rewrite Hpun.
  unfold splitWs. rewrite (splitWs_join ts H Hne).
  rewrite (filter_all (fun word => 2 <? String.length word)).
  - apply filter_all. eapply Forall_impl; [|exact H].
    intros t [_ [_ Hs]]. now rewrite Hs.
  - eapply Forall_impl; [|exact H].
    intros t [_ [Hl _]]. now apply Nat.ltb_lt.
Qed.

(** C9. Tokenization is idempotent: for every input, tokenizing the
    space-joined output of [tokenize] gives that output again; every token
    [tokenize] produces consists of lower-case word characters, is longer
    than two code units and is not a stop word, so the second pass drops
    nothing. *)
Theorem tokenize_idempotent (text : string) :
  tokenize (join " " (tokenize text)) = tokenize text
  /\ Forall wellFormedToken (tokenize text).
Proof.
  split.
  - apply tokenize_join_wellFormed, tokenize_wellFormed.
  - apply tokenize_wellFormed.
Qed.

End TokenizerFacts.

(* ------------------------------------------------------------------ *)
(** ** Maps of counts *)
(* ------------------------------------------------------------------ *)

Section CountFacts.
Import JsString TfIdf.

Lemma bump_cons (k' : string) (v' : nat) (r : JsMap.t nat) (k : string) :
  bump ((k', v') :: r) k =
  if String.eqb k' k then (k', v' + 1) :: r else (k', v') :: bump r k.
Proof.
  unfold bump, JsMap.getOr0. simpl.
  destruct (String.eqb k' k); reflexivity.
Qed.

Lemma sumCounts_bump (m : JsMap.t nat) (k : string) :
  sumCounts (bump m k) = sumCounts m + 1.
Proof.
  induction m as [|[k' v'] r IH]; [reflexivity|].
  rewrite bump_cons. destruct (String.eqb k' k).
  - unfold sumCounts. simpl. lia.
  - unfold sumCounts in *. simpl. rewrite IH. lia.
Qed.

Lemma get_bump (m : JsMap.t nat) (k t : string) :
  JsMap.get (bump m k) t =
  if String.eqb k t then Some (JsMap.getOr0 m t + 1) else JsMap.get m t.
Proof.
  induction m as [|[k' v'] r IH].
  - unfold bump, JsMap.getOr0. simpl. reflexivity.
  - rewrite bump_cons. unfold JsMap.getOr0 in *. simpl.
    destruct (String.eqb k' k) eqn:Ek'.
    + apply String.eqb_eq in Ek'. subst k'. simpl.
      destruct (String.eqb k t); reflexivity.
    + simpl. destruct (String.eqb k' t) eqn:Et.
      * apply String.eqb_eq in Et. subst k'.
        rewrite String.eqb_sym, Ek'. reflexivity.
      * apply IH.
Qed.

Lemma getOr0_bump (m : JsMap.t nat) (k t : string) :
  JsMap.getOr0 (bump m k) t =
  JsMap.getOr0 m t + (if String.eqb k t then 1 else 0).
Proof.
  unfold JsMap.getOr0 at 1. rewrite get_bump.
  destruct (String.eqb k t); [reflexivity|].
  unfold JsMap.getOr0. lia.
Qed.

Lemma has_bump (m : JsMap.t nat) (k t : string) :
  JsMap.has (bump m k) t = String.eqb k t || JsMap.has m t.
Proof.
  unfold JsMap.has. rewrite get_bump.
  destruct (String.eqb k t); reflexivity.
Qed.

Lemma sumCounts_fold_bump (l : list string) : forall m,
  sumCounts (fold_left bump l m) = sumCounts m + List.length l.
Proof.
  induction l as [|k l IH]; intros m; simpl; [lia|].
  rewrite IH, sumCounts_bump. lia.
Qed.

Lemma getOr0_fold_bump (l : list string) (t : string) : forall m,
  JsMap.getOr0 (fold_left bump l m) t = JsMap.getOr0 m t + occurrences t l.
Proof.
  unfold occurrences.
  induction l as [|k l IH]; intros m; simpl; [lia|].
  rewrite IH, getOr0_bump, (String.eqb_sym t k).
  destruct (String.eqb k t); simpl; lia.
Qed.

Lemma has_fold_bump (l : list string) (t : string) : forall m,
  JsMap.has (fold_left bump l m) t = JsMap.has m t || includes l t.
Proof.
  unfold includes.
  induction l as [|k l IH]; intros m; simpl; [now rewrite orb_false_r|].
  rewrite IH, has_bump, (String.eqb_sym t k).
  destruct (String.eqb k t), (JsMap.has m t); reflexivity.
Qed.

Lemma get_has_getOr0 (m : JsMap.t nat) (t : string) :
  JsMap.get m t = if JsMap.has m t then Some (JsMap.getOr0 m t) else None.
Proof. unfold JsMap.has, JsMap.getOr0. destruct (JsMap.get m t); reflexivity. Qed.

Lemma get_mapValues {V W : Type} (f : V -> W) (m : JsMap.t V) (t : string) :
  JsMap.get (JsMap.mapValues f m) t = option_map f (JsMap.get m t).
Proof.
  induction m as [|[k v] r IH]; simpl; [reflexivity|].
  destruct (String.eqb k t); [reflexivity | exact IH].
Qed.

Lemma includes_In (l : list string) (x : string) :
  includes l x = true <-> In x l.
Proof.
  unfold includes. rewrite existsb_exists. split.
  - intros [y [Hy E]]. apply String.eqb_eq in E. now subst.
  - intros H. exists x. split; [assumption | apply String.eqb_refl].
Qed.

End CountFacts.

(* ------------------------------------------------------------------ *)
(** ** Term frequencies *)
(* ------------------------------------------------------------------ *)

Section TfFacts.
Import JsString TfIdf.
Local Open Scope R_scope.

Lemma sumValues_scaled (n : nat) (m : JsMap.t nat) :
  sumValues (JsMap.mapValues (fun count => INR count / INR n) m)
  = INR (sumCounts m) / INR n.
Proof.
  unfold sumValues, sumCounts, JsMap.values, JsMap.mapValues.
  induction m as [|[k v] r IH]; simpl.
  - unfold Rdiv. now rewrite Rmult_0_l.
  - rewrite IH, plus_INR. unfold Rdiv. ring.
Qed.

Lemma countTokens_total (tokens : list string) :
  sumCounts (countTokens tokens) = List.length tokens.
Proof. unfold countTokens. now rewrite sumCounts_fold_bump. Qed.

Lemma calculateTF_entry (tokens : list string) (term : string) :
  JsMap.get (calculateTF tokens) term =
  if includes tokens term
  then Some (INR (occurrences term tokens) / INR (List.length tokens))
  else None.
Proof.
  unfold calculateTF, countTokens.
  rewrite get_mapValues, get_has_getOr0, has_fold_bump, getOr0_fold_bump.
  simpl. destruct (includes tokens term); reflexivity.
Qed.

(** Over the reals, where the quotients are exact: for every non-empty
    token sequence the values of the map sum to 1, the entry of a term that
    occurs being its number of occurrences divided by the number of tokens
    (and a term that does not occur having no entry). *)
Lemma calculateTF_sums_to_one (tokens : list string) :
  tokens <> [] ->
  sumValues (calculateTF tokens) = 1
  /\ forall term,
       JsMap.get (calculateTF tokens) term =
       if includes tokens term
       then Some (INR (occurrences term tokens) / INR (List.length tokens))
       else None.
Proof.
  intros Hne. split; [|apply calculateTF_entry].
  unfold calculateTF. rewrite sumValues_scaled, countTokens_total.
  apply Rinv_r. apply not_0_INR.
  destruct tokens; [congruence | discriminate].
Qed.

Lemma calculateTF_sums_to_one_sample :
  sumValues (calculateTF ["react"; "hooks"; "react"]) = 1
  /\ forall term,
       JsMap.get (calculateTF ["react"; "hooks"; "react"]) term =
       if includes ["react"; "hooks"; "react"] term
       then Some (INR (occurrences term ["react"; "hooks"; "react"])
                  / INR (List.length ["react"; "hooks"; "react"]))
       else None.
Proof. apply (calculateTF_sums_to_one ["react"; "hooks"; "react"]). discriminate. Defined.

End TfFacts.

(* ------------------------------------------------------------------ *)
(** ** Inverse document frequencies *)
(* ------------------------------------------------------------------ *)

Section IdfFacts.
Import JsString TfIdf Samples.

Lemma occurrences_newSetAux (t : string) (doc : list string) : forall seen,
  occurrences t (newSetAux seen doc) =
  if includes seen t then 0
  else if includes doc t then 1 else 0.
Proof.
  induction doc as [|x doc IH]; intros seen.
  - unfold occurrences, includes. simpl.
    now destruct (existsb (String.eqb t) seen).
  - cbn [newSetAux]. destruct (includes seen x) eqn:Ex.
    + rewrite IH. unfold includes in *. simpl.
      destruct (existsb (String.eqb t) seen) eqn:Et; [reflexivity|].
      destruct (String.eqb t x) eqn:Etx; [|reflexivity].
      apply String.eqb_eq in Etx. subst x. congruence.
    + unfold occurrences in *. cbn [filter].
      destruct (String.eqb t x) eqn:Etx.
      * apply String.eqb_eq in Etx. subst x.
        cbn [List.length]. rewrite IH.
        unfold includes in *. simpl. rewrite String.eqb_refl, Ex. reflexivity.
      * rewrite IH. unfold includes in *. simpl. rewrite Etx. reflexivity.
Qed.

Lemma occurrences_newSet (t : string) (doc : list string) :
  occurrences t (newSet doc) = if includes doc t then 1 else 0.
Proof. unfold newSet. now rewrite occurrences_newSetAux. Qed.

Lemma includes_newSet (t : string) (doc : list string) :
  includes (newSet doc) t = includes doc t.
Proof.
  pose proof (occurrences_newSet t doc) as H. unfold occurrences in H.
  destruct (includes doc t) eqn:E.
  - apply includes_In.
    destruct (filter (String.eqb t) (newSet doc)) as [|y l] eqn:F; [discriminate|].
    assert (Hy : In y (filter (String.eqb t) (newSet doc))) by (rewrite F; now left).
    apply filter_In in Hy as [Hy Ey]. apply String.eqb_eq in Ey. now subst.
  - destruct (includes (newSet doc) t) eqn:E'; [|reflexivity].
    apply includes_In in E'.
    assert (Hy : In t (filter (String.eqb t) (newSet doc)))
      by (apply filter_In; split; [assumption | apply String.eqb_refl]).
    destruct (filter (String.eqb t) (newSet doc)); [contradiction | discriminate].
Qed.

Lemma getOr0_countDocs (documents : list (list string)) (t : string) : forall df,
  JsMap.getOr0 (fold_left countStep documents df) t
  = JsMap.getOr0 df t + docFreq t documents.
Proof.
  unfold docFreq.
  induction documents as [|doc documents IH]; intros df; simpl; [lia|].
  rewrite IH. unfold countStep.
  rewrite getOr0_fold_bump, occurrences_newSet.
  destruct (includes doc t); simpl; lia.
Qed.

Lemma has_countDocs (documents : list (list string)) (t : string) : forall df,
  JsMap.has (fold_left countStep documents df) t
  = JsMap.has df t || (0 <? docFreq t documents).
Proof.
  unfold docFreq.
  induction documents as [|doc documents IH]; intros df; simpl.
  - now rewrite orb_false_r.
  - rewrite IH. unfold countStep.
    rewrite has_fold_bump, includes_newSet.
    destruct (includes doc t), (JsMap.has df t); simpl; try reflexivity.
Qed.

Lemma countDocuments_entry (documents : list (list string)) (t : string) :
  JsMap.get (countDocuments documents) t =
  if 0 <? docFreq t documents then Some (docFreq t documents) else None.
Proof.
  unfold countDocuments.
  rewrite get_has_getOr0, has_countDocs, getOr0_countDocs. reflexivity.
Qed.

Lemma calculateIDF_entry (documents : list (list string)) (t : string) :
  JsMap.get (calculateIDF documents) t =
  if 0 <? docFreq t documents
  then Some (idfWeightOf (List.length documents) (docFreq t documents))
  else None.
Proof.
  unfold calculateIDF. rewrite get_mapValues, countDocuments_entry.
  destruct (0 <? docFreq t documents); reflexivity.
Qed.

Lemma docFreq_pos (documents : list (list string)) (t : string) :
  In t (List.concat documents) -> 0 < docFreq t documents.
Proof.
  unfold docFreq. intros H. apply in_concat in H as [doc [Hdoc Ht]].
  assert (Hin : In doc (filter (fun d => includes d t) documents))
    by (apply filter_In; split; [assumption | now apply includes_In]).
  destruct (filter (fun d => includes d t) documents); [contradiction | simpl; lia].
Qed.

Lemma idfWeightOf_decreasing (N a b : nat) :
  a < b -> (idfWeightOf N b < idfWeightOf N a)%R.
Proof.
  intros Hab. unfold idfWeightOf.
  apply Rplus_lt_compat_r.
  assert (Ha : (0 < INR (a + 1))%R) by (apply lt_0_INR; lia).
  assert (Hb : (0 < INR (b + 1))%R) by (apply lt_0_INR; lia).
  assert (HN : (0 < INR (N + 1))%R) by (apply lt_0_INR; lia).
  assert (Hlt : (INR (a + 1) < INR (b + 1))%R) by (apply lt_INR; lia).
  apply ln_increasing.
  - apply Rdiv_lt_0_compat; assumption.
  - unfold Rdiv. apply Rmult_lt_compat_l; [assumption|].
    apply Rinv_lt_contravar; [apply Rmult_lt_0_compat; assumption | assumption].
Qed.

(** C8. In every corpus, for two terms A and B that occur in it, if the
    document frequency of A is strictly below that of B, the map that
    [calculateIDF] returns holds a weight for each, namely
    ln((N+1)/(df+1)) + 1 with N the number of documents, and the weight of A
    is strictly above that of B. *)
Theorem calculateIDF_monotone (documents : list (list string)) (A B : string) :
  In A (List.concat documents) -> In B (List.concat documents) ->
  docFreq A documents < docFreq B documents ->
  exists wa wb : R,
    JsMap.get (calculateIDF documents) A = Some wa
    /\ JsMap.get (calculateIDF documents) B = Some wb
    /\ wa = idfWeightOf (List.length documents) (docFreq A documents)
    /\ wb = idfWeightOf (List.length documents) (docFreq B documents)
    /\ (wa > wb)%R.
Proof.
  intros HA HB Hlt.
  apply docFreq_pos in HA. apply docFreq_pos in HB.
  exists (idfWeightOf (List.length documents) (docFreq A documents)),
         (idfWeightOf (List.length documents) (docFreq B documents)).
  rewrite !calculateIDF_entry.
  apply Nat.ltb_lt in HA, HB. rewrite HA, HB.
  repeat split. now apply idfWeightOf_decreasing.
Qed.

Lemma calculateIDF_monotone_witness :
  exists wa wb : R,
    JsMap.get (calculateIDF sampleCorpus) "guide" = Some wa
    /\ JsMap.get (calculateIDF sampleCorpus) "hooks" = Some wb
    /\ wa = idfWeightOf (List.length sampleCorpus) (docFreq "guide" sampleCorpus)
    /\ wb = idfWeightOf (List.length sampleCorpus) (docFreq "hooks" sampleCorpus)
    /\ (wa > wb)%R.
Proof.
  apply (calculateIDF_monotone sampleCorpus "guide" "hooks").
  - simpl. tauto.
  - simpl. tauto.
  - vm_compute. lia.
Defined.

End IdfFacts.

(* ------------------------------------------------------------------ *)
(** ** Selection: distinct anchors, bucket cap, link budget *)
(* ------------------------------------------------------------------ *)

Section SelectionFacts.
Import JsString Placement Samples.
Local Open Scope Z_scope.

Lemma countPosition_snoc (p : Position) (l : list ScoredLink.t) (x : ScoredLink.t) :
  countPosition p (l ++ [x])
  = (countPosition p l + if Position_eqb (ScoredLink.position x) p then 1 else 0)%nat.
Proof.
  unfold countPosition. rewrite filter_app, length_app. simpl.
  destruct (Position_eqb (ScoredLink.position x) p); reflexivity.
Qed.

Lemma countOf_increment (pc : PositionCounts) (q p : Position) :
  countOf (increment pc q) p
  = (countOf pc p + if Position_eqb q p then 1 else 0)%nat.
Proof. destruct q, p; simpl; lia. Qed.

Lemma Position_eqb_eq (p q : Position) : Position_eqb p q = true <-> p = q.
Proof. destruct p, q; simpl; split; congruence. Qed.

Lemma selectLoop_consistent (maxLinks maxPerPosition : Z) (sorted : list ScoredLink.t) :
  forall st, Consistent st -> Consistent (selectLoop maxLinks maxPerPosition sorted st).
Proof.
  induction sorted as [|link rest IH]; intros st Hst; simpl; [assumption|].
  destruct (Z.of_nat (List.length (selected st)) >=? maxLinks); [assumption|].
  destruct (includes (usedAnchors st) (toLowerCase (ScoredLink.anchor link))) eqn:Edup;
    [now apply IH|].
  destruct (Z.of_nat (countOf (positionCounts st) (ScoredLink.position link))
            >=? maxPerPosition + 1); [now apply IH|].
  apply IH. destruct Hst as [Hkeys Hnodup Hcounts]. constructor; simpl.
  - rewrite map_app, Hkeys. reflexivity.
  - apply NoDup_app; [assumption | repeat constructor; intros [] |].
    intros x Hx [Hx'|[]]. subst x.
    apply includes_In in Hx. congruence.
  - intros p. now rewrite countOf_increment, countPosition_snoc, Hcounts.
Qed.

Lemma selectLoop_within (maxLinks maxPerPosition : Z) (sorted : list ScoredLink.t) :
  forall st, Within maxLinks maxPerPosition st ->
             Within maxLinks maxPerPosition (selectLoop maxLinks maxPerPosition sorted st).
Proof.
  induction sorted as [|link rest IH]; intros st Hst; simpl; [assumption|].
  destruct (Z.of_nat (List.length (selected st)) >=? maxLinks) eqn:Efull; [assumption|].
  destruct (includes (usedAnchors st) (toLowerCase (ScoredLink.anchor link)));
    [now apply IH|].
  destruct (Z.of_nat (countOf (positionCounts st) (ScoredLink.position link))
            >=? maxPerPosition + 1) eqn:Ecap; [now apply IH|].
  apply IH. destruct Hst as [Htotal Hbucket]. constructor; simpl.
  - rewrite length_app. simpl. lia.
  - intros p. rewrite countOf_increment. specialize (Hbucket p).
    destruct (Position_eqb (ScoredLink.position link) p) eqn:Ep; [|lia].
    apply Position_eqb_eq in Ep. subst p. lia.
Qed.

Lemma selectLoop_from (maxLinks maxPerPosition : Z) (sorted : list ScoredLink.t) :
  forall st x,
    In x (selected (selectLoop maxLinks maxPerPosition sorted st)) ->
    In x (selected st) \/ In x sorted.
Proof.
  induction sorted as [|link rest IH]; intros st x; simpl; [auto|].
  destruct (Z.of_nat (List.length (selected st)) >=? maxLinks); [auto|].
  destruct (includes (usedAnchors st) (toLowerCase (ScoredLink.anchor link))).
  { intros H. apply IH in H. tauto. }
  destruct (Z.of_nat (countOf (positionCounts st) (ScoredLink.position link))
            >=? maxPerPosition + 1).
  { intros H. apply IH in H. tauto. }
  intros H. apply IH in H. simpl in H.
  destruct H as [H|H]; [|tauto].
  apply in_app_or in H as [H|[H|[]]]; auto.
Qed.

Lemma insertByScore_In (x y : ScoredLink.t) (l : list ScoredLink.t) :
  In x (insertByScore y l) <-> x = y \/ In x l.
Proof.
  induction l as [|z l IH]; simpl; [intuition congruence|].
  destruct (Rlt_dec (ScoredLink.score y) (ScoredLink.score z)); simpl;
    [rewrite IH|]; intuition congruence.
Qed.

Lemma sortByScoreDesc_In (x : ScoredLink.t) (l : list ScoredLink.t) :
  In x (sortByScoreDesc l) <-> In x l.
Proof.
  unfold sortByScoreDesc.
  induction l as [|y l IH]; simpl; [tauto|].
  rewrite insertByScore_In, IH. intuition congruence.
Qed.

Lemma selectOptimalLinks_subset (scoredLinks : list ScoredLink.t) (maxLinks : Z)
    (x : ScoredLink.t) :
  In x (selectOptimalLinks scoredLinks maxLinks) -> In x scoredLinks.
Proof.
  unfold selectOptimalLinks. intros H.
  apply selectLoop_from in H as [[]|H]. now apply sortByScoreDesc_In.
Qed.

Lemma initial_consistent : Consistent (mkSelection [] [] (mkCounts 0 0 0)).
Proof. constructor; simpl; [reflexivity | constructor | now intros []]. Qed.

Lemma initial_within (maxLinks maxPerPosition : Z) :
  Within maxLinks maxPerPosition (mkSelection [] [] (mkCounts 0 0 0)).
Proof. constructor; simpl; [lia | intros []; simpl; lia]. Qed.

Lemma ceilThird_spec (k : Z) : 3 * (ceilThird k - 1) < k <= 3 * ceilThird k.
Proof.
  unfold ceilThird.
  pose proof (Z.div_mod (- k) 3 ltac:(lia)) as Hdm.
  pose proof (Z.mod_pos_bound (- k) 3 ltac:(lia)) as Hmod.
  lia.
Qed.

(** C1. For every list of scored links and every [maxLinks], no two
    elements of the output of [selectOptimalLinks] have anchors that are
    equal once lower-cased. *)
Theorem selectOptimalLinks_distinct_anchors
    (scoredLinks : list ScoredLink.t) (maxLinks : Z) :
  NoDup (map (fun l => toLowerCase (ScoredLink.anchor l))
             (selectOptimalLinks scoredLinks maxLinks)).
Proof.
  unfold selectOptimalLinks.
  destruct (selectLoop_consistent maxLinks (ceilThird maxLinks)
              (sortByScoreDesc scoredLinks) _ initial_consistent)
    as [Hkeys Hnodup _].
  rewrite Hkeys in Hnodup. exact Hnodup.
Qed.

(** C2, as the code has it. For every list of scored links and every
    integer [maxLinks] that is not negative, the output of
    [selectOptimalLinks] has at most [maxLinks] elements and, for each of
    the three positions, at most ceil(maxLinks / 3) + 1 elements of that
    position; [ceilThird] is that ceiling. *)
Theorem selectOptimalLinks_caps
    (scoredLinks : list ScoredLink.t) (maxLinks : Z) :
  0 <= maxLinks ->
  Z.of_nat (List.length (selectOptimalLinks scoredLinks maxLinks)) <= maxLinks
  /\ (forall p,
        Z.of_nat (countPosition p (selectOptimalLinks scoredLinks maxLinks))
        <= ceilThird maxLinks + 1)
  /\ 3 * (ceilThird maxLinks - 1) < maxLinks <= 3 * ceilThird maxLinks.
Proof.
  intros Hk. unfold selectOptimalLinks.
  pose proof (selectLoop_consistent maxLinks (ceilThird maxLinks)
                (sortByScoreDesc scoredLinks) _ initial_consistent) as [_ _ Hc].
  pose proof (selectLoop_within maxLinks (ceilThird maxLinks)
                (sortByScoreDesc scoredLinks) _
                (initial_within maxLinks (ceilThird maxLinks))) as [Ht Hb].
  pose proof (ceilThird_spec maxLinks) as Hceil.
  repeat split; try lia.
  intros p. rewrite <- Hc. specialize (Hb p). lia.
Qed.

Lemma selectOptimalLinks_caps_witness :
  Z.of_nat (List.length (selectOptimalLinks sampleLinks 5)) <= 5
  /\ (forall p,
        Z.of_nat (countPosition p (selectOptimalLinks sampleLinks 5)) <= ceilThird 5 + 1)
  /\ 3 * (ceilThird 5 - 1) < 5 <= 3 * ceilThird 5.
Proof. apply (selectOptimalLinks_caps sampleLinks 5). lia. Defined.

(** A negative [maxLinks] stops the loop at once: nothing is selected, and
    zero links are more than [maxLinks] allows. *)
Lemma selectOptimalLinks_negative_budget :
  selectOptimalLinks [] (-1) = []
  /\ ~ (Z.of_nat (List.length (selectOptimalLinks [] (-1))) <= -1).
Proof. split; [reflexivity | simpl; lia]. Qed.

(** X2. With a [maxLinks] of zero or less, [selectOptimalLinks] selects
    nothing, whatever the scored links. *)
Lemma selectOptimalLinks_nonpositive (scoredLinks : list ScoredLink.t) (maxLinks : Z) :
  maxLinks <= 0 -> selectOptimalLinks scoredLinks maxLinks = [].
Proof.
  intros Hk. unfold selectOptimalLinks.
  destruct (sortByScoreDesc scoredLinks) as [|x l]; [reflexivity|].
  simpl. destruct (0 >=? maxLinks) eqn:E; [reflexivity | lia].
Qed.

Lemma selectOptimalLinks_nonpositive_witness :
  selectOptimalLinks sampleLinks 0 = [].
Proof. apply (selectOptimalLinks_nonpositive sampleLinks 0). lia. Defined.

End SelectionFacts.

(* ------------------------------------------------------------------ *)
(** ** Selection follows the order of the scores *)
(* ------------------------------------------------------------------ *)

Section OrderFacts.
Import Placement.

Lemma insertByScore_perm (x : ScoredLink.t) (l : list ScoredLink.t) :
  Permutation (x :: l) (insertByScore x l).
Proof.
  induction l as [|y l IH]; simpl; [apply Permutation_refl|].
  destruct (Rlt_dec (ScoredLink.score x) (ScoredLink.score y)).
  - eapply perm_trans; [apply perm_swap|]. now apply perm_skip.
  - apply Permutation_refl.
Qed.

Lemma sortByScoreDesc_perm (l : list ScoredLink.t) :
  Permutation l (sortByScoreDesc l).
Proof.
  unfold sortByScoreDesc.
  induction l as [|x l IH]; simpl; [constructor|].
  eapply perm_trans; [apply perm_skip, IH | apply insertByScore_perm].
Qed.

Lemma insertByScore_sorted (x : ScoredLink.t) (l : list ScoredLink.t) :
  StronglySorted scoreGe l -> StronglySorted scoreGe (insertByScore x l).
Proof.
  induction l as [|y l IH]; intros Hs; simpl.
  - constructor; constructor.
  - inversion Hs as [|? ? Hl Hy]; subst.
    destruct (Rlt_dec (ScoredLink.score x) (ScoredLink.score y)) as [Hlt|Hge].
    + constructor; [now apply IH|].
      apply Forall_forall. intros z Hz.
      apply (Permutation_in z (Permutation_sym (insertByScore_perm x l))) in Hz.
      destruct Hz as [<-|Hz].
      * unfold scoreGe. lra.
      * rewrite Forall_forall in Hy. now apply Hy.
    + constructor; [assumption|].
      constructor; [unfold scoreGe; lra|].
      eapply Forall_impl; [|exact Hy].
      unfold scoreGe. intros z Hz. lra.
Qed.

Lemma sortByScoreDesc_sorted (l : list ScoredLink.t) :
  StronglySorted scoreGe (sortByScoreDesc l).
Proof.
  unfold sortByScoreDesc.
  induction l as [|x l IH]; simpl; [constructor | now apply insertByScore_sorted].
Qed.

Lemma StronglySorted_app_l {A : Type} (R : A -> A -> Prop) (a b : list A) :
  StronglySorted R (a ++ b) -> StronglySorted R a.
Proof.
  induction a as [|x a IH]; simpl; intros H; [constructor|].
  inversion H as [|? ? Hs Hf]; subst.
  constructor; [now apply IH|].
  apply Forall_app in Hf. tauto.
Qed.

Lemma StronglySorted_drop {A : Type} (R : A -> A -> Prop) (a : list A) (x : A)
    (b : list A) :
  StronglySorted R (a ++ x :: b) -> StronglySorted R (a ++ b).
Proof.
  induction a as [|y a IH]; simpl; intros H.
  - now inversion H.
  - inversion H as [|? ? Hs Hf]; subst.
    constructor; [now apply IH|].
    apply Forall_app in Hf as [Ha Hb]. apply Forall_app. split; [assumption|].
    now inversion Hb.
Qed.

Lemma selectLoop_sorted (maxLinks maxPerPosition : Z) (sorted : list ScoredLink.t) :
  forall st,
    StronglySorted scoreGe (selected st ++ sorted) ->
    StronglySorted scoreGe (selected (selectLoop maxLinks maxPerPosition sorted st)).
Proof.
  induction sorted as [|link rest IH]; intros st Hs; simpl.
  - now rewrite app_nil_r in Hs.
  - destruct (Z.of_nat (List.length (selected st)) >=? maxLinks)%Z;
      [now apply StronglySorted_app_l in Hs|].
    destruct (JsString.includes (usedAnchors st) _);
      [apply IH; now apply StronglySorted_drop in Hs|].
    destruct (Z.of_nat (countOf (positionCounts st) (ScoredLink.position link))
              >=? maxPerPosition + 1)%Z;
      [apply IH; now apply StronglySorted_drop in Hs|].
    apply IH. simpl. now rewrite <- app_assoc.
Qed.

(** X4. The links that [selectOptimalLinks] returns stand in the order of
    their scores, the highest first, and each is one of the scored links
    given. *)
Lemma selectOptimalLinks_ordered (scoredLinks : list ScoredLink.t) (maxLinks : Z) :
  StronglySorted scoreGe (selectOptimalLinks scoredLinks maxLinks)
  /\ incl (selectOptimalLinks scoredLinks maxLinks) scoredLinks.
Proof.
  split.
  - unfold selectOptimalLinks. apply selectLoop_sorted. simpl.
    apply sortByScoreDesc_sorted.
  - intros x. apply selectOptimalLinks_subset.
Qed.

End OrderFacts.

(* ------------------------------------------------------------------ *)
(** ** Position buckets *)
(* ------------------------------------------------------------------ *)

Section PositionFacts.
Import Placement.
Local Open Scope R_scope.

Lemma INR_100 : INR 100 = 100.
Proof. rewrite INR_IZR_INZ. reflexivity. Qed.

Lemma ratio_lt_hundredths (i n k : nat) :
  (0 < n)%nat -> (INR i / INR n < INR k / 100 <-> (100 * i < k * n)%nat).
Proof.
  intros Hn.
  assert (Hn' : 0 < INR n) by (now apply lt_0_INR).
  split.
  - intros H. apply INR_lt. rewrite !mult_INR, INR_100.
    apply (Rmult_lt_compat_r (INR n)) in H; [|assumption].
    unfold Rdiv in H. rewrite Rmult_assoc, Rinv_l, Rmult_1_r in H by lra.
    lra.
  - intros H. apply lt_INR in H. rewrite !mult_INR, INR_100 in H.
    apply (Rmult_lt_reg_r (INR n)); [assumption|].
    unfold Rdiv. rewrite Rmult_assoc, Rinv_l, Rmult_1_r by lra. lra.
Qed.

(** The buckets by integer arithmetic, for any pool that is not empty *)
Lemma determineLinkPosition_nat (i n : nat) :
  (0 < n)%nat ->
  determineLinkPosition i n =
  if (100 * i <? 33 * n)%nat then early
  else if (100 * i <? 66 * n)%nat then middle
  else late.
Proof.
  intros Hn. unfold determineLinkPosition.
  destruct n as [|n']; [lia|].
  pose proof (ratio_lt_hundredths i (S n') 33 Hn) as H33.
  pose proof (ratio_lt_hundredths i (S n') 66 Hn) as H66.
  replace (INR 33 / 100) with 0.33 in H33 by (rewrite INR_IZR_INZ; simpl; lra).
  replace (INR 66 / 100) with 0.66 in H66 by (rewrite INR_IZR_INZ; simpl; lra).
  destruct (Rlt_dec (INR i / INR (S n')) 0.33) as [Ha|Ha].
  - apply H33 in Ha. apply Nat.ltb_lt in Ha. now rewrite Ha.
  - assert (Hb : (100 * i <? 33 * S n')%nat = false)
      by (apply Nat.ltb_ge; apply Nat.nlt_ge; intros C; apply Ha, H33, C).
    rewrite Hb.
    destruct (Rlt_dec (INR i / INR (S n')) 0.66) as [Hc|Hc].
    + apply H66 in Hc. apply Nat.ltb_lt in Hc. now rewrite Hc.
    + assert (Hd : (100 * i <? 66 * S n')%nat = false)
        by (apply Nat.ltb_ge; apply Nat.nlt_ge; intros C; apply Hc, H66, C).
      now rewrite Hd.
Qed.

(** C6, as the code has it. For a candidate at zero-based index [i] of a
    pool of [n] candidates, the position depends on [i] and [n] only, with
    the cuts at 0.33 and 0.66: early exactly when i/n < 0.33, middle exactly
    when 0.33 <= i/n < 0.66, late exactly when 0.66 <= i/n. *)
Theorem determineLinkPosition_cuts (i n : nat) :
  (i < n)%nat ->
  (determineLinkPosition i n = early <-> INR i / INR n < 0.33)
  /\ (determineLinkPosition i n = middle <-> 0.33 <= INR i / INR n < 0.66)
  /\ (determineLinkPosition i n = late <-> 0.66 <= INR i / INR n).
Proof.
  intros Hin. unfold determineLinkPosition.
  destruct n as [|n']; [lia|].
  destruct (Rlt_dec (INR i / INR (S n')) 0.33) as [Ha|Ha];
    [|destruct (Rlt_dec (INR i / INR (S n')) 0.66) as [Hb|Hb]];
    repeat split; intros; try discriminate; try lra.
Qed.

Lemma determineLinkPosition_cuts_witness :
  (determineLinkPosition 1 3 = early <-> INR 1 / INR 3 < 0.33)
  /\ (determineLinkPosition 1 3 = middle <-> 0.33 <= INR 1 / INR 3 < 0.66)
  /\ (determineLinkPosition 1 3 = late <-> 0.66 <= INR 1 / INR 3).
Proof. apply (determineLinkPosition_cuts 1 3). lia. Defined.

(** Index 33 of 100 lies in the first third of the pool, and index 66 of
    100 in the second, yet the code puts the one in the middle bucket and
    the other in the late one. *)
Lemma determineLinkPosition_not_thirds :
  (INR 33 / INR 100 < 1 / 3 /\ determineLinkPosition 33 100 = middle)
  /\ (1 / 3 <= INR 66 / INR 100 < 2 / 3 /\ determineLinkPosition 66 100 = late).
Proof.
  rewrite !determineLinkPosition_nat by lia.
  rewrite !INR_IZR_INZ. simpl Z.of_nat.
  repeat split; try reflexivity; lra.
Qed.

End PositionFacts.

(* ------------------------------------------------------------------ *)
(** ** Scoring: the relevance floor and the matched terms *)
(* ------------------------------------------------------------------ *)

Section ScoringFacts.
Import JsString Tokenizer TfIdf Placement Handler Samples.
Local Open Scope R_scope.

Lemma in_get_some {V : Type} (m : JsMap.t V) (k : string) (v : V) :
  In (k, v) m -> exists v', JsMap.get m k = Some v'.
Proof.
  induction m as [|[k' v'] r IH]; simpl; [contradiction|].
  intros [E|H].
  - inversion E; subst. rewrite String.eqb_refl. eauto.
  - destruct (String.eqb k' k); eauto.
Qed.

Lemma calculateTF_has (tokens : list string) (term : string) (w : R) :
  JsMap.get (calculateTF tokens) term = Some w -> In term tokens.
Proof.
  rewrite calculateTF_entry. destruct (includes tokens term) eqn:E; [|discriminate].
  intros _. now apply includes_In.
Qed.

Lemma tfidf_fold_overlap (contentTokens candidateTokens : list string) (idf : JsMap.t R)
    (entries : JsMap.t R) :
  (forall k v, In (k, v) entries -> In k contentTokens) ->
  forall acc,
    Overlap contentTokens candidateTokens acc ->
    Overlap contentTokens candidateTokens
      (fold_left (tfidfStep (calculateTF candidateTokens) idf) entries acc).
Proof.
  induction entries as [|[term w] entries IH]; intros Hkeys acc Hacc; simpl;
    [assumption|].
  apply IH; [intros k v H; apply (Hkeys k v); now right|].
  destruct (JsMap.get (calculateTF candidateTokens) term) as [cw|] eqn:Eg;
    [|assumption].
  destruct Hacc as [Hshared Hzero]. constructor; simpl.
  - intros t Ht. apply in_app_or in Ht as [Ht|[<-|[]]]; [now apply Hshared|].
    split; [apply (Hkeys term w); now left | eapply calculateTF_has; eassumption].
  - intros H. now apply app_eq_nil in H as [_ H].
Qed.

Lemma calculateTFIDF_overlap (contentTokens candidateTokens : list string)
    (idf : JsMap.t R) :
  Overlap contentTokens candidateTokens
    (calculateTFIDF contentTokens candidateTokens idf).
Proof.
  unfold calculateTFIDF. apply tfidf_fold_overlap.
  - intros k v H. apply in_get_some in H as [v' H].
    eapply calculateTF_has; eassumption.
  - constructor; simpl; [intros t [] | reflexivity].
Qed.

Lemma calculateTFIDF_disjoint (contentTokens candidateTokens : list string)
    (idf : JsMap.t R) :
  (forall t, In t contentTokens -> ~ In t candidateTokens) ->
  calculateTFIDF contentTokens candidateTokens idf = mkTfIdf 0 [].
Proof.
  intros Hdisj.
  destruct (calculateTFIDF_overlap contentTokens candidateTokens idf) as [Hshared Hzero].
  destruct (calculateTFIDF contentTokens candidateTokens idf) as [sc mt] eqn:E.
  simpl in *.
  destruct mt as [|t mt].
  - now rewrite Hzero.
  - destruct (Hshared t (or_introl eq_refl)) as [H1 H2]. now apply Hdisj in H1.
Qed.

Lemma keywordBoost_zero (keywordTokens candidateTokens : list string) :
  keywordBoost keywordTokens candidateTokens 0 = 0.
Proof.
  unfold keywordBoost.
  induction keywordTokens as [|kw l IH]; simpl; [reflexivity|].
  destruct (includes candidateTokens kw); [|exact IH].
  rewrite Rmult_0_l. exact IH.
Qed.

Lemma boostedScoreOf_zero (keywordTokens candidateTokens : list string)
    (targetKeyword : string) (candidate : LinkCandidate.t) :
  boostedScoreOf keywordTokens candidateTokens targetKeyword candidate 0 = 0.
Proof.
  unfold boostedScoreOf. rewrite keywordBoost_zero.
  destruct (someLabelInKeyword (LinkCandidate.categories candidate) _),
           (someLabelInKeyword (LinkCandidate.tags candidate) _); lra.
Qed.

Lemma scoreCandidate_some (contentTokens keywordTokens : list string) (idf : JsMap.t R)
    (targetKeyword : string) (total i : nat) (candidate : LinkCandidate.t)
    (candidateTokens : list string) (link : ScoredLink.t) :
  scoreCandidate contentTokens keywordTokens idf targetKeyword total i
    candidate candidateTokens = Some link ->
  ScoredLink.score link > 0.001
  /\ ScoredLink.score link =
       boostedScoreOf keywordTokens candidateTokens targetKeyword candidate
         (score (calculateTFIDF contentTokens candidateTokens idf))
  /\ ScoredLink.matchedTerms link =
       matchedTerms (calculateTFIDF contentTokens candidateTokens idf)
  /\ ScoredLink.position link = determineLinkPosition i total
  /\ ScoredLink.url link = LinkCandidate.url candidate.
Proof.
  unfold scoreCandidate.
  destruct (Rgt_dec _ 0.001) as [Hgt|Hle]; [|discriminate].
  intros E. inversion E; subst; simpl. auto.
Qed.

Lemma scoreCandidate_matched (contentTokens keywordTokens : list string) (idf : JsMap.t R)
    (targetKeyword : string) (total i : nat) (candidate : LinkCandidate.t)
    (candidateTokens : list string) (link : ScoredLink.t) :
  scoreCandidate contentTokens keywordTokens idf targetKeyword total i
    candidate candidateTokens = Some link ->
  ScoredLink.matchedTerms link <> []
  /\ forall t, In t (ScoredLink.matchedTerms link) ->
               In t contentTokens /\ In t candidateTokens.
Proof.
  intros H. apply scoreCandidate_some in H as [Hgt [Hsc [Hmt _]]].
  destruct (calculateTFIDF_overlap contentTokens candidateTokens idf) as [Hshared Hzero].
  rewrite Hmt. split; [|exact Hshared].
  intros Hnil. rewrite (Hzero Hnil), boostedScoreOf_zero in Hsc. lra.
Qed.

(** The body of the scoring loop pushes a link for a candidate exactly
    when the boosted score is strictly above 0.001; and for a candidate
    that shares no token with the content the base score is 0, the boosted
    score is 0 whatever boosts apply, and no link is pushed. *)
Lemma scoreCandidate_floor (contentTokens keywordTokens : list string)
    (idf : JsMap.t R) (targetKeyword : string) (total i : nat)
    (candidate : LinkCandidate.t) (candidateTokens : list string) :
  ((exists link,
       scoreCandidate contentTokens keywordTokens idf targetKeyword total i
         candidate candidateTokens = Some link)
   <-> boostedScoreOf keywordTokens candidateTokens targetKeyword candidate
         (score (calculateTFIDF contentTokens candidateTokens idf)) > 0.001)
  /\ ((forall t, In t contentTokens -> ~ In t candidateTokens) ->
      score (calculateTFIDF contentTokens candidateTokens idf) = 0
      /\ boostedScoreOf keywordTokens candidateTokens targetKeyword candidate
           (score (calculateTFIDF contentTokens candidateTokens idf)) = 0
      /\ scoreCandidate contentTokens keywordTokens idf targetKeyword total i
           candidate candidateTokens = None).
Proof.
  split.
  - unfold scoreCandidate.
    destruct (Rgt_dec _ 0.001) as [Hgt|Hle].
    + split; [intros _; exact Hgt | intros _; eauto].
    + split; [intros [link H]; discriminate | intros H; contradiction].
  - intros Hdisj. unfold scoreCandidate.
    rewrite (calculateTFIDF_disjoint _ _ idf Hdisj). simpl.
    rewrite boostedScoreOf_zero.
    repeat split. destruct (Rgt_dec 0 0.001) as [H|H]; [lra | reflexivity].
Qed.

Lemma scoreCandidate_floor_css :
  score (calculateTFIDF ["react"; "hooks"] ["css"; "grid"; "layout"] []) = 0
  /\ boostedScoreOf ["css"; "grid"] ["css"; "grid"; "layout"] "css grid" cssCandidate
       (score (calculateTFIDF ["react"; "hooks"] ["css"; "grid"; "layout"] [])) = 0
  /\ scoreCandidate ["react"; "hooks"] ["css"; "grid"] [] "css grid" 2 1
       cssCandidate ["css"; "grid"; "layout"] = None.
Proof.
  apply (scoreCandidate_floor ["react"; "hooks"] ["css"; "grid"] [] "css grid" 2 1
           cssCandidate ["css"; "grid"; "layout"]).
  simpl. intros t [<-|[<-|[]]] [H|[H|[H|[]]]]; discriminate.
Defined.

(** Every link of the loop's output was pushed by the body of the loop for
    some candidate and its token list *)
Lemma scoreLoop_In (contentTokens keywordTokens : list string) (idf : JsMap.t R)
    (targetKeyword : string) (total : nat) (candidates : list LinkCandidate.t) :
  forall (candidateDocuments : list (list string)) (i : nat) (link : ScoredLink.t),
    In link (scoreLoop contentTokens keywordTokens idf targetKeyword total i
               candidates candidateDocuments) ->
    exists j candidate candidateTokens,
      nth_error candidates j = Some candidate
      /\ nth_error candidateDocuments j = Some candidateTokens
      /\ scoreCandidate contentTokens keywordTokens idf targetKeyword total (i + j)
           candidate candidateTokens = Some link.
Proof.
  induction candidates as [|c cs IH]; intros docs i link; simpl; [contradiction|].
  destruct docs as [|d ds]; [contradiction|].
  intros H. apply in_app_or in H as [H|H].
  - exists 0%nat, c, d. rewrite Nat.add_0_r. simpl.
    destruct (scoreCandidate _ _ _ _ _ _ c d) as [l|]; [|contradiction].
    destruct H as [<-|[]]. auto.
  - apply IH in H as [j [c' [d' [Hc [Hd Hs]]]]].
    exists (S j), c', d'. simpl. rewrite Nat.add_succ_r. auto.
Qed.

(** The pool as the handler builds it is exactly what the body of the loop
    pushes, candidate by candidate *)
Lemma scoredPool_In (content targetKeyword : string)
    (candidates : list LinkCandidate.t) (link : ScoredLink.t) :
  In link (scoredPool content targetKeyword candidates) ->
  exists j candidate,
    nth_error candidates j = Some candidate
    /\ scoreCandidate (tokenize content) (tokenize targetKeyword)
         (calculateIDF (tokenize content
                        :: map (fun c => tokenize (candidateText c)) candidates))
         targetKeyword (List.length candidates) j candidate
         (tokenize (candidateText candidate)) = Some link.
Proof.
  unfold scoredPool. intros H.
  apply scoreLoop_In in H as [j [c [d [Hc [Hd Hs]]]]].
  exists j, c. split; [assumption|].
  rewrite nth_error_map, Hc in Hd. simpl in Hd. inversion Hd; subst d.
  exact Hs.
Qed.

(** C10. Every link of the scored pool has a matched term, and its matched
    terms are tokens both of the content and of the candidate it links to:
    a candidate that passes the floor shares a token with the content.  So
    has every link that [selectOptimalLinks] then selects from the pool,
    whatever [maxLinks]. *)
Theorem scoredPool_matchedTerms (content targetKeyword : string)
    (candidates : list LinkCandidate.t) :
  Forall (sharesTerms content candidates)
         (scoredPool content targetKeyword candidates)
  /\ forall maxLinks,
       Forall (sharesTerms content candidates)
              (selectOptimalLinks (scoredPool content targetKeyword candidates) maxLinks).
Proof.
  assert (Hpool : forall link,
             In link (scoredPool content targetKeyword candidates) ->
             sharesTerms content candidates link).
  { intros link H.
    apply scoredPool_In in H as [j [c [Hc Hs]]].
    pose proof (scoreCandidate_matched _ _ _ _ _ _ _ _ _ Hs) as [Hne Hsh].
    apply scoreCandidate_some in Hs as [_ [_ [_ [_ Hu]]]].
    split; [assumption|].
    exists c. repeat split; try assumption.
    - eapply nth_error_In. eassumption.
    - now apply Hsh.
    - now apply Hsh. }
  split.
  - apply Forall_forall. exact Hpool.
  - intros maxLinks. apply Forall_forall. intros link H.
    apply Hpool. eapply selectOptimalLinks_subset. eassumption.
Qed.


(** X3. The position of a pooled link is that of its candidate's index in
    the candidate list as it was fetched, not of its rank by score; and the
    candidate shares a token with the content. *)
Lemma scoredPool_position (content targetKeyword : string)
    (candidates : list LinkCandidate.t) (link : ScoredLink.t) :
  In link (scoredPool content targetKeyword candidates) ->
  exists j candidate,
    nth_error candidates j = Some candidate
    /\ ScoredLink.url link = LinkCandidate.url candidate
    /\ ScoredLink.position link = determineLinkPosition j (List.length candidates)
    /\ exists t, In t (tokenize content) /\ In t (tokenize (candidateText candidate)).
Proof.
  intros H. apply scoredPool_In in H as [j [c [Hc Hs]]].
  exists j, c. split; [assumption|].
  pose proof (scoreCandidate_matched _ _ _ _ _ _ _ _ _ Hs) as [Hne Hsh].
  apply scoreCandidate_some in Hs as [_ [_ [_ [Hp Hu]]]].
  repeat split; try assumption.
  destruct (ScoredLink.matchedTerms link) as [|t mt]; [congruence|].
  exists t. apply Hsh. now left.
Qed.


End ScoringFacts.

(* ------------------------------------------------------------------ *)
(** ** Insertion never counts a link twice *)
(* ------------------------------------------------------------------ *)

Section InserterFacts.
Import JsString Placement Inserter.

Lemma insertOne_count (start stop : nat) (st : InsertState) (link : ScoredLink.t) :
  snd st <= snd (insertOne start stop st link) <= snd st + 1.
Proof.
  unfold insertOne. destruct st as [paragraphs insertedCount].
  destruct (naturalLoop _ _ _ _ _); simpl; [lia|].
  destruct (start <? List.length paragraphs); simpl; [|lia].
  destruct (negb _ && negb _); simpl; lia.
Qed.

Lemma insertBucket_count (start stop : nat) (links : list ScoredLink.t) :
  forall st,
    snd st <= snd (fold_left (insertOne start stop) links st)
    <= snd st + List.length links.
Proof.
  induction links as [|l links IH]; intros st; simpl; [lia|].
  pose proof (insertOne_count start stop st l).
  pose proof (IH (insertOne start stop st l)). lia.
Qed.

Lemma buckets_partition (links : list ScoredLink.t) :
  List.length (filter (hasPosition early) links)
  + List.length (filter (hasPosition middle) links)
  + List.length (filter (hasPosition late) links)
  = List.length links.
Proof.
  unfold hasPosition.
  induction links as [|l links IH]; simpl; [reflexivity|].
  destruct (ScoredLink.position l); simpl; lia.
Qed.

(** X1. Insertion does not exceed selection: the counter [insertedCount]
    that [insertLinksIntoContent] writes to the log is at most the number
    of links it was given. *)
Lemma insertLinksIntoContent_count (content : string) (links : list ScoredLink.t) :
  snd (insertLinksIntoContent content links) <= List.length links.
Proof.
  unfold insertLinksIntoContent. cbv zeta. cbn [snd fst].
  set (ps := splitCloseTag content).
  set (n := List.length ps).
  pose proof (insertBucket_count 0 (n / 3) (filter (hasPosition early) links) (ps, 0)) as H1.
  set (st1 := fold_left (insertOne 0 (n / 3)) (filter (hasPosition early) links) (ps, 0)) in *.
  pose proof (insertBucket_count (n / 3) (2 * n / 3)
                (filter (hasPosition middle) links) st1) as H2.
  set (st2 := fold_left (insertOne (n / 3) (2 * n / 3))
                (filter (hasPosition middle) links) st1) in *.
  pose proof (insertBucket_count (2 * n / 3) n
                (filter (hasPosition late) links) st2) as H3.
  pose proof (buckets_partition links).
  cbn [snd] in H1. lia.
Qed.

End InserterFacts.

(* ------------------------------------------------------------------ *)
(** ** The handler's responses *)
(* ------------------------------------------------------------------ *)

Section HandlerFacts.
Import JsString Tokenizer TfIdf Anchor Placement Inserter Handler.

Variable validateRequired : InternalLinkRequest.t -> list string -> bool.

(** The response when the store holds no candidate *)
Lemma handler_no_candidates (body : InternalLinkRequest.t) (query : QueryResult.t) :
  validateRequired body ["content"; "pageId"; "targetKeyword"] = true ->
  QueryResult.error query = false ->
  QueryResult.data query = None \/ QueryResult.data query = Some [] ->
  handler validateRequired false body query
  = JsonResponse (ResponseBody.mk true [] (InternalLinkRequest.content body) None).
Proof.
  intros Hv He Hd. unfold handler. rewrite Hv, He. simpl.
  destruct Hd as [-> | ->]; reflexivity.
Qed.

(** The response when there are candidates *)
Lemma handler_with_candidates (body : InternalLinkRequest.t) (query : QueryResult.t)
    (c : LinkCandidate.t) (cs : list LinkCandidate.t) :
  validateRequired body ["content"; "pageId"; "targetKeyword"] = true ->
  QueryResult.error query = false ->
  QueryResult.data query = Some (c :: cs) ->
  let selectedLinks :=
    selectOptimalLinks
      (scoredPool (InternalLinkRequest.content body)
                  (InternalLinkRequest.targetKeyword body) (c :: cs))
      (match InternalLinkRequest.maxLinks body with Some k => k | None => 5%Z end) in
  handler validateRequired false body query
  = JsonResponse
      (ResponseBody.mk true (map toResponseLink selectedLinks)
         (fst (insertLinksIntoContent (InternalLinkRequest.content body) selectedLinks))
         (Some (Stats.mk (List.length (c :: cs)) (List.length selectedLinks)
                         (avgScore selectedLinks)))).
Proof.
  intros Hv He Hd. unfold handler. rewrite Hv, He, Hd. reflexivity.
Qed.

End HandlerFacts.

(* ------------------------------------------------------------------ *)
(** ** A request followed through the handler *)
(* ------------------------------------------------------------------ *)

Section SampleRun.
Import JsString Tokenizer TfIdf Anchor Placement Inserter Handler Samples.
Local Open Scope R_scope.

Lemma idfWeightOf_everywhere (n : nat) : idfWeightOf n n = 1.
Proof.
  unfold idfWeightOf, Rdiv. rewrite Rinv_r.
  - rewrite ln_1. lra.
  - apply not_0_INR. lia.
Qed.

Lemma sample_tfidf (idf : JsMap.t R) :
  calculateTFIDF ["react"; "hooks"; "here"] ["react"; "guide"; "react"; "guide"] idf
  = mkTfIdf (0 + INR 1 / INR 3 * (INR 2 / INR 4) * idfOr1 idf "react" * idfOr1 idf "react")
            ["react"].
Proof.
  unfold calculateTFIDF, calculateTF.
  replace (countTokens ["react"; "hooks"; "here"])
    with [("react", 1%nat); ("hooks", 1%nat); ("here", 1%nat)]
    by (vm_compute; reflexivity).
  replace (countTokens ["react"; "guide"; "react"; "guide"])
    with [("react", 2%nat); ("guide", 2%nat)]
    by (vm_compute; reflexivity).
  reflexivity.
Qed.

Lemma sample_idf :
  idfOr1 (calculateIDF [["react"; "hooks"; "here"]; ["react"; "guide"; "react"; "guide"]])
         "react" = 1.
Proof.
  unfold idfOr1. rewrite calculateIDF_entry.
  replace (docFreq "react" [["react"; "hooks"; "here"]; ["react"; "guide"; "react"; "guide"]])
    with 2%nat by (vm_compute; reflexivity).
  cbn [Nat.ltb Nat.leb List.length]. rewrite idfWeightOf_everywhere.
  destruct (Req_dec_T 1 0); reflexivity.
Qed.

(** The pool of the sample request: one link, above the floor *)
Lemma sample_pool :
  exists sc : R,
    sc > 0.001
    /\ scoredPool sampleContent "seo" [sampleCandidate] = [sampleLinkOf sc].
Proof.
  unfold scoredPool. cbv zeta. cbn [map List.length].
  replace (tokenize sampleContent) with ["react"; "hooks"; "here"]
    by (vm_compute; reflexivity).
  replace (tokenize "seo") with ["seo"] by (vm_compute; reflexivity).
  replace (tokenize (candidateText sampleCandidate))
    with ["react"; "guide"; "react"; "guide"] by (vm_compute; reflexivity).
  cbn [scoreLoop]. unfold scoreCandidate.
  rewrite sample_tfidf. cbn [score matchedTerms]. rewrite sample_idf.
  replace (boostedScoreOf ["seo"] ["react"; "guide"; "react"; "guide"] "seo" sampleCandidate
             (0 + INR 1 / INR 3 * (INR 2 / INR 4) * 1 * 1))
    with (1 / 6)
    by (unfold boostedScoreOf, keywordBoost; cbn; lra).
  destruct (Rgt_dec (1 / 6) 0.001) as [Hgt|Hle]; [|exfalso; apply Hle; lra].
  exists (1 / 6). split; [exact Hgt|].
  rewrite determineLinkPosition_nat by lia.
  replace (generateRichAnchor (LinkCandidate.title sampleCandidate) ["react"] "seo")
    with "React Guide" by (vm_compute; reflexivity).
  reflexivity.
Qed.

Lemma scoredPool_position_witness :
  exists sc : R,
    sc > 0.001
    /\ exists j candidate,
         nth_error [sampleCandidate] j = Some candidate
         /\ ScoredLink.url (sampleLinkOf sc) = LinkCandidate.url candidate
         /\ ScoredLink.position (sampleLinkOf sc)
            = determineLinkPosition j (List.length [sampleCandidate])
         /\ exists t, In t (tokenize sampleContent)
                      /\ In t (tokenize (candidateText candidate)).
Proof.
  destruct sample_pool as [sc [Hgt Hpool]].
  exists sc. split; [exact Hgt|].
  apply (scoredPool_position sampleContent "seo" [sampleCandidate] (sampleLinkOf sc)).
  rewrite Hpool. left. reflexivity.
Defined.

Lemma sample_selection (sc : R) :
  selectOptimalLinks [sampleLinkOf sc] 5 = [sampleLinkOf sc].
Proof. reflexivity. Qed.

Lemma sample_insertion (sc : R) :
  insertLinksIntoContent sampleContent [sampleLinkOf sc] = (sampleContent, 0%nat).
Proof. vm_compute. reflexivity. Qed.

(** C4, at a request the handler can receive: the one paragraph of the
    content already holds a link, so the inserter splices nothing and its
    counter stays 0, and yet the response reports [linksInserted] 1, the
    number of selected links. *)
Theorem handler_reports_selected_not_inserted :
  exists body : ResponseBody.t,
    handler acceptAll false sampleRequest sampleQuery = JsonResponse body
    /\ option_map Stats.linksInserted (ResponseBody.stats body) = Some 1%nat
    /\ List.length (ResponseBody.links body) = 1%nat
    /\ ResponseBody.content body = sampleContent
    /\ snd (insertLinksIntoContent sampleContent
              (selectOptimalLinks (scoredPool sampleContent "seo" [sampleCandidate]) 5))
       = 0%nat.
Proof.
  destruct sample_pool as [sc [_ Hpool]].
  eexists. split.
  - apply (handler_with_candidates acceptAll sampleRequest sampleQuery
             sampleCandidate []); reflexivity.
  - cbn [ResponseBody.stats ResponseBody.links ResponseBody.content option_map
         Stats.linksInserted InternalLinkRequest.content
         InternalLinkRequest.targetKeyword InternalLinkRequest.maxLinks sampleRequest].
    rewrite Hpool, sample_selection, sample_insertion.
    repeat split.
Qed.

End SampleRun.

(* ------------------------------------------------------------------ *)
(** ** The empty candidate pool *)
(* ------------------------------------------------------------------ *)

Section EmptyPool.
Import Handler Samples.

(** C3, as the code has it. When the request passes validation and the
    store query succeeds with no candidate (no data, or an empty list), the
    handler answers with a success body whose [links] is empty and whose
    [content] is the content of the request, unchanged; the body has no
    [stats] field. *)
Theorem handler_empty_pool
    (validateRequired : InternalLinkRequest.t -> list string -> bool)
    (body : InternalLinkRequest.t) (query : QueryResult.t) :
  validateRequired body ["content"; "pageId"; "targetKeyword"] = true ->
  QueryResult.error query = false ->
  QueryResult.data query = None \/ QueryResult.data query = Some [] ->
  exists response : ResponseBody.t,
    handler validateRequired false body query = JsonResponse response
    /\ ResponseBody.success response = true
    /\ ResponseBody.links response = []
    /\ ResponseBody.content response = InternalLinkRequest.content body
    /\ ResponseBody.stats response = None.
Proof.
  intros Hv He Hd.
  rewrite (handler_no_candidates validateRequired body query Hv He Hd).
  eexists. split; [reflexivity|]. simpl. auto.
Qed.

Lemma handler_empty_pool_witness :
  exists response : ResponseBody.t,
    handler acceptAll false sampleRequest emptyQuery = JsonResponse response
    /\ ResponseBody.success response = true
    /\ ResponseBody.links response = []
    /\ ResponseBody.content response = InternalLinkRequest.content sampleRequest
    /\ ResponseBody.stats response = None.
Proof.
  apply (handler_empty_pool acceptAll sampleRequest emptyQuery).
  - reflexivity.
  - reflexivity.
  - right. reflexivity.
Defined.

(** With an empty candidate list and the default [maxLinks] of 5 the body
    is [{success, links, content}] and nothing more: it is not a body with
    [stats] of zero candidates analysed and zero links inserted. *)
Lemma handler_empty_pool_has_no_stats :
  handler acceptAll false sampleRequest emptyQuery
  = JsonResponse (ResponseBody.mk true [] sampleContent None)
  /\ forall avg : R,
       handler acceptAll false sampleRequest emptyQuery
       <> JsonResponse (ResponseBody.mk true [] sampleContent
                          (Some (Stats.mk 0 0 avg))).
Proof. split; [reflexivity | intros avg; discriminate]. Qed.

End EmptyPool.

(* ------------------------------------------------------------------ *)
(** ** Worked examples *)
(* ------------------------------------------------------------------ *)

Section Examples.
Import JsString Tokenizer TfIdf Anchor Placement Inserter Handler Samples.

Example tokenize_markup :
  tokenize "<p>The React-Hooks <b>Tutorial</b>: State, of Management!</p>"
  = ["react"; "hooks"; "tutorial"; "state"; "management"].
Proof. vm_compute. reflexivity. Qed.

(** A [<] with no [>] after it is no tag; it goes with the punctuation *)
Example tokenize_unclosed_tag :
  tokenize "a < b and c > d <unclosed tag" = ["unclosed"; "tag"].
Proof. vm_compute. reflexivity. Qed.

Example tokenize_empty : tokenize "" = [].
Proof. reflexivity. Qed.

Example splitWs_edges : splitWs " a  b " = [""; "a"; "b"; ""].
Proof. reflexivity. Qed.

Example calculateTF_counts :
  countTokens ["a"; "b"; "a"; "c"; "b"; "a"] = [("a", 3); ("b", 2); ("c", 1)].
Proof. reflexivity. Qed.

Example countDocuments_counts :
  countDocuments [["a"; "b"; "a"]; ["b"; "c"]; ["b"]] = [("a", 1); ("b", 3); ("c", 1)].
Proof. reflexivity. Qed.

Example generateRichAnchor_site_suffix :
  generateRichAnchor "React Hooks Guide - My Site" [] "react" = "React Hooks Guide".
Proof. vm_compute. reflexivity. Qed.

Example generateRichAnchor_long_title :
  generateRichAnchor
    "The Complete & Definitive Guide to React State Management, Hooks and Context for Teams | Blog"
    ["react"; "state"] "react hooks"
  = "Guide to React State Management, Hooks".
Proof. vm_compute. reflexivity. Qed.

Example generateRichAnchor_fallback :
  generateRichAnchor
    "The Complete and Definitive Guide to Unrelated Things for People that Love Long Titles"
    ["react"; "state"] "react hooks"
  = "The Complete and Definitive Guide to".
Proof. vm_compute. reflexivity. Qed.

Example determineLinkPosition_of_three :
  determineLinkPosition 0 3 = early
  /\ determineLinkPosition 1 3 = middle
  /\ determineLinkPosition 2 3 = late.
Proof. rewrite !determineLinkPosition_nat by lia. repeat split. Qed.

(** Two links whose anchors differ by case only: the one with the higher
    score is selected, the other is skipped *)
Example selectOptimalLinks_drops_duplicate :
  selectOptimalLinks sampleLinks 5 = [sampleLink "React Hooks" 2%R early].
Proof.
  unfold selectOptimalLinks, sampleLinks, sortByScoreDesc. simpl fold_right.
  unfold sampleLink at 1 2. simpl ScoredLink.score.
  destruct (Rlt_dec 2 1) as [H|H]; [lra|].
  reflexivity.
Qed.

Example splitCloseTag_pieces :
  splitCloseTag "<p>one</p><P>two</P>tail" = ["<p>one"; "<P>two"; "tail"]
  /\ splitCloseTag "<p>one</p>" = ["<p>one"; ""]
  /\ splitCloseTag "" = [""].
Proof. repeat split. Qed.

Example hasLinkTag_cases :
  hasLinkTag "<p>x <A  class=c HREF=1>y</a>" = true
  /\ hasLinkTag "<p>x <a> href" = false
  /\ hasLinkTag "<p>x <abbr href" = false.
Proof. repeat split. Qed.

Example wordRegexTest_whole_words :
  wordRegexTest "react" "<p>All about React, really" = true
  /\ wordRegexTest "react" "<p>All about Reactive, really" = false.
Proof. repeat split. Qed.

(** A link is appended to the first paragraph of its range that names one
    of the anchor's words *)
Example insertLinksIntoContent_natural (sc : R) :
  insertLinksIntoContent "<p>React hooks</p><p>two</p><p>three</p>" [sampleLinkOf sc]
  = ("<p>React hooks " ++ linkHtml (sampleLinkOf sc) ++ "</p><p>two</p><p>three</p>", 1).
Proof. vm_compute. reflexivity. Qed.

(** With no such paragraph the link goes, after [Read more:], to the
    paragraph in the middle of the range *)
Example insertLinksIntoContent_forced (sc : R) :
  insertLinksIntoContent "<p>one</p><p>two</p><p>three</p>" [sampleLinkOf sc]
  = ("<p>one Read more: " ++ linkHtml (sampleLinkOf sc) ++ "</p><p>two</p><p>three</p>", 1).
Proof. vm_compute. reflexivity. Qed.

End Examples.

(* ================================================================== *)
(** * Further properties of the engine *)
(* ================================================================== *)

(* ------------------------------------------------------------------ *)
(** ** Tag stripping *)
(* ------------------------------------------------------------------ *)

Section TagFacts.
Import JsString Tokenizer Notions.

Lemma stripTagsAux_keeps_noGt (s : string) : forall inTag,
  anyChar isGt s = false -> anyChar isGt (stripTagsAux inTag s) = false.
Proof.
  induction s as [|c s IH]; intros inTag H; simpl; [reflexivity|].
  simpl in H. apply orb_false_iff in H as [Hc Hs].
  destruct inTag.
  - rewrite Hc. now apply IH.
  - rewrite Hs, andb_false_r. simpl. rewrite Hc. now apply IH.
Qed.

Lemma stripTagsAux_noTag (s : string) : forall inTag,
  hasTag (stripTagsAux inTag s) = false.
Proof.
  induction s as [|c s IH]; intros inTag; simpl; [reflexivity|].
  destruct inTag.
  - destruct (isGt c); apply IH.
  - destruct (isLt c && anyChar isGt s) eqn:E; simpl.
    + apply IH.
    + rewrite IH, orb_false_r.
      apply andb_false_iff in E as [E|E]; [now rewrite E|].
      rewrite (stripTagsAux_keeps_noGt s false E). apply andb_false_r.
Qed.

Lemma stripTagsAux_fixed (s : string) :
  hasTag s = false -> stripTagsAux false s = s.
Proof.
  induction s as [|c s IH]; simpl; [reflexivity|].
  intros H. apply orb_false_iff in H as [Hc Hs].
  rewrite Hc. now rewrite IH.
Qed.

(** X5. Tag stripping is complete and stable: in the text it returns no
    [<] is followed, however far, by a [>], and stripping that text again
    changes nothing. *)
Theorem stripTags_complete (s : string) :
  hasTag (stripTags s) = false
  /\ stripTags (stripTags s) = stripTags s.
Proof.
  unfold stripTags. split.
  - apply stripTagsAux_noTag.
  - apply stripTagsAux_fixed, stripTagsAux_noTag.
Qed.

End TagFacts.

(* ------------------------------------------------------------------ *)
(** ** The shape of the term-frequency map *)
(* ------------------------------------------------------------------ *)

Section TfShape.
Import JsString TfIdf Notions.

Lemma has_includes_keys {V : Type} (m : JsMap.t V) (k : string) :
  JsMap.has m k = includes (JsMap.keys m) k.
Proof.
  unfold JsMap.has, includes, JsMap.keys.
  induction m as [|[k' v] r IH]; simpl; [reflexivity|].
  rewrite (String.eqb_sym k k').
  destruct (String.eqb k' k); [reflexivity | exact IH].
Qed.

Lemma keys_bump (m : JsMap.t nat) (k : string) :
  JsMap.keys (bump m k)
  = if JsMap.has m k then JsMap.keys m else (JsMap.keys m ++ [k])%list.
Proof.
  induction m as [|[k' v] r IH]; [reflexivity|].
  rewrite bump_cons. unfold JsMap.has in *. simpl.
  destruct (String.eqb k' k); [reflexivity|].
  simpl. rewrite IH. destruct (JsMap.get r k); reflexivity.
Qed.

Lemma keys_fold_bump (l : list string) : forall (m : JsMap.t nat) (seen : list string),
  (forall x, includes seen x = JsMap.has m x) ->
  JsMap.keys (fold_left bump l m) = (JsMap.keys m ++ newSetAux seen l)%list.
Proof.
  induction l as [|x l IH]; intros m seen Hseen; simpl.
  - now rewrite app_nil_r.
  - rewrite Hseen. destruct (JsMap.has m x) eqn:Hx.
    + rewrite (IH (bump m x) seen).
      * now rewrite keys_bump, Hx.
      * intros y. rewrite has_bump, Hseen.
        destruct (String.eqb x y) eqn:E; [|reflexivity].
        apply String.eqb_eq in E. subst y. now rewrite Hx.
    + rewrite (IH (bump m x) (x :: seen)).
      * rewrite keys_bump, Hx, <- app_assoc. reflexivity.
      * intros y. rewrite has_bump, <- Hseen. unfold includes. simpl.
        now rewrite (String.eqb_sym y x).
Qed.

Lemma keys_countTokens (tokens : list string) :
  JsMap.keys (countTokens tokens) = newSet tokens.
Proof.
  unfold countTokens, newSet.
  now rewrite (keys_fold_bump tokens [] []).
Qed.

Lemma newSetAux_fresh (doc : list string) : forall seen,
  NoDup (newSetAux seen doc)
  /\ forall x, In x (newSetAux seen doc) -> includes seen x = false.
Proof.
  induction doc as [|y doc IH]; intros seen; simpl.
  - split; [constructor | intros x []].
  - destruct (includes seen y) eqn:Ey; [apply IH|].
    destruct (IH (y :: seen)) as [Hnd Hfresh]. split.
    + constructor; [|assumption].
      intros Hin. apply Hfresh in Hin. unfold includes in Hin. simpl in Hin.
      now rewrite String.eqb_refl in Hin.
    + intros x [<-|Hx]; [assumption|].
      apply Hfresh in Hx. unfold includes in *. simpl in Hx.
      now apply orb_false_iff in Hx as [_ Hx].
Qed.

Lemma newSet_NoDup (doc : list string) : NoDup (newSet doc).
Proof. apply newSetAux_fresh. Qed.

Lemma newSet_In (doc : list string) (t : string) : In t (newSet doc) <-> In t doc.
Proof. now rewrite <- !includes_In, includes_newSet. Qed.

(** Two maps with the same keys in the same order, no key twice, and the
    same value under every key are the same map *)
Lemma entries_ext {V : Type} (m1 : JsMap.t V) : forall m2 : JsMap.t V,
  JsMap.keys m1 = JsMap.keys m2 ->
  NoDup (JsMap.keys m1) ->
  (forall k, In k (JsMap.keys m1) -> JsMap.get m1 k = JsMap.get m2 k) ->
  m1 = m2.
Proof.
  induction m1 as [|[k v] r IH]; intros [|[k2 v2] r2] Hk Hnd Hget;
    try discriminate; [reflexivity|].
  simpl in Hk. inversion Hk; subst k2. inversion Hnd as [|? ? Hnot Hnd']; subst.
  pose proof (Hget k (or_introl eq_refl)) as Hv. simpl in Hv.
  rewrite String.eqb_refl in Hv. inversion Hv; subst v2.
  f_equal. apply IH; try assumption.
  intros k' Hk'. specialize (Hget k' (or_intror Hk')). simpl in Hget.
  destruct (String.eqb k k') eqn:E; [|assumption].
  apply String.eqb_eq in E. subst k'. contradiction.
Qed.

Lemma get_tabulate {V : Type} (f : string -> V) (l : list string) (k : string) :
  JsMap.get (map (fun t => (t, f t)) l) k = if includes l k then Some (f k) else None.
Proof.
  unfold includes. induction l as [|x l IH]; simpl; [reflexivity|].
  rewrite (String.eqb_sym k x).
  destruct (String.eqb x k) eqn:E; simpl; [|exact IH].
  apply String.eqb_eq in E. now subst.
Qed.

Lemma keys_tabulate {V : Type} (f : string -> V) (l : list string) :
  JsMap.keys (map (fun t => (t, f t)) l) = l.
Proof.
  unfold JsMap.keys. rewrite map_map. simpl. apply map_id.
Qed.

Lemma keys_mapValues {V W : Type} (f : V -> W) (m : JsMap.t V) :
  JsMap.keys (JsMap.mapValues f m) = JsMap.keys m.
Proof.
  unfold JsMap.keys, JsMap.mapValues. rewrite map_map. reflexivity.
Qed.

Lemma calculateTF_tabulated (tokens : list string) :
  calculateTF tokens = map (fun t => (t, tfWeight t tokens)) (newSet tokens).
Proof.
  apply entries_ext.
  - unfold calculateTF. now rewrite keys_mapValues, keys_countTokens, keys_tabulate.
  - unfold calculateTF. rewrite keys_mapValues, keys_countTokens. apply newSet_NoDup.
  - intros k _. rewrite calculateTF_entry, get_tabulate, includes_newSet. reflexivity.
Qed.

Lemma occurrences_le (t : string) (tokens : list string) :
  occurrences t tokens <= List.length tokens.
Proof. unfold occurrences. apply filter_length_le. Qed.

Lemma occurrences_pos (t : string) (tokens : list string) :
  In t tokens -> 0 < occurrences t tokens.
Proof.
  unfold occurrences. intros H.
  assert (Hin : In t (filter (String.eqb t) tokens))
    by (apply filter_In; split; [assumption | apply String.eqb_refl]).
  destruct (filter (String.eqb t) tokens); [contradiction | simpl; lia].
Qed.

Lemma tfWeight_range (t : string) (tokens : list string) :
  In t tokens -> (0 < tfWeight t tokens <= 1)%R.
Proof.
  intros H. unfold tfWeight.
  pose proof (occurrences_pos t tokens H) as Hpos.
  pose proof (occurrences_le t tokens) as Hle.
  assert (Hn : (0 < INR (List.length tokens))%R) by (apply lt_0_INR; lia).
  split.
  - apply Rdiv_lt_0_compat; [apply lt_0_INR; lia | assumption].
  - apply (Rmult_le_reg_r (INR (List.length tokens))); [assumption|].
    unfold Rdiv. rewrite Rmult_assoc, Rinv_l, Rmult_1_r, Rmult_1_l by lra.
    now apply le_INR.
Qed.

(** X6. The map that [calculateTF] returns lists the distinct tokens in the
    order of their first occurrence, each once, each with its number of
    occurrences divided by the number of tokens, a weight above 0 and at
    most 1. *)
Theorem calculateTF_shape (tokens : list string) :
  calculateTF tokens = map (fun t => (t, tfWeight t tokens)) (newSet tokens)
  /\ NoDup (newSet tokens)
  /\ (forall t, In t (newSet tokens) <-> In t tokens)
  /\ (forall t, In t tokens -> (0 < tfWeight t tokens <= 1)%R).
Proof.
  split; [apply calculateTF_tabulated|].
  split; [apply newSet_NoDup|].
  split; [intros t; exact (newSet_In tokens t) | intros t; apply tfWeight_range].
Qed.

End TfShape.

(* ------------------------------------------------------------------ *)
(** ** The range of the IDF weights *)
(* ------------------------------------------------------------------ *)

Section IdfRange.
Import JsString TfIdf Notions Samples.
Local Open Scope R_scope.

Lemma docFreq_le (t : string) (documents : list (list string)) :
  (docFreq t documents <= List.length documents)%nat.
Proof. unfold docFreq. apply filter_length_le. Qed.

Lemma ln_monotone (x y : R) : 0 < x -> x <= y -> ln x <= ln y.
Proof.
  intros Hx [Hlt|Heq].
  - left. now apply ln_increasing.
  - right. now subst.
Qed.

Lemma idfWeightOf_ge_1 (N df : nat) : (df <= N)%nat -> 1 <= idfWeightOf N df.
Proof.
  intros Hle. unfold idfWeightOf.
  assert (Hd : 0 < INR (df + 1)) by (apply lt_0_INR; lia).
  assert (Hr : 1 <= INR (N + 1) / INR (df + 1)).
  { apply (Rmult_le_reg_r (INR (df + 1))); [assumption|].
    unfold Rdiv. rewrite Rmult_assoc, Rinv_l, Rmult_1_r, Rmult_1_l by lra.
    apply le_INR. lia. }
  pose proof (ln_monotone 1 _ Rlt_0_1 Hr) as Hln. rewrite ln_1 in Hln. lra.
Qed.

Lemma idfWeightOf_le (N df : nat) :
  (1 <= df)%nat -> idfWeightOf N df <= ln (INR (N + 1) / 2) + 1.
Proof.
  intros Hdf. unfold idfWeightOf.
  assert (Hd : 0 < INR (df + 1)) by (apply lt_0_INR; lia).
  assert (HN : 0 < INR (N + 1)) by (apply lt_0_INR; lia).
  assert (H2 : 2 <= INR (df + 1)).
  { replace 2 with (INR 2) by (simpl; lra). apply le_INR. lia. }
  apply Rplus_le_compat_r, ln_monotone.
  - now apply Rdiv_lt_0_compat.
  - unfold Rdiv. apply Rmult_le_compat_l; [lra|].
    apply Rinv_le_contravar; lra.
Qed.

Lemma idfWeightOf_eq_1 (N df : nat) : idfWeightOf N df = 1 <-> df = N.
Proof.
  split.
  - unfold idfWeightOf. intros H.
    assert (Hd : 0 < INR (df + 1)) by (apply lt_0_INR; lia).
    assert (HN : 0 < INR (N + 1)) by (apply lt_0_INR; lia).
    assert (Hln : ln (INR (N + 1) / INR (df + 1)) = ln 1) by (rewrite ln_1; lra).
    apply ln_inv in Hln; [|now apply Rdiv_lt_0_compat | lra].
    apply (f_equal (fun x => x * INR (df + 1))) in Hln.
    unfold Rdiv in Hln. rewrite Rmult_assoc, Rinv_l, Rmult_1_r, Rmult_1_l in Hln by lra.
    apply INR_eq in Hln. lia.
  - intros ->. apply idfWeightOf_everywhere.
Qed.

(** X7. For a term of the corpus the map that [calculateIDF] returns holds
    a weight between 1 and ln((N+1)/2) + 1, N being the number of documents;
    the weight is 1 exactly when every document holds the term; and since
    it is never 0, the [|| 1] of the scorer leaves it as it is. *)
Theorem calculateIDF_range (documents : list (list string)) (t : string) :
  In t (List.concat documents) ->
  exists w : R,
    JsMap.get (calculateIDF documents) t = Some w
    /\ 1 <= w <= ln (INR (List.length documents + 1) / 2) + 1
    /\ (w = 1 <-> docFreq t documents = List.length documents)
    /\ idfOr1 (calculateIDF documents) t = w.
Proof.
  intros Hin. apply docFreq_pos in Hin.
  exists (idfWeightOf (List.length documents) (docFreq t documents)).
  pose proof (docFreq_le t documents) as Hle.
  pose proof (idfWeightOf_ge_1 _ _ Hle) as H1.
  assert (Hget : JsMap.get (calculateIDF documents) t
                 = Some (idfWeightOf (List.length documents) (docFreq t documents))).
  { rewrite calculateIDF_entry. apply Nat.ltb_lt in Hin. now rewrite Hin. }
  split; [exact Hget|].
  split; [split; [exact H1 | apply idfWeightOf_le; lia]|].
  split; [apply idfWeightOf_eq_1|].
  unfold idfOr1. rewrite Hget.
  destruct (Req_dec_T _ 0) as [E|E]; [lra | reflexivity].
Qed.

Lemma calculateIDF_range_witness :
  exists w : R,
    JsMap.get (calculateIDF sampleCorpus) "react" = Some w
    /\ 1 <= w <= ln (INR (List.length sampleCorpus + 1) / 2) + 1
    /\ (w = 1 <-> docFreq "react" sampleCorpus = List.length sampleCorpus)
    /\ idfOr1 (calculateIDF sampleCorpus) "react" = w.
Proof.
  apply (calculateIDF_range sampleCorpus "react"). simpl. tauto.
Defined.

(** A term of no document has no entry, and the scorer takes 1 for it *)
Lemma calculateIDF_absent (documents : list (list string)) (t : string) :
  ~ In t (List.concat documents) ->
  JsMap.get (calculateIDF documents) t = None
  /\ idfOr1 (calculateIDF documents) t = 1.
Proof.
  intros Hnot.
  assert (H0 : docFreq t documents = 0%nat).
  { unfold docFreq.
    destruct (filter (fun doc => includes doc t) documents) as [|d l] eqn:E;
      [reflexivity|].
    exfalso. apply Hnot.
    assert (Hd : In d (filter (fun doc => includes doc t) documents))
      by (rewrite E; now left).
    apply filter_In in Hd as [Hd Ht]. apply includes_In in Ht.
    apply in_concat. eauto. }
  assert (Hget : JsMap.get (calculateIDF documents) t = None)
    by (rewrite calculateIDF_entry, H0; reflexivity).
  split; [exact Hget|]. unfold idfOr1. now rewrite Hget.
Qed.

End IdfRange.

(* ------------------------------------------------------------------ *)
(** ** The score in closed form *)
(* ------------------------------------------------------------------ *)

Section ScoreShape.
Import JsString TfIdf Notions Samples.
Local Open Scope R_scope.

Lemma tfidf_fold_tabulated (candidateTokens : list string) (idf : JsMap.t R)
    (wc : string -> R) (l : list string) : forall acc,
  fold_left (tfidfStep (calculateTF candidateTokens) idf)
            (map (fun t => (t, wc t)) l) acc
  = mkTfIdf
      (fold_left (fun s t => s + wc t * tfWeight t candidateTokens
                                 * idfOr1 idf t * idfOr1 idf t)
                 (filter (includes candidateTokens) l) (score acc))
      (matchedTerms acc ++ filter (includes candidateTokens) l).
Proof.
  induction l as [|t l IH]; intros acc; simpl.
  - rewrite app_nil_r. now destruct acc.
  - rewrite IH, calculateTF_entry.
    destruct (includes candidateTokens t); simpl; [|reflexivity].
    now rewrite <- app_assoc.
Qed.

Lemma calculateTFIDF_tabulated (contentTokens candidateTokens : list string)
    (idf : JsMap.t R) :
  calculateTFIDF contentTokens candidateTokens idf
  = mkTfIdf (sumOver (termScore contentTokens candidateTokens idf)
               (sharedTerms contentTokens candidateTokens))
            (sharedTerms contentTokens candidateTokens).
Proof.
  unfold calculateTFIDF. rewrite (calculateTF_tabulated contentTokens).
  rewrite tfidf_fold_tabulated. reflexivity.
Qed.

Lemma idfOr1_nonzero (idf : JsMap.t R) (t : string) : idfOr1 idf t <> 0.
Proof.
  unfold idfOr1. destruct (JsMap.get idf t) as [w|]; [|lra].
  destruct (Req_dec_T w 0); [lra | assumption].
Qed.

Lemma sharedTerms_In (a b : list string) (t : string) :
  In t (sharedTerms a b) <-> In t a /\ In t b.
Proof.
  unfold sharedTerms. rewrite filter_In, newSet_In, includes_In. tauto.
Qed.

Lemma sharedTerms_NoDup (a b : list string) : NoDup (sharedTerms a b).
Proof. unfold sharedTerms. apply NoDup_filter, newSet_NoDup. Qed.

Lemma termScore_pos (a b : list string) (idf : JsMap.t R) (t : string) :
  In t a -> In t b -> 0 < termScore a b idf t.
Proof.
  intros Ha Hb. unfold termScore.
  pose proof (tfWeight_range t a Ha) as [Hwa _].
  pose proof (tfWeight_range t b Hb) as [Hwb _].
  pose proof (idfOr1_nonzero idf t) as Hi.
  rewrite Rmult_assoc. apply Rmult_lt_0_compat.
  - now apply Rmult_lt_0_compat.
  - destruct (Rtotal_order (idfOr1 idf t) 0) as [H|[H|H]]; [|contradiction|].
    + replace (idfOr1 idf t * idfOr1 idf t)
        with ((- idfOr1 idf t) * (- idfOr1 idf t)) by ring.
      apply Rmult_lt_0_compat; lra.
    + now apply Rmult_lt_0_compat.
Qed.

Lemma sum_fold_from (g : string -> R) (l : list string) : forall s0,
  fold_left (fun s t => s + g t) l s0 = s0 + fold_right Rplus 0 (map g l).
Proof.
  induction l as [|t l IH]; intros s0; simpl; [lra|].
  rewrite IH. lra.
Qed.

Lemma sumOver_list (g : string -> R) (l : list string) :
  sumOver g l = fold_right Rplus 0 (map g l).
Proof. unfold sumOver. rewrite sum_fold_from. lra. Qed.

Lemma sumOver_pos (g : string -> R) (l : list string) :
  (forall t, In t l -> 0 < g t) ->
  0 <= sumOver g l /\ (l <> [] -> 0 < sumOver g l).
Proof.
  rewrite sumOver_list.
  induction l as [|t l IH]; intros Hg; simpl.
  - split; [lra | congruence].
  - destruct IH as [IH _]; [intros x Hx; apply Hg; now right|].
    pose proof (Hg t (or_introl eq_refl)). split; [lra | intros _; lra].
Qed.

(** X8. The result of [calculateTFIDF] in closed form: the matched terms
    are the distinct content tokens that the candidate also holds, in the
    order of their first occurrence in the content, and the score is the
    sum over them of tf(content) x tf(candidate) x idf x idf.  Whatever the
    IDF map, the score is never negative, and it is above 0 exactly when
    the two token sequences share a token. *)
Theorem calculateTFIDF_shape (contentTokens candidateTokens : list string)
    (idf : JsMap.t R) :
  calculateTFIDF contentTokens candidateTokens idf
  = mkTfIdf (sumOver (termScore contentTokens candidateTokens idf)
               (sharedTerms contentTokens candidateTokens))
            (sharedTerms contentTokens candidateTokens)
  /\ 0 <= score (calculateTFIDF contentTokens candidateTokens idf)
  /\ (0 < score (calculateTFIDF contentTokens candidateTokens idf)
      <-> exists t, In t contentTokens /\ In t candidateTokens).
Proof.
  split; [apply calculateTFIDF_tabulated|].
  rewrite calculateTFIDF_tabulated. simpl.
  destruct (sumOver_pos (termScore contentTokens candidateTokens idf)
              (sharedTerms contentTokens candidateTokens)) as [Hge Hgt].
  { intros t Ht. apply sharedTerms_In in Ht as [Ha Hb]. now apply termScore_pos. }
  split; [exact Hge|]. split.
  - intros Hpos.
    destruct (sharedTerms contentTokens candidateTokens) as [|t l] eqn:E.
    + unfold sumOver in Hpos. simpl in Hpos. lra.
    + exists t. apply sharedTerms_In. rewrite E. now left.
  - intros [t Ht]. apply Hgt. apply sharedTerms_In in Ht.
    intros E. rewrite E in Ht. contradiction.
Qed.

Lemma sum_permutation (l l' : list R) :
  Permutation l l' -> fold_right Rplus 0 l = fold_right Rplus 0 l'.
Proof. induction 1; simpl; lra. Qed.

(** X9. The score does not depend on which of the two token sequences is
    the content and which the candidate: swapping them gives the same
    matched terms, up to their order, and a sum of the same products, taken
    in that other order; over the reals it is the same score. *)
Theorem calculateTFIDF_symmetric (a b : list string) (idf : JsMap.t R) :
  score (calculateTFIDF a b idf) = score (calculateTFIDF b a idf)
  /\ Permutation (matchedTerms (calculateTFIDF a b idf))
                 (matchedTerms (calculateTFIDF b a idf)).
Proof.
  rewrite !calculateTFIDF_tabulated. simpl.
  assert (Hperm : Permutation (sharedTerms a b) (sharedTerms b a)).
  { apply NoDup_Permutation; try apply sharedTerms_NoDup.
    intros t. rewrite !sharedTerms_In. tauto. }
  split; [|exact Hperm].
  rewrite !sumOver_list.
  rewrite (List.map_ext (termScore a b idf) (termScore b a idf))
    by (intros t; unfold termScore; ring).
  apply sum_permutation, Permutation_map, Hperm.
Qed.

End ScoreShape.

(* ------------------------------------------------------------------ *)
(** ** The boosts and the pool *)
(* ------------------------------------------------------------------ *)

Section BoostFacts.
Import JsString Tokenizer TfIdf Placement Handler Notions.
Local Open Scope R_scope.

Lemma keywordBoost_pow (keywordTokens candidateTokens : list string) : forall s,
  keywordBoost keywordTokens candidateTokens s
  = s * 1.5 ^ keywordHits keywordTokens candidateTokens.
Proof.
  unfold keywordBoost, keywordHits.
  induction keywordTokens as [|kw l IH]; intros s; simpl; [lra|].
  destruct (includes candidateTokens kw); rewrite IH; simpl; lra.
Qed.

Lemma keywordHits_le (keywordTokens candidateTokens : list string) :
  (keywordHits keywordTokens candidateTokens <= List.length keywordTokens)%nat.
Proof. unfold keywordHits. apply filter_length_le. Qed.

(** X10. The boosts multiply the score by one factor: 1.5 to the number of
    keyword tokens that the candidate's tokens include, times 1.3 if a
    category of the candidate is part of the keyword, times 1.2 if a tag
    is.  The factor is at least 1 and at most 1.5 to the number of keyword
    tokens times 1.56. *)
Theorem boostedScoreOf_factor (keywordTokens candidateTokens : list string)
    (targetKeyword : string) (candidate : LinkCandidate.t) (s : R) :
  exists f : R,
    boostedScoreOf keywordTokens candidateTokens targetKeyword candidate s = s * f
    /\ f = 1.5 ^ keywordHits keywordTokens candidateTokens
           * (if someLabelInKeyword (LinkCandidate.categories candidate)
                   (toLowerCase targetKeyword) then 1.3 else 1)
           * (if someLabelInKeyword (LinkCandidate.tags candidate)
                   (toLowerCase targetKeyword) then 1.2 else 1)
    /\ 1 <= f <= 1.5 ^ List.length keywordTokens * 1.56.
Proof.
  eexists. split; [|split; [reflexivity|]].
  - unfold boostedScoreOf. rewrite keywordBoost_pow.
    destruct (someLabelInKeyword (LinkCandidate.categories candidate) _),
             (someLabelInKeyword (LinkCandidate.tags candidate) _); ring.
  - assert (H1 : 1 <= 1.5 ^ keywordHits keywordTokens candidateTokens)
      by (apply pow_R1_Rle; lra).
    assert (H2 : 1.5 ^ keywordHits keywordTokens candidateTokens
                 <= 1.5 ^ List.length keywordTokens)
      by (apply Rle_pow; [lra | apply keywordHits_le]).
    destruct (someLabelInKeyword (LinkCandidate.categories candidate) _),
             (someLabelInKeyword (LinkCandidate.tags candidate) _); nra.
Qed.

Lemma scoreLoop_kept (contentTokens keywordTokens : list string) (idf : JsMap.t R)
    (targetKeyword : string) (total : nat) (tok : LinkCandidate.t -> list string)
    (candidates : list LinkCandidate.t) : forall i,
  let keep c :=
    if Rgt_dec (boostedScoreOf keywordTokens (tok c) targetKeyword c
                  (score (calculateTFIDF contentTokens (tok c) idf))) 0.001
    then true else false in
  let pool := scoreLoop contentTokens keywordTokens idf targetKeyword total i
                candidates (map tok candidates) in
  map ScoredLink.url pool = map LinkCandidate.url (filter keep candidates)
  /\ map ScoredLink.title pool = map LinkCandidate.title (filter keep candidates)
  /\ Forall (fun l => ScoredLink.score l > 0.001) pool.
Proof.
  induction candidates as [|c cs IH]; intros i; simpl.
  - repeat split. constructor.
  - destruct (IH (S i)) as [Hu [Ht Hs]]. unfold scoreCandidate.
    destruct (Rgt_dec _ 0.001) as [Hgt|Hle]; simpl.
    + rewrite Hu, Ht. repeat split. constructor; [exact Hgt | exact Hs].
    + auto.
Qed.

(** X11. The scored pool lists, in the order in which the candidates were
    fetched, exactly the candidates whose boosted score is above 0.001:
    the urls and titles of the pool are those of these candidates, every
    pooled score is above 0.001, and the pool is no longer than the
    candidate list. *)
Theorem scoredPool_kept (content targetKeyword : string)
    (candidates : list LinkCandidate.t) :
  map ScoredLink.url (scoredPool content targetKeyword candidates)
  = map LinkCandidate.url
      (filter (passesFloor content targetKeyword candidates) candidates)
  /\ map ScoredLink.title (scoredPool content targetKeyword candidates)
     = map LinkCandidate.title
         (filter (passesFloor content targetKeyword candidates) candidates)
  /\ Forall (fun l => ScoredLink.score l > 0.001)
            (scoredPool content targetKeyword candidates)
  /\ (List.length (scoredPool content targetKeyword candidates)
      <= List.length candidates)%nat.
Proof.
  pose proof (scoreLoop_kept (tokenize content) (tokenize targetKeyword)
                (calculateIDF (tokenize content
                               :: map (fun c => tokenize (candidateText c)) candidates))
                targetKeyword (List.length candidates)
                (fun c => tokenize (candidateText c)) candidates 0) as H.
  cbv zeta in H. destruct H as [Hu [Ht Hs]].
  fold (scoredPool content targetKeyword candidates) in Hu, Ht, Hs.
  repeat split; try assumption.
  rewrite <- (length_map ScoredLink.url), Hu, length_map.
  apply filter_length_le.
Qed.

End BoostFacts.

(* ------------------------------------------------------------------ *)
(** ** Anchors *)
(* ------------------------------------------------------------------ *)

Section AnchorFacts.
Import JsString Anchor Notions.

Lemma allChars_filterStr (p : ascii -> bool) (s : string) :
  allChars p (filterStr p s) = true.
Proof.
  induction s as [|c s IH]; simpl; [reflexivity|].
  destruct (p c) eqn:E; simpl; [now rewrite E | exact IH].
Qed.

Lemma allChars_trimStart (p : ascii -> bool) (s : string) :
  allChars p s = true -> allChars p (trimStart s) = true.
Proof.
  induction s as [|c s IH]; simpl; [reflexivity|].
  intros H. destruct (isSpaceChar c); [|exact H].
  apply andb_true_iff in H as [_ H]. now apply IH.
Qed.

Lemma allChars_trimEnd (p : ascii -> bool) (s : string) :
  allChars p s = true -> allChars p (trimEnd s) = true.
Proof.
  induction s as [|c s IH]; simpl; [reflexivity|].
  intros H. apply andb_true_iff in H as [Hc Hs]. specialize (IH Hs).
  destruct (trimEnd s) as [|c' r'].
  - destruct (isSpaceChar c); simpl; [reflexivity | now rewrite Hc].
  - simpl in *. now rewrite Hc.
Qed.

Lemma allChars_join (p : ascii -> bool) (sep : string) (l : list string) :
  allChars p sep = true -> Forall (fun w => allChars p w = true) l ->
  allChars p (join sep l) = true.
Proof.
  intros Hsep. induction l as [|w l IH]; intros H; [reflexivity|].
  inversion H as [|? ? Hw Hl]; subst.
  destruct l as [|w2 l]; [exact Hw|].
  change (join sep (w :: w2 :: l)) with (w ++ sep ++ join sep (w2 :: l)).
  rewrite !allChars_app, Hw, Hsep. simpl. now apply IH.
Qed.

Lemma splitCharAux_pieces (p : ascii -> bool) (sep : ascii) (s : string) : forall cur,
  allChars p cur = true -> allChars p s = true ->
  Forall (fun w => allChars p w = true) (splitCharAux sep cur s).
Proof.
  induction s as [|c s IH]; intros cur Hcur H; simpl.
  - constructor; [assumption | constructor].
  - simpl in H. apply andb_true_iff in H as [Hc Hs].
    destruct (Ascii.eqb c sep).
    + constructor; [assumption | now apply IH].
    + apply IH; [|assumption]. rewrite allChars_app, Hcur. simpl. now rewrite Hc.
Qed.

Lemma Forall_firstn' {A : Type} (P : A -> Prop) (l : list A) : forall n,
  Forall P l -> Forall P (firstn n l).
Proof.
  induction l as [|x l IH]; intros [|n] H; simpl; try constructor.
  - now inversion H.
  - inversion H; subst. now apply IH.
Qed.

Lemma Forall_skipn' {A : Type} (P : A -> Prop) (l : list A) : forall n,
  Forall P l -> Forall P (skipn n l).
Proof.
  induction l as [|x l IH]; intros [|n] H; simpl; try assumption.
  inversion H; subst. now apply IH.
Qed.

Lemma Forall_slice {A : Type} (P : A -> Prop) (l : list A) (i j : nat) :
  Forall P l -> Forall P (slice l i j).
Proof. intros H. unfold slice. now apply Forall_firstn', Forall_skipn'. Qed.

Lemma windowLoop_found (words matchedTerms keywordWords : list string) (i : nat)
    (lens : list nat) : forall best,
  Forall (fun n => 3 <= n <= 6) lens ->
  windowFound words best ->
  windowFound words (windowLoop words matchedTerms keywordWords i lens best).
Proof.
  induction lens as [|n lens IH]; intros best Hlens Hbest; simpl; [assumption|].
  inversion Hlens as [|? ? Hn Hrest]; subst.
  destruct (i + n <=? List.length words) eqn:E; [|assumption].
  apply IH; [assumption|].
  destruct (snd best <? _) eqn:Elt; [|assumption].
  right. exists i, n. simpl. apply Nat.leb_le in E. apply Nat.ltb_lt in Elt.
  repeat split; lia.
Qed.

Lemma bestWindow_found (words matchedTerms keywordWords : list string) :
  windowFound words (bestWindow words matchedTerms keywordWords).
Proof.
  unfold bestWindow.
  assert (H : forall l best, windowFound words best ->
              windowFound words
                (fold_left (fun best i =>
                              windowLoop words matchedTerms keywordWords i [3; 4; 5; 6] best)
                           l best)).
  { induction l as [|i l IH]; intros best Hb; cbn [fold_left]; [assumption|].
    apply IH, windowLoop_found; [|assumption].
    repeat constructor; lia. }
  apply H. now left.
Qed.

Lemma cleanTitle_chars (title : string) :
  allChars keepAnchorChar (cleanTitle title) = true.
Proof.
  unfold cleanTitle, trim.
  apply allChars_trimEnd, allChars_trimStart, allChars_filterStr.
Qed.

(** The anchor is the cleaned title when that has at most 50 code units,
    and otherwise at most six neighbouring words of it *)
Lemma generateRichAnchor_cases (title : string) (matchedTerms : list string)
    (targetKeyword : string) :
  (String.length (cleanTitle title) <= 50
   /\ generateRichAnchor title matchedTerms targetKeyword = cleanTitle title)
  \/ (50 < String.length (cleanTitle title)
      /\ exists i n,
           n <= 6
           /\ generateRichAnchor title matchedTerms targetKeyword
              = join " " (slice (splitChar " " (cleanTitle title)) i (i + n))).
Proof.
  unfold generateRichAnchor. fold (cleanTitle title).
  destruct (50 <? String.length (cleanTitle title)) eqn:E.
  - right. apply Nat.ltb_lt in E. split; [assumption|].
    pose proof (bestWindow_found (splitChar " " (cleanTitle title)) matchedTerms
                  (splitChar " " (toLowerCase targetKeyword))) as Hw.
    destruct (bestWindow _ _ _) as [seg sc].
    destruct (negb (String.eqb seg "") && (0 <? sc)) eqn:Ebest.
    + destruct Hw as [Hw|[i [n [Hn [_ [Hseg _]]]]]].
      * inversion Hw; subst. discriminate.
      * exists i, n. simpl in Hseg. split; [lia | assumption].
    + exists 0, 6. split; [lia|]. unfold slice. simpl. reflexivity.
  - left. apply Nat.ltb_ge in E. split; [assumption | reflexivity].
Qed.

Lemma keep_not_special (c : ascii) : keepAnchorChar c = true -> isSpecialChar c = false.
Proof.
  destruct c as [[] [] [] [] [] [] [] []]; vm_compute; intros; try reflexivity;
    discriminate.
Qed.

Lemma generateRichAnchor_keep (title : string) (matchedTerms : list string)
    (targetKeyword : string) :
  allChars keepAnchorChar (generateRichAnchor title matchedTerms targetKeyword) = true.
Proof.
  destruct (generateRichAnchor_cases title matchedTerms targetKeyword)
    as [[_ ->]|[_ [i [n [_ ->]]]]].
  - apply cleanTitle_chars.
  - apply allChars_join; [reflexivity|].
    apply Forall_slice. apply splitCharAux_pieces; [reflexivity|].
    apply cleanTitle_chars.
Qed.

Lemma kept_no_special (s : string) :
  allChars keepAnchorChar s = true -> anyChar isSpecialChar s = false.
Proof.
  induction s as [|c s IH]; simpl; [reflexivity|].
  intros H. apply andb_true_iff in H as [Hc Hs].
  now rewrite (keep_not_special c Hc), IH.
Qed.

(** X12. Whatever the title, the matched terms and the keyword, the anchor
    that [generateRichAnchor] returns is made of word characters, white
    space, commas, colons and apostrophes only: it holds no character that
    means something in HTML text or in a regular expression, so it can be
    put into the link markup and into the word pattern of the inserter as
    it is. *)
Theorem generateRichAnchor_chars (title : string) (matchedTerms : list string)
    (targetKeyword : string) :
  allChars keepAnchorChar (generateRichAnchor title matchedTerms targetKeyword) = true
  /\ anyChar isSpecialChar (generateRichAnchor title matchedTerms targetKeyword) = false.
Proof.
  split; [apply generateRichAnchor_keep|].
  apply kept_no_special, generateRichAnchor_keep.
Qed.

Lemma trimEnd_idem (s : string) : trimEnd (trimEnd s) = trimEnd s.
Proof.
  induction s as [|c s IH]; simpl; [reflexivity|].
  destruct (trimEnd s) as [|c' r'] eqn:E.
  - destruct (isSpaceChar c) eqn:Ec; simpl; [reflexivity | now rewrite Ec].
  - simpl. simpl in IH. now rewrite IH.
Qed.

Lemma trimStart_head (s : string) :
  match trimStart s with
  | EmptyString => True
  | String c _ => isSpaceChar c = false
  end.
Proof.
  induction s as [|c s IH]; simpl; [exact I|].
  destruct (isSpaceChar c) eqn:E; [exact IH | exact E].
Qed.

Lemma trimEnd_keeps_head (c : ascii) (r : string) :
  isSpaceChar c = false -> exists r', trimEnd (String c r) = String c r'.
Proof.
  intros Hc. simpl. destruct (trimEnd r); rewrite ?Hc; eauto.
Qed.

Lemma trim_idem (s : string) : trim (trim s) = trim s.
Proof.
  unfold trim.
  pose proof (trimStart_head s) as Hh.
  destruct (trimStart s) as [|c r] eqn:E; [reflexivity|].
  destruct (trimEnd_keeps_head c r Hh) as [r' Hr'].
  assert (Hs : trimStart (trimEnd (String c r)) = trimEnd (String c r))
    by (rewrite Hr'; simpl; now rewrite Hh).
  rewrite Hs. apply trimEnd_idem.
Qed.

(** X13. The anchor is either the cleaned title itself, when that has at
    most 50 code units, or at most six neighbouring words of the cleaned
    title joined by single spaces; the cleaned title is the title up to its
    site suffix, without the characters the anchor may not hold, and it
    neither starts nor ends with white space. *)
Theorem generateRichAnchor_shape (title : string) (matchedTerms : list string)
    (targetKeyword : string) :
  ((String.length (cleanTitle title) <= 50
    /\ generateRichAnchor title matchedTerms targetKeyword = cleanTitle title)
   \/ (50 < String.length (cleanTitle title)
       /\ exists i n,
            n <= 6
            /\ generateRichAnchor title matchedTerms targetKeyword
               = join " " (slice (splitChar " " (cleanTitle title)) i (i + n))))
  /\ trim (cleanTitle title) = cleanTitle title.
Proof.
  split; [apply generateRichAnchor_cases|].
  unfold cleanTitle. apply trim_idem.
Qed.

End AnchorFacts.

(* ------------------------------------------------------------------ *)
(** ** More on positions and selection *)
(* ------------------------------------------------------------------ *)

Section SelectionMore.
Import JsString Placement Notions Samples.

(** X14. Along the candidate list the position never goes back: for two
    indices [i <= j] below the total [n] (so that [n] is at least 1) the
    earlier one has the earlier (or the same) bucket, index 0 is early, and
    a late link needs a total of at least 3.  With a total of 0, which the
    handler never passes, every index is late, index 0 too. *)
Theorem determineLinkPosition_monotone (i j n : nat) :
  i <= j -> j < n ->
  positionRank (determineLinkPosition i n) <= positionRank (determineLinkPosition j n)
  /\ determineLinkPosition 0 n = early
  /\ (determineLinkPosition j n = late -> 3 <= n)
  /\ determineLinkPosition i 0 = late
  /\ determineLinkPosition 0 0 = late.
Proof.
  intros Hij Hjn.
  cut (positionRank (determineLinkPosition i n) <= positionRank (determineLinkPosition j n)
       /\ determineLinkPosition 0 n = early
       /\ (determineLinkPosition j n = late -> 3 <= n)).
  { intros [H1 [H2 H3]]. repeat split; assumption. }
  rewrite !determineLinkPosition_nat by lia.
  repeat split.
  - destruct (Nat.ltb_spec (100 * i) (33 * n)), (Nat.ltb_spec (100 * j) (33 * n)),
             (Nat.ltb_spec (100 * i) (66 * n)), (Nat.ltb_spec (100 * j) (66 * n));
      simpl; lia.
  - assert (E : (100 * 0 <? 33 * n) = true) by (apply Nat.ltb_lt; lia). now rewrite E.
  - destruct (100 * j <? 33 * n) eqn:E1; [discriminate|].
    destruct (100 * j <? 66 * n) eqn:E2; [discriminate|].
    intros _. apply Nat.ltb_ge in E2. lia.
Qed.

Lemma determineLinkPosition_monotone_witness :
  positionRank (determineLinkPosition 1 3) <= positionRank (determineLinkPosition 2 3)
  /\ determineLinkPosition 0 3 = early
  /\ (determineLinkPosition 2 3 = late -> 3 <= 3)
  /\ determineLinkPosition 1 0 = late
  /\ determineLinkPosition 0 0 = late.
Proof. apply (determineLinkPosition_monotone 1 2 3); lia. Defined.

Lemma selectLoop_accepts (maxLinks maxPerPosition : Z) (sorted : list ScoredLink.t) :
  forall st,
    exists acc,
      selected (selectLoop maxLinks maxPerPosition sorted st)
      = (selected st ++ acc)%list
      /\ Accepted maxLinks maxPerPosition st acc.
Proof.
  induction sorted as [|link rest IH]; intros st; simpl.
  - exists []. now rewrite app_nil_r.
  - destruct (Z.of_nat (List.length (selected st)) >=? maxLinks)%Z eqn:E1.
    { exists []. now rewrite app_nil_r. }
    destruct (includes (usedAnchors st) _) eqn:E2; [apply IH|].
    destruct (Z.of_nat (countOf (positionCounts st) (ScoredLink.position link))
              >=? maxPerPosition + 1)%Z eqn:E3; [apply IH|].
    destruct (IH (accept st link)) as [acc [Hsel Hacc]].
    exists (link :: acc). split.
    + unfold accept in Hsel. rewrite Hsel. simpl. now rewrite <- app_assoc.
    + simpl. auto.
Qed.

Lemma selectLoop_of_accepted (maxLinks maxPerPosition : Z) (l : list ScoredLink.t) :
  forall st,
    Accepted maxLinks maxPerPosition st l ->
    selected (selectLoop maxLinks maxPerPosition l st) = (selected st ++ l)%list.
Proof.
  induction l as [|link rest IH]; intros st H; simpl.
  - now rewrite app_nil_r.
  - destruct H as [E1 [E2 [E3 H]]]. rewrite E1, E2, E3.
    fold (accept st link). rewrite (IH _ H). unfold accept. simpl.
    now rewrite <- app_assoc.
Qed.

Lemma sortByScoreDesc_fixed (l : list ScoredLink.t) :
  StronglySorted scoreGe l -> sortByScoreDesc l = l.
Proof.
  unfold sortByScoreDesc.
  induction l as [|x l IH]; intros H; simpl; [reflexivity|].
  inversion H as [|? ? Hl Hx]; subst. rewrite (IH Hl).
  destruct l as [|y l]; [reflexivity|]. simpl.
  inversion Hx as [|? ? Hxy _]; subst. unfold scoreGe in Hxy.
  destruct (Rlt_dec (ScoredLink.score x) (ScoredLink.score y)); [lra | reflexivity].
Qed.

(** X15. Selecting again from what was selected changes nothing: with the
    same [maxLinks], [selectOptimalLinks] returns its own output as it is. *)
Theorem selectOptimalLinks_idempotent (scoredLinks : list ScoredLink.t) (maxLinks : Z) :
  selectOptimalLinks (selectOptimalLinks scoredLinks maxLinks) maxLinks
  = selectOptimalLinks scoredLinks maxLinks.
Proof.
  pose proof (selectLoop_sorted maxLinks (ceilThird maxLinks)
                (sortByScoreDesc scoredLinks) (mkSelection [] [] (mkCounts 0 0 0))
                (sortByScoreDesc_sorted scoredLinks)) as Hsorted.
  destruct (selectLoop_accepts maxLinks (ceilThird maxLinks)
              (sortByScoreDesc scoredLinks) (mkSelection [] [] (mkCounts 0 0 0)))
    as [acc [Hsel Hacc]].
  simpl in Hsel.
  unfold selectOptimalLinks at 2 3. rewrite Hsel in *.
  unfold selectOptimalLinks. rewrite (sortByScoreDesc_fixed acc Hsorted).
  now rewrite (selectLoop_of_accepted _ _ acc _ Hacc).
Qed.

(** X16. When [maxLinks] is at least 1 and there is a scored link, the
    selection is not empty and starts with a link of the highest score. *)
Theorem selectOptimalLinks_best_first (scoredLinks : list ScoredLink.t) (maxLinks : Z) :
  (1 <= maxLinks)%Z -> scoredLinks <> [] ->
  exists best rest,
    selectOptimalLinks scoredLinks maxLinks = best :: rest
    /\ In best scoredLinks
    /\ forall l, In l scoredLinks -> scoreGe best l.
Proof.
  intros Hk Hne. unfold selectOptimalLinks.
  pose proof (sortByScoreDesc_sorted scoredLinks) as Hs.
  pose proof (sortByScoreDesc_perm scoredLinks) as Hp.
  destruct (sortByScoreDesc scoredLinks) as [|b r] eqn:E.
  - apply Permutation_sym, Permutation_nil in Hp. contradiction.
  - simpl.
    assert (E1 : (0 >=? maxLinks)%Z = false) by lia. rewrite E1.
    pose proof (ceilThird_spec maxLinks) as Hc.
    assert (E3 : (Z.of_nat (countOf (mkCounts 0 0 0) (ScoredLink.position b))
                  >=? ceilThird maxLinks + 1)%Z = false)
      by (destruct (ScoredLink.position b); simpl; lia).
    rewrite E3.
    destruct (selectLoop_accepts maxLinks (ceilThird maxLinks) r
                (mkSelection [b] [toLowerCase (ScoredLink.anchor b)]
                   (increment (mkCounts 0 0 0) (ScoredLink.position b))))
      as [acc [Hsel _]].
    simpl in Hsel. simpl. rewrite Hsel.
    exists b, acc. split; [reflexivity|]. split.
    + apply (Permutation_in b (Permutation_sym Hp)). now left.
    + intros l Hl. apply (Permutation_in l Hp) in Hl.
      inversion Hs as [|? ? _ Hb]; subst.
      destruct Hl as [<-|Hl]; [unfold scoreGe; lra|].
      rewrite Forall_forall in Hb. now apply Hb.
Qed.

Lemma selectOptimalLinks_best_first_witness :
  exists best rest,
    selectOptimalLinks sampleLinks 5 = best :: rest
    /\ In best sampleLinks
    /\ forall l, In l sampleLinks -> scoreGe best l.
Proof.
  apply (selectOptimalLinks_best_first sampleLinks 5); [lia | discriminate].
Defined.

End SelectionMore.

(* ------------------------------------------------------------------ *)
(** ** What insertion does to the content *)
(* ------------------------------------------------------------------ *)

Section InsertionMore.
Import JsString Placement Inserter Notions Samples.

Lemma toLowerCase_app (a b : string) :
  toLowerCase (a ++ b) = toLowerCase a ++ toLowerCase b.
Proof.
  unfold toLowerCase. induction a as [|c a IH]; simpl; [reflexivity | now rewrite IH].
Qed.

Lemma splitCloseTagAux_nonempty (s : string) : forall skip cur,
  exists x l, splitCloseTagAux skip cur s = x :: l.
Proof.
  induction s as [|c s IH]; intros skip cur; simpl; [eauto|].
  destruct skip; [|apply IH].
  destruct (startsWithCI "</p>" (String c s)); [eauto | apply IH].
Qed.

Lemma join_cons (sep x : string) (l : list string) :
  l <> [] -> join sep (x :: l) = x ++ sep ++ join sep l.
Proof. destruct l; [congruence | reflexivity]. Qed.

(** A text that starts with a closing paragraph tag, in either case *)
Lemma startsWithCI_closeTag (s : string) :
  startsWithCI "</p>" s = true ->
  exists c4 rest,
    (s = "</" ++ String c4 (">" ++ rest))
    /\ (c4 = "p"%char \/ c4 = "P"%char).
Proof.
  unfold startsWithCI.
  destruct s as [|c1 [|c2 [|c3 [|c4 rest]]]]; simpl;
    repeat match goal with
           | |- context [eqCI ?a ?b] => destruct (eqCI a b) eqn:?; simpl
           end; try discriminate.
  intros _.
  assert (H1 : c1 = "<"%char)
    by (revert Heqb; destruct c1 as [[] [] [] [] [] [] [] []]; vm_compute;
        intros; try reflexivity; discriminate).
  assert (H2 : c2 = "/"%char)
    by (revert Heqb0; destruct c2 as [[] [] [] [] [] [] [] []]; vm_compute;
        intros; try reflexivity; discriminate).
  assert (H3 : c3 = "p"%char \/ c3 = "P"%char)
    by (revert Heqb1; destruct c3 as [[] [] [] [] [] [] [] []]; vm_compute;
        intros; try (now left); try (now right); discriminate).
  assert (H4 : c4 = ">"%char)
    by (revert Heqb2; destruct c4 as [[] [] [] [] [] [] [] []]; vm_compute;
        intros; try reflexivity; discriminate).
  subst c1 c2 c4. exists c3, rest. split; [reflexivity | assumption].
Qed.

Lemma split_join_lower (s : string) : forall skip cur,
  toLowerCase (join "</p>" (splitCloseTagAux skip cur s))
  = toLowerCase (cur ++ dropStr skip s).
Proof.
  induction s as [|c s IH]; intros skip cur.
  - destruct skip; simpl; now rewrite append_nil_r.
  - destruct skip as [|k]; [|simpl; apply IH].
    cbn [splitCloseTagAux].
    destruct (startsWithCI "</p>" (String c s)) eqn:E.
    + destruct (splitCloseTagAux_nonempty s 3 "") as [x [l Hx]].
      rewrite join_cons by (rewrite Hx; discriminate).
      rewrite !toLowerCase_app, IH.
      apply startsWithCI_closeTag in E as [c4 [rest [Hs Hc]]].
      simpl in Hs. inversion Hs; subst. simpl dropStr.
      rewrite !toLowerCase_app. destruct Hc; subst; reflexivity.
    + rewrite IH. simpl dropStr. now rewrite append_assoc.
Qed.

Lemma strIncludes_tail (c : ascii) (s needle : string) :
  strIncludes (String c s) needle = false -> strIncludes s needle = false.
Proof. simpl. intros H. now apply orb_false_iff in H as [_ H]. Qed.

Lemma strIncludes_drop (k : nat) : forall s needle,
  strIncludes s needle = false -> strIncludes (dropStr k s) needle = false.
Proof.
  induction k as [|k IH]; intros s needle H; [exact H|].
  destruct s as [|c s]; [exact H|]. simpl. apply IH.
  now apply strIncludes_tail in H.
Qed.

Lemma split_join_exact (s : string) : forall skip cur,
  strIncludes (dropStr skip s) "</P>" = false ->
  join "</p>" (splitCloseTagAux skip cur s) = cur ++ dropStr skip s.
Proof.
  induction s as [|c s IH]; intros skip cur H.
  - destruct skip; simpl; now rewrite append_nil_r.
  - destruct skip as [|k]; [|simpl; apply IH; exact H].
    cbn [splitCloseTagAux]. simpl dropStr in H.
    destruct (startsWithCI "</p>" (String c s)) eqn:E.
    + destruct (splitCloseTagAux_nonempty s 3 "") as [x [l Hx]].
      rewrite join_cons by (rewrite Hx; discriminate).
      apply startsWithCI_closeTag in E as [c4 [rest [Hs Hc]]].
      simpl in Hs. inversion Hs; subst.
      rewrite IH.
      * simpl dropStr. destruct Hc as [->| ->]; [reflexivity|].
        simpl in H. discriminate.
      * simpl dropStr. apply (strIncludes_drop 4) in H. exact H.
    + rewrite IH; [simpl dropStr; now rewrite append_assoc|].
      simpl dropStr. now apply strIncludes_tail in H.
Qed.

(** X17. Given no link, [insertLinksIntoContent] counts 0 and returns the
    content with nothing but the case of its closing paragraph tags
    touched: the result is the content up to the case of letters, and it
    is the content itself when no closing tag is written [</P>]. *)
Theorem insertLinksIntoContent_no_links (content : string) :
  snd (insertLinksIntoContent content []) = 0
  /\ toLowerCase (fst (insertLinksIntoContent content [])) = toLowerCase content
  /\ (strIncludes content "</P>" = false ->
      fst (insertLinksIntoContent content []) = content).
Proof.
  unfold insertLinksIntoContent, splitCloseTag. simpl.
  split; [reflexivity|]. split.
  - now rewrite split_join_lower.
  - intros H. now rewrite split_join_exact.
Qed.

Lemma hasLinkTag_app_r (a b : string) :
  hasLinkTag b = true -> hasLinkTag (a ++ b) = true.
Proof.
  intros Hb. induction a as [|c a IH]; [exact Hb|].
  change (String c a ++ b) with (String c (a ++ b)).
  cbn [hasLinkTag]. rewrite IH. apply orb_true_r.
Qed.

Lemma hasLinkTag_linkHtml (l : ScoredLink.t) : hasLinkTag (linkHtml l) = true.
Proof. reflexivity. Qed.

Lemma hasLinkTag_appended (before sep : string) (l : ScoredLink.t) :
  hasLinkTag (before ++ sep ++ linkHtml l) = true.
Proof. apply hasLinkTag_app_r, hasLinkTag_app_r, hasLinkTag_linkHtml. Qed.

Lemma append_longer (a b : string) : b <> "" -> a ++ b <> a.
Proof.
  intros Hb. induction a as [|c a IH]; simpl; [assumption|].
  intros E. inversion E. contradiction.
Qed.

Lemma naturalLoop_some (remaining : nat) : forall p anchorWords html paragraphs ps',
  naturalLoop remaining p anchorWords html paragraphs = Some ps' ->
  exists q,
    paragraphAt paragraphs q <> ""
    /\ hasLinkTag (paragraphAt paragraphs q) = false
    /\ ps' = setParagraph paragraphs q (paragraphAt paragraphs q ++ " " ++ html).
Proof.
  induction remaining as [|k IH]; intros p words html ps ps'; simpl; [discriminate|].
  destruct (String.eqb (paragraphAt ps p) "") eqn:E1; [apply IH|].
  destruct (hasLinkTag (paragraphAt ps p)) eqn:E2; [apply IH|].
  destruct (findsNaturalWord words (paragraphAt ps p)); [|apply IH].
  intros H. inversion H; subst. exists p.
  apply String.eqb_neq in E1. auto.
Qed.

(** One paragraph that holds text and no link takes the markup of a link *)
Lemma update_kept (links : list ScoredLink.t) (l : ScoredLink.t) (sep : string)
    (before : list string) : forall (after : list string) (q : nat),
  In l links -> sep = " " \/ sep = " Read more: " ->
  Forall2 (paragraphKept links) before after ->
  paragraphAt after q <> "" ->
  hasLinkTag (paragraphAt after q) = false ->
  Forall2 (paragraphKept links) before
    (setParagraph after q (paragraphAt after q ++ sep ++ linkHtml l))
  /\ changedCount before
       (setParagraph after q (paragraphAt after q ++ sep ++ linkHtml l))
     = S (changedCount before after).
Proof.
  intros after q Hl Hsep HF. revert q.
  induction HF as [|o c os cs Hoc HF IH]; intros q Hne Hno.
  - exfalso. apply Hne. unfold paragraphAt. now destruct q.
  - destruct q as [|q].
    + unfold paragraphAt in *. simpl in *.
      assert (Hc : c = o).
      { destruct Hoc as [Hc|[_ [_ [l' [_ [Hc|Hc]]]]]]; [assumption| |];
          rewrite Hc, hasLinkTag_appended in Hno; discriminate. }
      subst c. split.
      * constructor; [|assumption]. right.
        repeat split; try assumption. exists l. split; [assumption|].
        destruct Hsep as [->| ->]; auto.
      * unfold changedCount. simpl. rewrite String.eqb_refl. simpl.
        assert (E : String.eqb o (o ++ sep ++ linkHtml l) = false).
        { apply String.eqb_neq. intros E. symmetry in E. revert E.
          apply append_longer. destruct Hsep as [->| ->]; discriminate. }
        rewrite E. reflexivity.
    + unfold paragraphAt in *. simpl in *.
      destruct (IH q Hne Hno) as [HF' Hcount]. split.
      * constructor; assumption.
      * unfold changedCount in *. simpl.
        destruct (negb (String.eqb o c)); simpl; now rewrite Hcount.
Qed.

Lemma insertOne_kept (links : list ScoredLink.t) (before : list string)
    (start stop : nat) (st : InsertState) (l : ScoredLink.t) :
  In l links ->
  Forall2 (paragraphKept links) before (fst st) ->
  snd st = changedCount before (fst st) ->
  Forall2 (paragraphKept links) before (fst (insertOne start stop st l))
  /\ snd (insertOne start stop st l)
     = changedCount before (fst (insertOne start stop st l)).
Proof.
  intros Hl HF Hc. unfold insertOne. destruct st as [ps n]. simpl in HF, Hc.
  destruct (naturalLoop _ _ _ _ _) as [ps'|] eqn:E.
  - apply naturalLoop_some in E as [q [Hne [Hno ->]]].
    destruct (update_kept links l " " before ps q Hl (or_introl eq_refl) HF Hne Hno)
      as [HF' Hc'].
    cbn [fst snd]. split; [assumption|]. rewrite Hc', Hc. lia.
  - destruct (start <? List.length ps); [|now split].
    set (q := Nat.min (start + (stop - start) / 2) (List.length ps - 1)).
    destruct (negb (String.eqb (paragraphAt ps q) "")) eqn:E1;
      cbn [andb fst snd]; [|now split].
    destruct (hasLinkTag (paragraphAt ps q)) eqn:E2; cbn [negb fst snd]; [now split|].
    apply negb_true_iff, String.eqb_neq in E1.
    destruct (update_kept links l " Read more: " before ps q Hl
                (or_intror eq_refl) HF E1 E2) as [HF' Hc'].
    split; [assumption|]. rewrite Hc', Hc. lia.
Qed.

Lemma insertBucket_kept (links : list ScoredLink.t) (before : list string)
    (start stop : nat) (bucket : list ScoredLink.t) : forall st,
  incl bucket links ->
  Forall2 (paragraphKept links) before (fst st) ->
  snd st = changedCount before (fst st) ->
  Forall2 (paragraphKept links) before (fst (fold_left (insertOne start stop) bucket st))
  /\ snd (fold_left (insertOne start stop) bucket st)
     = changedCount before (fst (fold_left (insertOne start stop) bucket st)).
Proof.
  induction bucket as [|l bucket IH]; intros st Hincl HF Hc; simpl; [now split|].
  destruct (insertOne_kept links before start stop st l) as [HF' Hc'];
    [apply Hincl; now left | assumption | assumption |].
  apply IH; [intros x Hx; apply Hincl; now right | assumption | assumption].
Qed.

Lemma Forall2_same (links : list ScoredLink.t) (ps : list string) :
  Forall2 (paragraphKept links) ps ps /\ changedCount ps ps = 0.
Proof.
  induction ps as [|x ps [IH1 IH2]]; [split; [constructor | reflexivity]|].
  split; [constructor; [now left | assumption]|].
  unfold changedCount in *. simpl. now rewrite String.eqb_refl.
Qed.

(** X18. Insertion only ever appends to paragraphs.  The content returned
    is the paragraphs of the input, in their order and joined by [</p>],
    each either as it was or, if it held text and no link, with the markup
    of one of the given links appended, plainly or after [Read more:]: no
    paragraph that already holds a link is touched, none gets two links,
    and the counter is the number of paragraphs that changed. *)
Theorem insertLinksIntoContent_appends (content : string) (links : list ScoredLink.t) :
  exists paragraphs' : list string,
    fst (insertLinksIntoContent content links) = join "</p>" paragraphs'
    /\ Forall2 (paragraphKept links) (splitCloseTag content) paragraphs'
    /\ snd (insertLinksIntoContent content links)
       = changedCount (splitCloseTag content) paragraphs'.
Proof.
  unfold insertLinksIntoContent. cbv zeta. cbn [fst snd].
  set (ps := splitCloseTag content).
  set (n := List.length ps).
  destruct (Forall2_same links ps) as [H0 C0].
  destruct (insertBucket_kept links ps 0 (n / 3) (filter (hasPosition early) links)
              (ps, 0)) as [H1 C1];
    [intros x Hx; now apply filter_In in Hx | exact H0 | simpl; now rewrite C0 |].
  set (st1 := fold_left (insertOne 0 (n / 3)) (filter (hasPosition early) links) (ps, 0))
    in *.
  destruct (insertBucket_kept links ps (n / 3) (2 * n / 3)
              (filter (hasPosition middle) links) st1) as [H2 C2];
    [intros x Hx; now apply filter_In in Hx | exact H1 | exact C1 |].
  set (st2 := fold_left (insertOne (n / 3) (2 * n / 3))
                (filter (hasPosition middle) links) st1) in *.
  destruct (insertBucket_kept links ps (2 * n / 3) n
              (filter (hasPosition late) links) st2) as [H3 C3];
    [intros x Hx; now apply filter_In in Hx | exact H2 | exact C2 |].
  eexists. split; [reflexivity|]. split; assumption.
Qed.

End InsertionMore.

(* ------------------------------------------------------------------ *)
(** ** What the handler answers *)
(* ------------------------------------------------------------------ *)

Section HandlerMore.
Import JsString Tokenizer TfIdf Anchor Placement Inserter Handler Notions Samples.

(** X19. The order of the handler's checks: an OPTIONS request gets the
    preflight reply whatever its body; otherwise a body that fails
    [validateRequired] gets the validation error whatever the store
    returned; otherwise a failed store query gets the database error; and
    in every remaining case the handler answers with a success body. *)
Theorem handler_outcomes
    (validateRequired : InternalLinkRequest.t -> list string -> bool)
    (isOptions : bool) (body : InternalLinkRequest.t) (query : QueryResult.t) :
  (handler validateRequired isOptions body query = Preflight <-> isOptions = true)
  /\ (handler validateRequired isOptions body query = ErrorResponse ValidationFailed
      <-> isOptions = false
          /\ validateRequired body ["content"; "pageId"; "targetKeyword"] = false)
  /\ (handler validateRequired isOptions body query = ErrorResponse DbError
      <-> isOptions = false
          /\ validateRequired body ["content"; "pageId"; "targetKeyword"] = true
          /\ QueryResult.error query = true)
  /\ ((exists r, handler validateRequired isOptions body query = JsonResponse r
                 /\ ResponseBody.success r = true)
      <-> isOptions = false
          /\ validateRequired body ["content"; "pageId"; "targetKeyword"] = true
          /\ QueryResult.error query = false).
Proof.
  unfold handler.
  destruct isOptions,
           (validateRequired body ["content"; "pageId"; "targetKeyword"]),
           (QueryResult.error query); cbn [negb].
  all: repeat split; intros; try reflexivity; try discriminate.
  all: repeat match goal with
       | H : _ /\ _ |- _ => destruct H
       | H : exists _, _ |- _ => destruct H
       end; try discriminate.
  all: try (destruct (QueryResult.data query) as [[|c cs]|]; discriminate).
  destruct (QueryResult.data query) as [[|c cs]|]; eexists; split; reflexivity.
Qed.

Lemma scoreCandidate_fields (contentTokens keywordTokens : list string) (idf : JsMap.t R)
    (targetKeyword : string) (total i : nat) (candidate : LinkCandidate.t)
    (candidateTokens : list string) (link : ScoredLink.t) :
  scoreCandidate contentTokens keywordTokens idf targetKeyword total i
    candidate candidateTokens = Some link ->
  ScoredLink.url link = LinkCandidate.url candidate
  /\ ScoredLink.title link = LinkCandidate.title candidate
  /\ ScoredLink.anchor link
     = generateRichAnchor (LinkCandidate.title candidate)
         (matchedTerms (calculateTFIDF contentTokens candidateTokens idf)) targetKeyword
  /\ (ScoredLink.score link > 0.001)%R.
Proof.
  unfold scoreCandidate.
  destruct (Rgt_dec _ 0.001) as [Hgt|Hle]; [|discriminate].
  intros E. inversion E; subst; simpl. auto.
Qed.

Lemma scoredPool_length (content targetKeyword : string)
    (candidates : list LinkCandidate.t) :
  List.length (scoredPool content targetKeyword candidates) <= List.length candidates.
Proof.
  unfold scoredPool.
  generalize (calculateIDF (tokenize content
                            :: map (fun c => tokenize (candidateText c)) candidates)).
  generalize (List.length candidates) at 1. generalize 0.
  induction candidates as [|c cs IH]; intros i total idf; simpl; [lia|].
  rewrite length_app. specialize (IH (S i) total idf).
  destruct (scoreCandidate _ _ _ _ _ _ c _); simpl; lia.
Qed.

Lemma selected_distinct (pool : list ScoredLink.t) (maxLinks : Z) :
  NoDup (map (fun l => toLowerCase (ScoredLink.anchor l))
             (selectOptimalLinks pool maxLinks)).
Proof.
  unfold selectOptimalLinks.
  destruct (selectLoop_consistent maxLinks (ceilThird maxLinks)
              (sortByScoreDesc pool) _ initial_consistent) as [Hkeys Hnodup _].
  rewrite Hkeys in Hnodup. exact Hnodup.
Qed.

Lemma selected_length (pool : list ScoredLink.t) (maxLinks : Z) :
  List.length (selectOptimalLinks pool maxLinks) <= List.length pool.
Proof.
  unfold selectOptimalLinks.
  destruct (selectLoop_accepts maxLinks (ceilThird maxLinks) (sortByScoreDesc pool)
              (mkSelection [] [] (mkCounts 0 0 0))) as [acc [Hsel _]].
  assert (H : forall sorted st,
             List.length (selected (selectLoop maxLinks (ceilThird maxLinks) sorted st))
             <= List.length (selected st) + List.length sorted).
  { induction sorted as [|x sorted IH]; intros st; simpl; [lia|].
    destruct (Z.of_nat (List.length (selected st)) >=? maxLinks)%Z; [lia|].
    destruct (includes (usedAnchors st) _); [specialize (IH st); lia|].
    destruct (Z.of_nat (countOf (positionCounts st) (ScoredLink.position x))
              >=? ceilThird maxLinks + 1)%Z; [specialize (IH st); lia|].
    etransitivity; [apply IH|]. simpl. rewrite length_app. simpl. lia. }
  etransitivity; [apply H|]. simpl.
  now rewrite <- (Permutation_length (sortByScoreDesc_perm pool)).
Qed.

Lemma selected_linksTo (content targetKeyword : string)
    (candidates : list LinkCandidate.t) (maxLinks : Z) (l : ScoredLink.t) :
  In l (selectOptimalLinks (scoredPool content targetKeyword candidates) maxLinks) ->
  linksTo candidates (toResponseLink l).
Proof.
  intros H. apply selectOptimalLinks_subset, scoredPool_In in H as [j [c [Hc Hs]]].
  apply scoreCandidate_fields in Hs as [Hu [Ht [Ha Hgt]]].
  unfold linksTo, toResponseLink. simpl. split; [assumption|]. split.
  - rewrite Ha. apply kept_no_special, generateRichAnchor_keep.
  - exists c. split; [eapply nth_error_In; eassumption | auto].
Qed.

Lemma sum_scores_from (l : list ScoredLink.t) : forall s0 : R,
  fold_left (fun sum x => (sum + ScoredLink.score x)%R) l s0
  = (s0 + fold_right Rplus 0 (map ScoredLink.score l))%R.
Proof.
  induction l as [|x l IH]; intros s0; simpl; [lra|]. rewrite IH. lra.
Qed.

Lemma sum_between (lo hi : R) (l : list ScoredLink.t) :
  Forall (fun x => (lo <= ScoredLink.score x <= hi)%R) l ->
  (lo * INR (List.length l) <= fold_right Rplus 0 (map ScoredLink.score l)
   <= hi * INR (List.length l))%R.
Proof.
  induction 1 as [|x l Hx Hl IH].
  - simpl. lra.
  - change (List.length (x :: l)) with (S (List.length l)). rewrite S_INR. simpl. lra.
Qed.

Lemma avgScore_between (lo hi : R) (l : list ScoredLink.t) :
  l <> [] ->
  Forall (fun x => (lo <= ScoredLink.score x <= hi)%R) l ->
  (lo <= avgScore l <= hi)%R.
Proof.
  intros Hne HF. unfold avgScore. rewrite sum_scores_from, Rplus_0_l.
  pose proof (sum_between lo hi l HF) as [Hlo Hhi].
  destruct l as [|x l]; [congruence|].
  set (n := List.length (x :: l)) in *.
  assert (Hn : (0 < INR n)%R) by (apply lt_0_INR; unfold n; simpl; lia).
  replace (match n with O => 1 | S _ => n end) with n by (unfold n; reflexivity).
  split.
  - apply (Rmult_le_reg_r (INR n)); [assumption|].
    unfold Rdiv. rewrite Rmult_assoc, Rinv_l, Rmult_1_r by lra. exact Hlo.
  - apply (Rmult_le_reg_r (INR n)); [assumption|].
    unfold Rdiv. rewrite Rmult_assoc, Rinv_l, Rmult_1_r by lra. exact Hhi.
Qed.

Lemma avgScore_above (b : R) (l : list ScoredLink.t) :
  l <> [] ->
  Forall (fun x => (b < ScoredLink.score x)%R) l ->
  (b < avgScore l)%R.
Proof.
  intros Hne HF. unfold avgScore. rewrite sum_scores_from, Rplus_0_l.
  assert (Hsum : (b * INR (List.length l)
                  < fold_right Rplus 0 (map ScoredLink.score l))%R).
  { revert Hne. induction HF as [|x l Hx Hl IH]; intros Hne; [congruence|].
    change (List.length (x :: l)) with (S (List.length l)). rewrite S_INR. simpl.
    destruct l as [|y l]; [simpl; lra|].
    assert (H : y :: l <> []) by discriminate. specialize (IH H). lra. }
  destruct l as [|x l]; [congruence|].
  set (n := List.length (x :: l)) in *.
  assert (Hn : (0 < INR n)%R) by (apply lt_0_INR; unfold n; simpl; lia).
  replace (match n with O => 1 | S _ => n end) with n by (unfold n; reflexivity).
  apply (Rmult_lt_reg_r (INR n)); [assumption|].
  unfold Rdiv. rewrite Rmult_assoc, Rinv_l, Rmult_1_r by lra. exact Hsum.
Qed.

(** Over the reals the average is 0 when no link is selected (the divisor
    is then 1, not 0), and otherwise lies between any two bounds that hold
    for every selected score. *)
Lemma avgScore_range (lo hi : R) (l : list ScoredLink.t) :
  Forall (fun x => (lo <= ScoredLink.score x <= hi)%R) l ->
  (l = [] /\ avgScore l = 0%R) \/ (l <> [] /\ (lo <= avgScore l <= hi)%R).
Proof.
  intros HF. destruct l as [|x l].
  - left. split; [reflexivity|]. unfold avgScore. simpl. lra.
  - right. split; [discriminate|]. apply avgScore_between; [discriminate | assumption].
Qed.

Lemma avgScore_range_sample :
  (sampleLinks = [] /\ avgScore sampleLinks = 0%R)
  \/ (sampleLinks <> [] /\ (1 <= avgScore sampleLinks <= 2)%R).
Proof.
  apply (avgScore_range 1 2 sampleLinks).
  repeat constructor; simpl; lra.
Defined.

(** X21. Every success body of the handler is consistent with the
    candidates it was given: each link of [links] has the url and the title
    of one of the candidates, a score above 0.001 and an anchor free of
    special characters; no two anchors are equal up to case; the links
    stand in the order of their scores; there are no more of them than
    candidates, nor than [maxLinks] allows; and [stats] is present exactly
    when there are candidates, with [candidatesAnalyzed] their number,
    [linksInserted] the number of [links], and an average that is 0 without
    links and above 0.001 with them. *)
Theorem handler_success_body
    (validateRequired : InternalLinkRequest.t -> list string -> bool)
    (isOptions : bool) (body : InternalLinkRequest.t) (query : QueryResult.t)
    (r : ResponseBody.t) :
  handler validateRequired isOptions body query = JsonResponse r ->
  Forall (linksTo (candidatesOf query)) (ResponseBody.links r)
  /\ NoDup (map (fun rl => toLowerCase (ResponseLink.anchor rl)) (ResponseBody.links r))
  /\ StronglySorted (fun a b => (ResponseLink.score a >= ResponseLink.score b)%R)
       (ResponseBody.links r)
  /\ List.length (ResponseBody.links r) <= List.length (candidatesOf query)
  /\ (Z.of_nat (List.length (ResponseBody.links r)) <= Z.max 0 (maxLinksOf body))%Z
  /\ (ResponseBody.stats r = None <-> candidatesOf query = [])
  /\ (forall st, ResponseBody.stats r = Some st ->
        Stats.candidatesAnalyzed st = List.length (candidatesOf query)
        /\ Stats.linksInserted st = List.length (ResponseBody.links r)
        /\ (ResponseBody.links r = [] -> Stats.avgRelevanceScore st = 0%R)
        /\ (ResponseBody.links r <> [] -> (Stats.avgRelevanceScore st > 0.001)%R)).
Proof.
  unfold handler, candidatesOf, maxLinksOf.
  destruct isOptions; [discriminate|].
  destruct (negb (validateRequired body _)); [discriminate|].
  destruct (QueryResult.error query); [discriminate|].
  destruct (QueryResult.data query) as [[|c cs]|].
  - intros E. inversion E; subst; simpl.
    repeat split; try constructor; try lia; try discriminate; intros; try congruence.
  - set (cands := c :: cs).
    set (K := match InternalLinkRequest.maxLinks body with Some k => k | None => 5%Z end).
    set (pool := scoredPool (InternalLinkRequest.content body)
                   (InternalLinkRequest.targetKeyword body) cands).
    set (sel := selectOptimalLinks pool K).
    intros E. inversion E; subst r; clear E. cbn [ResponseBody.links ResponseBody.stats].
    assert (Hin : forall l, In l sel -> In l pool)
      by (intros l; apply selectOptimalLinks_subset).
    assert (Hscore : Forall (fun x => (0.001 < ScoredLink.score x)%R) sel).
    { apply Forall_forall. intros l Hl. apply Hin, scoredPool_In in Hl as [j [c' [_ Hs]]].
      apply scoreCandidate_fields in Hs. lra. }
    split.
    { apply Forall_forall. intros rl Hrl. apply in_map_iff in Hrl as [l [<- Hl]].
      eapply selected_linksTo. exact Hl. }
    split.
    { rewrite map_map. simpl. apply selected_distinct. }
    split.
    { pose proof (selectLoop_sorted K (ceilThird K) (sortByScoreDesc pool)
                    (mkSelection [] [] (mkCounts 0 0 0))
                    (sortByScoreDesc_sorted pool)) as Hs.
      fold (selectOptimalLinks pool K) in Hs. fold sel in Hs.
      clear -Hs. induction Hs as [|x l Hl IH Hx]; simpl; constructor; [assumption|].
      apply Forall_map. exact Hx. }
    split.
    { rewrite length_map.
      apply Nat.le_trans with (List.length pool).
      - apply selected_length.
      - apply scoredPool_length. }
    split.
    { rewrite length_map.
      pose proof (selectLoop_within K (ceilThird K) (sortByScoreDesc pool) _
                    (initial_within K (ceilThird K))) as [Ht _].
      exact Ht. }
    split; [split; [discriminate | discriminate]|].
    intros st E. inversion E; subst st; clear E. simpl.
    rewrite length_map. repeat split.
    + intros Hnil. destruct sel; [|discriminate]. unfold avgScore. simpl. lra.
    + intros Hne. apply Rlt_gt, avgScore_above; [|exact Hscore].
      intros E. apply Hne. now rewrite E.
  - intros E. inversion E; subst; simpl.
    repeat split; try constructor; try lia; try discriminate; intros; try congruence.
Qed.

End HandlerMore.

Section HandlerRuns.
Import JsString Tokenizer TfIdf Anchor Placement Inserter Handler Notions Samples.

Lemma sample_handler_run :
  handler acceptAll false sampleRequest sampleQuery = JsonResponse sampleResponse.
Proof.
  apply (handler_with_candidates acceptAll sampleRequest sampleQuery sampleCandidate []);
    reflexivity.
Qed.

Lemma handler_success_body_witness :
  Forall (linksTo (candidatesOf sampleQuery)) (ResponseBody.links sampleResponse)
  /\ NoDup (map (fun rl => toLowerCase (ResponseLink.anchor rl))
               (ResponseBody.links sampleResponse))
  /\ StronglySorted (fun a b => (ResponseLink.score a >= ResponseLink.score b)%R)
       (ResponseBody.links sampleResponse)
  /\ List.length (ResponseBody.links sampleResponse)
     <= List.length (candidatesOf sampleQuery)
  /\ (Z.of_nat (List.length (ResponseBody.links sampleResponse))
      <= Z.max 0 (maxLinksOf sampleRequest))%Z
  /\ (ResponseBody.stats sampleResponse = None <-> candidatesOf sampleQuery = [])
  /\ (forall st, ResponseBody.stats sampleResponse = Some st ->
        Stats.candidatesAnalyzed st = List.length (candidatesOf sampleQuery)
        /\ Stats.linksInserted st = List.length (ResponseBody.links sampleResponse)
        /\ (ResponseBody.links sampleResponse = [] -> Stats.avgRelevanceScore st = 0%R)
        /\ (ResponseBody.links sampleResponse <> [] ->
            (Stats.avgRelevanceScore st > 0.001)%R)).
Proof.
  apply (handler_success_body acceptAll false sampleRequest sampleQuery sampleResponse).
  exact sample_handler_run.
Defined.

(** X22. When no candidate shares a token with the content, the handler
    links nothing: its answer has no link, reports 0 links inserted and an
    average of 0, and returns the content with at most the case of its
    closing paragraph tags changed. *)
Theorem handler_no_overlap
    (validateRequired : InternalLinkRequest.t -> list string -> bool)
    (body : InternalLinkRequest.t) (query : QueryResult.t)
    (c : LinkCandidate.t) (cs : list LinkCandidate.t) :
  validateRequired body ["content"; "pageId"; "targetKeyword"] = true ->
  QueryResult.error query = false ->
  QueryResult.data query = Some (c :: cs) ->
  (forall c' t, In c' (c :: cs) ->
                In t (tokenize (InternalLinkRequest.content body)) ->
                ~ In t (tokenize (candidateText c'))) ->
  exists r,
    handler validateRequired false body query = JsonResponse r
    /\ ResponseBody.links r = []
    /\ toLowerCase (ResponseBody.content r)
       = toLowerCase (InternalLinkRequest.content body)
    /\ (strIncludes (InternalLinkRequest.content body) "</P>" = false ->
        ResponseBody.content r = InternalLinkRequest.content body)
    /\ exists st,
         ResponseBody.stats r = Some st
         /\ Stats.candidatesAnalyzed st = List.length (c :: cs)
         /\ Stats.linksInserted st = 0
         /\ Stats.avgRelevanceScore st = 0%R.
Proof.
  intros Hv He Hd Hdisj.
  rewrite (handler_with_candidates validateRequired body query c cs Hv He Hd).
  assert (Hpool : scoredPool (InternalLinkRequest.content body)
                    (InternalLinkRequest.targetKeyword body) (c :: cs) = []).
  { destruct (scoredPool _ _ (c :: cs)) as [|l pool] eqn:E; [reflexivity|].
    exfalso.
    assert (Hl : In l (scoredPool (InternalLinkRequest.content body)
                         (InternalLinkRequest.targetKeyword body) (c :: cs)))
      by (rewrite E; now left).
    apply scoredPool_In in Hl as [j [c' [Hc' Hs]]].
    apply scoreCandidate_matched in Hs as [Hne Hsh].
    destruct (ScoredLink.matchedTerms l) as [|t mt]; [congruence|].
    destruct (Hsh t (or_introl eq_refl)) as [Ht1 Ht2].
    apply nth_error_In in Hc'. exact (Hdisj c' t Hc' Ht1 Ht2). }
  cbv zeta. rewrite Hpool.
  replace (selectOptimalLinks [] _) with (@nil ScoredLink.t) by reflexivity.
  eexists. split; [reflexivity|].
  cbn [ResponseBody.links ResponseBody.content ResponseBody.stats map].
  split; [reflexivity|]. split.
  { unfold insertLinksIntoContent, splitCloseTag. simpl. now rewrite split_join_lower. }
  split.
  { intros H. unfold insertLinksIntoContent, splitCloseTag. simpl.
    now rewrite split_join_exact. }
  eexists. split; [reflexivity|]. simpl. repeat split.
  unfold avgScore. simpl. lra.
Qed.

Lemma handler_no_overlap_witness :
  exists r,
    handler acceptAll false
      (InternalLinkRequest.mk "<p>React hooks</p>" "1" "css grid" None "https://example.test")
      (QueryResult.mk (Some [cssCandidate]) false) = JsonResponse r
    /\ ResponseBody.links r = []
    /\ toLowerCase (ResponseBody.content r) = toLowerCase "<p>React hooks</p>"
    /\ (strIncludes "<p>React hooks</p>" "</P>" = false ->
        ResponseBody.content r = "<p>React hooks</p>")
    /\ exists st,
         ResponseBody.stats r = Some st
         /\ Stats.candidatesAnalyzed st = List.length [cssCandidate]
         /\ Stats.linksInserted st = 0
         /\ Stats.avgRelevanceScore st = 0%R.
Proof.
  apply (handler_no_overlap acceptAll
           (InternalLinkRequest.mk "<p>React hooks</p>" "1" "css grid" None
              "https://example.test")
           (QueryResult.mk (Some [cssCandidate]) false) cssCandidate []);
    try reflexivity.
  intros c' t [<-|[]] Ht. vm_compute in Ht. vm_compute.
  intros H. repeat (destruct Ht as [<-|Ht]; [intuition discriminate|]). exact Ht.
Defined.

End HandlerRuns.

(* ------------------------------------------------------------------ *)
(** ** The document a candidate is scored by *)
(* ------------------------------------------------------------------ *)

Section CandidateDocuments.
Import JsString Tokenizer Handler Notions Samples.

Lemma lowerChar_isLt (c : ascii) : isLt (lowerChar c) = isLt c.
Proof.
  destruct c as [b0 b1 b2 b3 b4 b5 b6 b7];
    destruct b0, b1, b2, b3, b4, b5, b6, b7; reflexivity.
Qed.

Lemma toLowerCase_plain (s : string) :
  anyChar isLt (toLowerCase s) = anyChar isLt s.
Proof.
  unfold toLowerCase. induction s as [|c s IH]; simpl; [reflexivity|].
  now rewrite lowerChar_isLt, IH.
Qed.

Lemma stripTags_plain_app (a x : string) :
  anyChar isLt a = false -> stripTags (a ++ x) = a ++ stripTags x.
Proof.
  unfold stripTags. induction a as [|c a IH]; simpl; [reflexivity|].
  intros H. apply orb_false_iff in H as [Hc Ha].
  rewrite Hc. simpl. now rewrite IH.
Qed.

Lemma stripTags_space (x : string) : stripTags (" " ++ x) = " " ++ stripTags x.
Proof. reflexivity. Qed.

Lemma stripPunctuation_app (a b : string) :
  stripPunctuation (a ++ b) = stripPunctuation a ++ stripPunctuation b.
Proof.
  unfold stripPunctuation. induction a as [|c a IH]; simpl; [reflexivity | now rewrite IH].
Qed.

Lemma splitWsAux_restart (v : string) :
  filter nonEmpty (splitWsAux "" true v) = filter nonEmpty (splitWsAux "" false v).
Proof.
  destruct v as [|c v]; simpl; [reflexivity|].
  destruct (isSpaceChar c); reflexivity.
Qed.

Lemma splitWsAux_app_space (u v : string) : forall cur inRun,
  (inRun = true -> cur = "") ->
  filter nonEmpty (splitWsAux cur inRun (u ++ " " ++ v))
  = (filter nonEmpty (splitWsAux cur inRun u) ++ filter nonEmpty (splitWs v))%list.
Proof.
  induction u as [|c u IH]; intros cur inRun Hinv.
  - cbn [append splitWsAux]. change (isSpaceChar " ") with true. cbv iota.
    unfold splitWs. destruct inRun.
    + rewrite (Hinv eq_refl). cbn [filter nonEmpty String.length Nat.ltb Nat.leb app].
      apply splitWsAux_restart.
    + cbn [filter app]. rewrite splitWsAux_restart.
      destruct (nonEmpty cur); reflexivity.
  - cbn [append splitWsAux]. destruct (isSpaceChar c).
    + destruct inRun.
      * apply IH. reflexivity.
      * cbn [filter]. destruct (nonEmpty cur); cbn [app];
          rewrite <- (IH "" true (fun _ => eq_refl)); reflexivity.
    + apply IH. discriminate.
Qed.

Lemma filter_long_nonEmpty (l : list string) :
  filter (fun word => 2 <? String.length word) (filter nonEmpty l)
  = filter (fun word => 2 <? String.length word) l.
Proof.
  induction l as [|w l IH]; simpl; [reflexivity|].
  unfold nonEmpty at 1. destruct w as [|a [|b [|c w]]]; simpl; rewrite ?IH; reflexivity.
Qed.

Lemma tokens_of_pieces (l : list string) :
  filter (fun word => negb (isStopWord word))
    (filter (fun word => 2 <? String.length word) l)
  = filter (fun word => negb (isStopWord word))
      (filter (fun word => 2 <? String.length word) (filter nonEmpty l)).
Proof. now rewrite filter_long_nonEmpty. Qed.

Lemma tokenize_app_space (a b : string) :
  plainText a = true -> tokenize (a ++ " " ++ b) = (tokenize a ++ tokenize b)%list.
Proof.
  intros Ha. apply negb_true_iff in Ha.
  unfold tokenize.
  rewrite (tokens_of_pieces (splitWs (stripPunctuation (stripTags (toLowerCase (a ++ " " ++ b)))))).
  rewrite (tokens_of_pieces (splitWs (stripPunctuation (stripTags (toLowerCase a))))).
  rewrite (tokens_of_pieces (splitWs (stripPunctuation (stripTags (toLowerCase b))))).
  rewrite !toLowerCase_app.
  assert (Hla : anyChar isLt (toLowerCase a) = false) by now rewrite toLowerCase_plain.
  rewrite (stripTags_plain_app _ _ Hla).
  change (toLowerCase " ") with " ". rewrite stripTags_space.
  replace (stripTags (toLowerCase a)) with (toLowerCase a)
    by (rewrite <- (append_nil_r (toLowerCase a)) at 2;
        now rewrite (stripTags_plain_app _ "" Hla), append_nil_r).
  rewrite !stripPunctuation_app. change (stripPunctuation " ") with " ".
  unfold splitWs at 1.
  rewrite (splitWsAux_app_space _ _ "" false) by discriminate.
  now rewrite !filter_app.
Qed.

Lemma plainText_app (a b : string) :
  plainText (a ++ b) = plainText a && plainText b.
Proof.
  unfold plainText. induction a as [|c a IH]; simpl; [reflexivity|].
  destruct (isLt c); simpl; [reflexivity | exact IH].
Qed.

Lemma plainText_join (l : list string) :
  Forall (fun x => plainText x = true) l -> plainText (join " " l) = true.
Proof.
  induction 1 as [|x l Hx Hl IH]; [reflexivity|].
  destruct l as [|y l]; [exact Hx|].
  change (join " " (x :: y :: l)) with (x ++ " " ++ join " " (y :: l)).
  rewrite !plainText_app, Hx, IH. reflexivity.
Qed.

Lemma tokenize_join_plain (l : list string) :
  Forall (fun x => plainText x = true) l ->
  tokenize (join " " l) = flat_map tokenize l.
Proof.
  induction 1 as [|x l Hx Hl IH]; [reflexivity|].
  destruct l as [|y l].
  - simpl. now rewrite app_nil_r.
  - change (join " " (x :: y :: l)) with (x ++ " " ++ join " " (y :: l)).
    rewrite (tokenize_app_space _ _ Hx), IH. reflexivity.
Qed.

Lemma anyChar_hyphens (p : ascii -> bool) (s : string) :
  p "-"%char = false -> p " "%char = false ->
  anyChar p (hyphensToSpaces s) = anyChar p s.
Proof.
  intros Hd Hs. unfold hyphensToSpaces.
  induction s as [|c s IH]; simpl; [reflexivity|]. rewrite IH.
  destruct (Ascii.eqb_spec c "-"); [subst; now rewrite Hd, Hs | reflexivity].
Qed.

Lemma lowerChar_hyphen (c : ascii) :
  lowerChar (if Ascii.eqb c "-" then " "%char else c)
  = if Ascii.eqb (lowerChar c) "-" then " "%char else lowerChar c.
Proof.
  destruct c as [b0 b1 b2 b3 b4 b5 b6 b7];
    destruct b0, b1, b2, b3, b4, b5, b6, b7; reflexivity.
Qed.

Lemma toLowerCase_hyphens (s : string) :
  toLowerCase (hyphensToSpaces s) = hyphensToSpaces (toLowerCase s).
Proof.
  unfold toLowerCase, hyphensToSpaces.
  induction s as [|c s IH]; simpl; [reflexivity|].
  now rewrite lowerChar_hyphen, IH.
Qed.

Lemma stripped_hyphens (s : string) : forall inTag,
  stripPunctuation (stripTagsAux inTag (hyphensToSpaces s))
  = stripPunctuation (stripTagsAux inTag s).
Proof.
  induction s as [|c s IH]; intros inTag; [reflexivity|].
  change (hyphensToSpaces (String c s))
    with (String (if Ascii.eqb c "-" then " "%char else c) (hyphensToSpaces s)).
  cbn [stripTagsAux].
  rewrite (anyChar_hyphens isGt s eq_refl eq_refl).
  destruct (Ascii.eqb_spec c "-") as [->|Hc].
  - change (isGt " ") with false. change (isGt "-") with false.
    change (isLt " ") with false. change (isLt "-") with false.
    destruct inTag; cbn [andb]; [apply IH|].
    unfold stripPunctuation in *. cbn [mapStr]. now rewrite (IH false).
  - destruct inTag.
    + destruct (isGt c); apply IH.
    + destruct (isLt c && anyChar isGt s);
        unfold stripPunctuation in *; cbn [mapStr]; now rewrite IH.
Qed.

Lemma tokenize_hyphens (s : string) : tokenize (hyphensToSpaces s) = tokenize s.
Proof.
  unfold tokenize, stripTags. rewrite toLowerCase_hyphens.
  now rewrite stripped_hyphens.
Qed.

(** X23. The document a candidate is scored by.  Putting spaces for the
    hyphens of the slug changes nothing for the tokenizer, and when no
    field of the candidate holds a [<], so that no tag can run from one
    field into the next, the tokens of the candidate are the tokens of its
    title, then of its slug, then of each category, then of each tag. *)
Theorem candidateText_tokens (c : LinkCandidate.t) :
  plainText (LinkCandidate.title c) = true ->
  plainText (LinkCandidate.slug c) = true ->
  Forall (fun x => plainText x = true) (orEmpty (LinkCandidate.categories c)) ->
  Forall (fun x => plainText x = true) (orEmpty (LinkCandidate.tags c)) ->
  tokenize (hyphensToSpaces (LinkCandidate.slug c)) = tokenize (LinkCandidate.slug c)
  /\ tokenize (candidateText c)
     = (tokenize (LinkCandidate.title c)
        ++ tokenize (LinkCandidate.slug c)
        ++ flat_map tokenize (orEmpty (LinkCandidate.categories c))
        ++ flat_map tokenize (orEmpty (LinkCandidate.tags c)))%list.
Proof.
  intros Ht Hs Hc Hg. split; [apply tokenize_hyphens|].
  unfold candidateText.
  assert (Hs' : plainText (hyphensToSpaces (LinkCandidate.slug c)) = true).
  { unfold plainText in *. now rewrite (anyChar_hyphens isLt _ eq_refl eq_refl). }
  rewrite (tokenize_app_space _ _ Ht).
  rewrite (tokenize_app_space _ _ Hs').
  rewrite (tokenize_app_space _ _ (plainText_join _ Hc)).
  now rewrite tokenize_hyphens, !tokenize_join_plain.
Qed.

Lemma candidateText_tokens_witness :
  tokenize (hyphensToSpaces (LinkCandidate.slug cssCandidate))
  = tokenize (LinkCandidate.slug cssCandidate)
  /\ tokenize (candidateText cssCandidate)
     = (tokenize (LinkCandidate.title cssCandidate)
        ++ tokenize (LinkCandidate.slug cssCandidate)
        ++ flat_map tokenize (orEmpty (LinkCandidate.categories cssCandidate))
        ++ flat_map tokenize (orEmpty (LinkCandidate.tags cssCandidate)))%list.
Proof.
  apply (candidateText_tokens cssCandidate); try reflexivity;
    repeat constructor.
Defined.

End CandidateDocuments.

(* ------------------------------------------------------------------ *)
(** ** Binary64: what one rounding can change *)
(* ------------------------------------------------------------------ *)

Section Rounding.
Import QArith Qround Qabs Binary64.

Lemma pow2_pos (e : Z) : 0 < pow2 e.
Proof. unfold pow2. apply Qpower.Qpower_0_lt. reflexivity. Qed.

Lemma pow2_plus (a b : Z) : pow2 (a + b) == pow2 a * pow2 b.
Proof. unfold pow2. apply Qpower.Qpower_plus. discriminate. Qed.

Lemma pow2_Z (n : Z) : (0 <= n)%Z -> pow2 n == inject_Z (2 ^ n).
Proof. intros H. unfold pow2. now rewrite Qpower.Zpower_Qpower. Qed.

Lemma Q_num_den (q : Q) : q * inject_Z (Zpos (Qden q)) == inject_Z (Qnum q).
Proof. destruct q as [n d]. unfold Qeq, Qmult, inject_Z. simpl. lia. Qed.

Lemma inject_Z_le' (a b : Z) : (a <= b)%Z -> inject_Z a <= inject_Z b.
Proof. intros H. now rewrite <- Zle_Qle. Qed.

Lemma inject_Z_lt' (a b : Z) : (a < b)%Z -> inject_Z a < inject_Z b.
Proof. intros H. now rewrite <- Zlt_Qlt. Qed.

(** [exponentOf] finds the binade of a positive number *)
Lemma exponentOf_spec (q : Q) :
  0 < q -> pow2 (exponentOf q) <= q /\ q < pow2 (exponentOf q + 1).
Proof.
  intros Hq.
  assert (Hn : (0 < Qnum q)%Z) by (destruct q as [n d]; unfold Qlt in Hq; simpl in *; lia).
  pose proof (Z.log2_spec (Qnum q) Hn) as [Hn1 Hn2].
  pose proof (Z.log2_spec (Zpos (Qden q)) eq_refl) as [Hd1 Hd2].
  pose proof (Z.log2_nonneg (Qnum q)) as Hln.
  pose proof (Z.log2_nonneg (Zpos (Qden q))) as Hld.
  pose proof (Q_num_den q) as Hnd.
  apply inject_Z_le' in Hn1, Hd1. apply inject_Z_lt' in Hn2, Hd2.
  rewrite <- pow2_Z in Hn1, Hn2, Hd1, Hd2 by lia.
  set (ln := Z.log2 (Qnum q)) in *. set (ld := Z.log2 (Zpos (Qden q))) in *.
  set (n := inject_Z (Qnum q)) in *. set (d := inject_Z (Zpos (Qden q))) in *.
  assert (Hdpos : 0 < d) by (pose proof (pow2_pos ld); Lqa.lra).
  unfold exponentOf. fold ln ld. cbv zeta.
  destruct (Qle_bool (pow2 (ln - ld)) q) eqn:E.
  - apply Qle_bool_iff in E. split; [exact E|].
    assert (H1 : pow2 (ln - ld + 1) * pow2 ld == pow2 (Z.succ ln)).
    { rewrite <- pow2_plus. replace (ln - ld + 1 + ld)%Z with (Z.succ ln) by lia.
      reflexivity. }
    pose proof (pow2_pos (ln - ld + 1)) as HP.
    set (P := pow2 (ln - ld + 1)) in *. set (A := pow2 (Z.succ ln)) in *.
    set (B := pow2 ld) in *.
    Lqa.nra.
  - assert (E' : ~ pow2 (ln - ld) <= q)
      by (intros H; apply Qle_bool_iff in H; congruence).
    apply Qnot_le_lt in E'. split.
    + assert (H1 : pow2 (ln - ld - 1) * pow2 (Z.succ ld) == pow2 ln).
      { rewrite <- pow2_plus. replace (ln - ld - 1 + Z.succ ld)%Z with ln by lia.
        reflexivity. }
      pose proof (pow2_pos (ln - ld - 1)) as HP.
      set (P := pow2 (ln - ld - 1)) in *. set (A := pow2 ln) in *.
      set (B := pow2 (Z.succ ld)) in *.
      Lqa.nra.
    + replace (ln - ld - 1 + 1)%Z with (ln - ld)%Z by lia. exact E'.
Qed.

Lemma roundHalfEven_error (x : Q) :
  x - (1 # 2) <= inject_Z (roundHalfEven x) /\ inject_Z (roundHalfEven x) <= x + (1 # 2).
Proof.
  unfold roundHalfEven.
  pose proof (Qfloor_le x) as H1. pose proof (Qlt_floor x) as H2.
  rewrite inject_Z_plus in H2. change (inject_Z 1) with 1 in H2.
  destruct (Qcompare_spec (x - inject_Z (Qfloor x)) (1 # 2)) as [E|E|E].
  - destruct (Z.even (Qfloor x)); rewrite ?inject_Z_plus; change (inject_Z 1) with 1;
      Lqa.lra.
  - Lqa.lra.
  - rewrite inject_Z_plus. change (inject_Z 1) with 1. Lqa.lra.
Qed.

Lemma roundHalfEven_mono (x : Q) (k : Z) :
  (inject_Z k <= x -> (k <= roundHalfEven x)%Z)
  /\ (x <= inject_Z k -> (roundHalfEven x <= k)%Z).
Proof.
  unfold roundHalfEven.
  pose proof (Qfloor_le x) as H1. pose proof (Qlt_floor x) as H2.
  split; intros H.
  - assert (Hk : (k <= Qfloor x)%Z)
      by (rewrite <- (Qfloor_Z k); now apply Qfloor_resp_le).
    destruct (Qcompare _ _); [destruct (Z.even _)| |]; lia.
  - assert (Hk : (Qfloor x <= k)%Z)
      by (rewrite <- (Qfloor_Z k); now apply Qfloor_resp_le).
    destruct (Z.eq_dec (Qfloor x) k) as [E|E].
    + assert (Hx : x == inject_Z k) by (rewrite <- E in *; Lqa.lra).
      assert (Hc : Qcompare (x - inject_Z (Qfloor x)) (1 # 2) = Lt).
      { rewrite <- Qlt_alt, E, Hx. Lqa.lra. }
      rewrite Hc. lia.
    + destruct (Qcompare _ _); [destruct (Z.even _)| |]; lia.
Qed.

(** Rounding a positive number gives a number with a significand of 53
    bits in the binade of the number (or the power of two that ends it),
    no further away than half a unit of the last place *)
Lemma roundPos_nearest (q : Q) :
  0 < q ->
  exists m : Z,
    (2 ^ 52 <= m <= 2 ^ 53)%Z
    /\ roundPos q == inject_Z m * pow2 (exponentOf q - 52)
    /\ Qabs (roundPos q - q) <= (1 # 2) * pow2 (exponentOf q - 52).
Proof.
  intros Hq. unfold roundPos. cbv zeta.
  destruct (exponentOf_spec q Hq) as [He1 He2].
  set (e := exponentOf q) in *.
  destruct (roundHalfEven_error (q * pow2 (52 - e))) as [Hr1 Hr2].
  destruct (roundHalfEven_mono (q * pow2 (52 - e)) (2 ^ 52)) as [Hm1 _].
  destruct (roundHalfEven_mono (q * pow2 (52 - e)) (2 ^ 53)) as [_ Hm2].
  exists (roundHalfEven (q * pow2 (52 - e))).
  assert (Hinv : pow2 (52 - e) * pow2 (e - 52) == 1).
  { rewrite <- pow2_plus. replace (52 - e + (e - 52))%Z with 0%Z by lia. reflexivity. }
  assert (Hlo : pow2 e * pow2 (52 - e) == inject_Z (2 ^ 52)).
  { rewrite <- pow2_plus. replace (e + (52 - e))%Z with 52%Z by lia. reflexivity. }
  assert (Hhi : pow2 (e + 1) * pow2 (52 - e) == inject_Z (2 ^ 53)).
  { rewrite <- pow2_plus. replace (e + 1 + (52 - e))%Z with 53%Z by lia. reflexivity. }
  pose proof (pow2_pos (e - 52)) as Hp. pose proof (pow2_pos (52 - e)) as Hp'.
  split; [|split].
  - split.
    + apply Hm1. rewrite <- Hlo. apply Qmult_le_compat_r; [assumption | Lqa.lra].
    + apply Hm2. rewrite <- Hhi. apply Qmult_le_compat_r; [Lqa.lra | Lqa.lra].
  - apply Qred_correct.
  - rewrite Qred_correct.
    set (r := inject_Z (roundHalfEven (q * pow2 (52 - e)))) in *.
    set (p := pow2 (e - 52)) in *. set (p' := pow2 (52 - e)) in *.
    assert (Hx : q * p' * p == q) by (rewrite <- Qmult_assoc, Hinv; ring).
    assert (H1 : 0 <= (r - (q * p' - (1 # 2))) * p) by (apply Qmult_le_0_compat; Lqa.lra).
    assert (H2 : 0 <= (q * p' + (1 # 2) - r) * p) by (apply Qmult_le_0_compat; Lqa.lra).
    apply Qabs_Qle_condition. split; Lqa.nra.
Qed.

(** Hence the relative error of one rounding is at most [2^-53] *)
Lemma roundPos_error (q : Q) :
  0 < q -> (1 - roundoff) * q <= roundPos q /\ roundPos q <= (1 + roundoff) * q.
Proof.
  intros Hq.
  destruct (roundPos_nearest q Hq) as [m [_ [_ Hnear]]].
  destruct (exponentOf_spec q Hq) as [He _].
  set (e := exponentOf q) in *.
  assert (Hsplit : pow2 e == pow2 52 * pow2 (e - 52)).
  { rewrite <- pow2_plus. replace (52 + (e - 52))%Z with e by lia. reflexivity. }
  assert (Hu : roundoff * pow2 52 == 1 # 2) by reflexivity.
  assert (Hupos : 0 < roundoff) by reflexivity.
  assert (H3 : roundoff * pow2 e <= roundoff * q) by (apply Qmult_le_l; assumption).
  assert (H4 : roundoff * pow2 e == (1 # 2) * pow2 (e - 52))
    by (rewrite Hsplit, Qmult_assoc, Hu; reflexivity).
  apply Qabs_Qle_condition in Hnear as [Hn1 Hn2].
  set (r := roundPos q) in *. set (u := roundoff) in *.
  set (p := pow2 (e - 52)) in *. set (E := pow2 e) in *.
  split; Lqa.lra.
Qed.

Lemma round64_error (q : Q) :
  0 < q -> (1 - roundoff) * q <= round64 q /\ round64 q <= (1 + roundoff) * q.
Proof.
  intros Hq. unfold round64.
  destruct q as [[|n|n] d]; try (unfold Qlt in Hq; simpl in Hq; lia).
  apply roundPos_error. exact Hq.
Qed.

Lemma roundoff_range : 0 < roundoff /\ roundoff < 1.
Proof. split; reflexivity. Qed.

Lemma powN_up (k : nat) : 1 <= powN (1 + roundoff) k.
Proof.
  destruct roundoff_range as [Hu _].
  induction k as [|k IH]; simpl; [Lqa.lra|]. Lqa.nra.
Qed.

Lemma powN_down (k : nat) : 0 < powN (1 - roundoff) k /\ powN (1 - roundoff) k <= 1.
Proof.
  destruct roundoff_range as [Hu Hu'].
  induction k as [|k [IH1 IH2]]; simpl; [split; Lqa.lra|]. split; Lqa.nra.
Qed.

Lemma powN_up_mono (j k : nat) : powN (1 + roundoff) j <= powN (1 + roundoff) (j + k).
Proof.
  destruct roundoff_range as [Hu _].
  induction k as [|k IH]; [rewrite Nat.add_0_r; Lqa.lra|].
  rewrite Nat.add_succ_r. simpl. pose proof (powN_up (j + k)). Lqa.nra.
Qed.

Lemma powN_down_mono (j k : nat) : powN (1 - roundoff) (j + k) <= powN (1 - roundoff) j.
Proof.
  destruct roundoff_range as [Hu Hu'].
  induction k as [|k IH]; [rewrite Nat.add_0_r; Lqa.lra|].
  rewrite Nat.add_succ_r. simpl. destruct (powN_down (j + k)). Lqa.nra.
Qed.

(** A running sum of numbers each within [j] roundings of a positive exact
    value, begun within [j + k] roundings of [S], ends within
    [j + k + n] roundings of the exact sum, [n] being the number of terms *)
Lemma fold_fadd_bounds (j : nat) (vs xs : list Q) :
  Forall2 (fun v x => 0 < x /\ powN (1 - roundoff) j * x <= v /\ v <= powN (1 + roundoff) j * x)
          vs xs ->
  forall (k : nat) (s S : Q),
    0 <= S ->
    powN (1 - roundoff) (j + k) * S <= s -> s <= powN (1 + roundoff) (j + k) * S ->
    powN (1 - roundoff) (j + k + List.length vs) * (S + sumQ xs) <= fold_left fadd vs s
    /\ fold_left fadd vs s <= powN (1 + roundoff) (j + k + List.length vs) * (S + sumQ xs).
Proof.
  destruct roundoff_range as [Hu Hu'].
  induction 1 as [|v x vs xs [Hx [Hv1 Hv2]] Hrest IH]; intros k s S HS Hs1 Hs2.
  - simpl. rewrite Nat.add_0_r. split; Lqa.lra.
  - cbn [fold_left List.length sumQ fold_right].
    replace (j + k + Datatypes.S (List.length vs))%nat
      with (j + Datatypes.S k + List.length vs)%nat by lia.
    fold (sumQ xs).
    assert (Hgoal : forall lo hi : Q,
              powN (1 - roundoff) (j + Datatypes.S k + List.length vs) * (S + x + sumQ xs) <= lo ->
              hi <= powN (1 + roundoff) (j + Datatypes.S k + List.length vs) * (S + x + sumQ xs) ->
              powN (1 - roundoff) (j + Datatypes.S k + List.length vs) * (S + (x + sumQ xs)) <= lo
              /\ hi <= powN (1 + roundoff) (j + Datatypes.S k + List.length vs)
                       * (S + (x + sumQ xs))).
    { intros lo hi H1 H2. rewrite Qplus_assoc. now split. }
    pose proof (powN_up_mono j k) as Hup. pose proof (powN_down_mono j k) as Hdown.
    destruct (powN_down j) as [Hbj _]. destruct (powN_down (j + k)) as [Hbjk _].
    pose proof (powN_up (j + k)) as Hajk.
    assert (Hvpos : 0 < v) by Lqa.nra.
    assert (Hspos : 0 <= s) by Lqa.nra.
    assert (Hsum : 0 < s + v) by Lqa.lra.
    destruct (round64_error (s + v) Hsum) as [Hr1 Hr2].
    assert (Hlo : powN (1 - roundoff) (j + k) * (S + x) <= s + v) by Lqa.nra.
    assert (Hhi : s + v <= powN (1 + roundoff) (j + k) * (S + x)) by Lqa.nra.
    destruct (IH (Datatypes.S k) (fadd s v) (S + x)) as [I1 I2].
    + Lqa.lra.
    + rewrite Nat.add_succ_r. simpl. unfold fadd. Lqa.nra.
    + rewrite Nat.add_succ_r. simpl. unfold fadd. Lqa.nra.
    + apply Hgoal; assumption.
Qed.

(** Bernoulli's bound, and its counterpart from above *)
Lemma powN_down_linear (n : nat) : 1 - ofNat n * roundoff <= powN (1 - roundoff) n.
Proof.
  destruct roundoff_range as [Hu Hu'].
  induction n as [|n IH].
  - change (ofNat 0) with 0. cbn [powN]. Lqa.lra.
  - unfold ofNat in *. rewrite Nat2Z.inj_succ, <- Z.add_1_r, inject_Z_plus.
    change (inject_Z 1) with 1. cbn [powN].
    assert (Hn : 0 <= inject_Z (Z.of_nat n)) by (apply (inject_Z_le' 0); lia).
    destruct (powN_down n) as [Hp _].
    Lqa.nra.
Qed.

Lemma powN_up_linear (n : nat) :
  (Z.of_nat n <= 2 ^ 52)%Z -> powN (1 + roundoff) n <= 1 + 2 * ofNat n * roundoff.
Proof.
  destruct roundoff_range as [Hu Hu'].
  induction n as [|n IH]; intros Hn.
  - change (ofNat 0) with 0. cbn [powN]. Lqa.lra.
  - assert (Hn' : (Z.of_nat n <= 2 ^ 52)%Z) by lia. specialize (IH Hn').
    assert (Hsmall : 2 * ofNat n * roundoff <= 1).
    { unfold ofNat. apply inject_Z_le' in Hn'.
      assert (E : inject_Z (2 ^ 52) * roundoff == 1 # 2) by reflexivity.
      assert (H : inject_Z (Z.of_nat n) * roundoff <= inject_Z (2 ^ 52) * roundoff)
        by (apply Qmult_le_compat_r; [assumption | Lqa.lra]).
      Lqa.lra. }
    assert (H0 : 0 <= ofNat n) by (apply (inject_Z_le' 0); lia).
    unfold ofNat in *. rewrite Nat2Z.inj_succ, <- Z.add_1_r, inject_Z_plus.
    change (inject_Z 1) with 1. cbn [powN].
    pose proof (powN_up n) as Hp.
    Lqa.nra.
Qed.

End Rounding.

(* ------------------------------------------------------------------ *)
(** ** Term frequencies in binary64: the sum is 1 up to rounding *)
(* ------------------------------------------------------------------ *)

Section TfRounding.
Import QArith Qround Qabs JsString TfIdf Binary64 Samples.

Lemma countTokens_entry (tokens : list string) (term : string) :
  JsMap.get (countTokens tokens) term =
  if includes tokens term then Some (occurrences term tokens) else None.
Proof.
  unfold countTokens.
  rewrite get_has_getOr0, has_fold_bump, getOr0_fold_bump.
  simpl. destruct (includes tokens term); reflexivity.
Qed.

Lemma countTokens_tabulated (tokens : list string) :
  countTokens tokens = map (fun t => (t, occurrences t tokens)) (newSet tokens).
Proof.
  apply entries_ext.
  - now rewrite keys_countTokens, keys_tabulate.
  - rewrite keys_countTokens. apply newSet_NoDup.
  - intros k _. rewrite countTokens_entry, get_tabulate, includes_newSet. reflexivity.
Qed.

Lemma calculateTF64_entry (tokens : list string) (term : string) :
  JsMap.get (calculateTF64 tokens) term =
  if includes tokens term
  then Some (fdiv (ofNat (occurrences term tokens)) (ofNat (List.length tokens)))
  else None.
Proof.
  unfold calculateTF64. cbv zeta. rewrite get_mapValues, countTokens_entry.
  destruct (includes tokens term); reflexivity.
Qed.

Lemma sumQ_quotients (total : Q) (counts : list nat) :
  sumQ (map (fun c => ofNat c / total) counts)
  == ofNat (fold_right Nat.add 0%nat counts) / total.
Proof.
  induction counts as [|c counts IH]; simpl.
  - unfold Qdiv. change (ofNat 0) with 0. ring.
  - rewrite IH. unfold ofNat. rewrite Nat2Z.inj_add, inject_Z_plus.
    unfold Qdiv. ring.
Qed.

Lemma ofNat_pos (n : nat) : (0 < n)%nat -> 0 < ofNat n.
Proof. intros H. unfold ofNat. apply (inject_Z_lt' 0). lia. Qed.

Lemma quotient_rounded (total : nat) (counts : list nat) :
  (0 < total)%nat -> Forall (fun c => (0 < c)%nat) counts ->
  Forall2 (fun v x => 0 < x /\ powN (1 - roundoff) 1 * x <= v /\ v <= powN (1 + roundoff) 1 * x)
    (map (fun c => fdiv (ofNat c) (ofNat total)) counts)
    (map (fun c => ofNat c / ofNat total) counts).
Proof.
  intros Ht. induction 1 as [|c counts Hc _ IH]; simpl; constructor; [|exact IH].
  assert (Hq : 0 < ofNat c / ofNat total).
  { apply Qlt_shift_div_l; [now apply ofNat_pos|].
    rewrite Qmult_0_l. now apply ofNat_pos. }
  destruct (round64_error _ Hq) as [H1 H2]. unfold fdiv.
  split; [exact Hq|]. split; Lqa.lra.
Qed.

(** The sum of a binary64 term-frequency map lies within [m + 1] roundings
    of 1, [m] being the number of entries *)
Lemma sumValues64_bounds (tokens : list string) :
  tokens <> [] ->
  powN (1 - roundoff) (S (List.length (newSet tokens))) <= sumValues64 (calculateTF64 tokens)
  /\ sumValues64 (calculateTF64 tokens) <= powN (1 + roundoff) (S (List.length (newSet tokens))).
Proof.
  intros Hne.
  assert (Hlen : (0 < List.length tokens)%nat)
    by (destruct tokens; [congruence | simpl; lia]).
  unfold sumValues64, calculateTF64. cbv zeta.
  rewrite countTokens_tabulated.
  unfold JsMap.values, JsMap.mapValues. rewrite !map_map. cbn [fst snd].
  set (counts := map (fun t => occurrences t tokens) (newSet tokens)).
  assert (Hvs : map (fun t => fdiv (ofNat (occurrences t tokens))
                                (ofNat (List.length tokens))) (newSet tokens)
                = map (fun c => fdiv (ofNat c) (ofNat (List.length tokens))) counts)
    by (unfold counts; now rewrite map_map).
  rewrite Hvs.
  assert (Hpos : Forall (fun c => (0 < c)%nat) counts).
  { unfold counts. apply Forall_forall. intros c Hc.
    apply in_map_iff in Hc as [t [<- Ht]].
    apply occurrences_pos. now apply (newSet_In tokens t). }
  assert (Hsum : fold_right Nat.add 0%nat counts = List.length tokens).
  { rewrite <- (countTokens_total tokens), countTokens_tabulated.
    unfold sumCounts, JsMap.values, counts. now rewrite map_map. }
  pose proof (fold_fadd_bounds 1 _ _ (quotient_rounded _ counts Hlen Hpos) 0 0 0)
    as Hb.
  destruct Hb as [H1 H2]; try Lqa.lra.
  rewrite sumQ_quotients, Hsum in H1, H2.
  assert (Hone : 0 + ofNat (List.length tokens) / ofNat (List.length tokens) == 1).
  { rewrite Qplus_0_l. apply Qmult_inv_r.
    pose proof (ofNat_pos _ Hlen) as Hp. intros E. rewrite E in Hp. discriminate. }
  rewrite Hone, Qmult_1_r in H1, H2.
  rewrite length_map in H1, H2. unfold counts in H1, H2. rewrite length_map in H1, H2.
  split; assumption.
Qed.

(** C7. For every non-empty token sequence the map holds, for each token
    that occurs, the binary64 quotient of its number of occurrences by the
    number of tokens.  The exact quotients sum to 1.  The binary64 values,
    added up in the order of the map, give a sum between
    [(1 - 2^-53)^(m+1)] and [(1 + 2^-53)^(m+1)], [m] being the number of
    distinct tokens: the sum is 1 up to [(m+1) x 2^-52], not exactly 1. *)
Theorem calculateTF_sum_tolerance (tokens : list string) :
  tokens <> [] ->
  (forall term,
     JsMap.get (calculateTF64 tokens) term =
     if includes tokens term
     then Some (fdiv (ofNat (occurrences term tokens)) (ofNat (List.length tokens)))
     else None)
  /\ sumValues (calculateTF tokens) = 1%R
  /\ powN (1 - roundoff) (S (List.length (newSet tokens))) <= sumValues64 (calculateTF64 tokens)
  /\ sumValues64 (calculateTF64 tokens) <= powN (1 + roundoff) (S (List.length (newSet tokens)))
  /\ ((Z.of_nat (S (List.length (newSet tokens))) <= 2 ^ 52)%Z ->
      Qabs (sumValues64 (calculateTF64 tokens) - 1)
      <= ofNat (S (List.length (newSet tokens))) * pow2 (-52)).
Proof.
  intros Hne.
  destruct (sumValues64_bounds tokens Hne) as [H1 H2].
  split; [apply calculateTF64_entry|].
  split; [now apply calculateTF_sums_to_one|].
  split; [exact H1|]. split; [exact H2|].
  intros Hm.
  pose proof (powN_down_linear (S (List.length (newSet tokens)))) as L1.
  pose proof (powN_up_linear (S (List.length (newSet tokens))) Hm) as L2.
  assert (E : pow2 (-52) == 2 * roundoff) by reflexivity.
  apply Qabs_Qle_condition. rewrite E.
  assert (H0 : 0 <= ofNat (S (List.length (newSet tokens))))
    by (apply (inject_Z_le' 0); lia).
  destruct roundoff_range as [Hu _].
  split; Lqa.nra.
Qed.

Lemma calculateTF_sum_tolerance_witness :
  (forall term,
     JsMap.get (calculateTF64 ["react"; "hooks"; "react"]) term =
     if includes ["react"; "hooks"; "react"] term
     then Some (fdiv (ofNat (occurrences term ["react"; "hooks"; "react"]))
                     (ofNat (List.length ["react"; "hooks"; "react"])))
     else None)
  /\ sumValues (calculateTF ["react"; "hooks"; "react"]) = 1%R
  /\ powN (1 - roundoff) (S (List.length (newSet ["react"; "hooks"; "react"])))
     <= sumValues64 (calculateTF64 ["react"; "hooks"; "react"])
  /\ sumValues64 (calculateTF64 ["react"; "hooks"; "react"])
     <= powN (1 + roundoff) (S (List.length (newSet ["react"; "hooks"; "react"])))
  /\ ((Z.of_nat (S (List.length (newSet ["react"; "hooks"; "react"]))) <= 2 ^ 52)%Z ->
      Qabs (sumValues64 (calculateTF64 ["react"; "hooks"; "react"]) - 1)
      <= ofNat (S (List.length (newSet ["react"; "hooks"; "react"]))) * pow2 (-52)).
Proof. apply (calculateTF_sum_tolerance ["react"; "hooks"; "react"]). discriminate. Defined.

(** Ten distinct tokens: every value is the binary64 number nearest to
    0.1, and the ten of them add up to [1 - 2^-53], which JavaScript prints
    as 0.9999999999999999 *)
Lemma calculateTF_sum_not_one :
  JsMap.values (calculateTF64 tenTokens)
  = repeat (3602879701896397 # 36028797018963968) 10
  /\ sumValues64 (calculateTF64 tenTokens) = 9007199254740991 # 9007199254740992
  /\ ~ sumValues64 (calculateTF64 tenTokens) == 1.
Proof.
  assert (E : sumValues64 (calculateTF64 tenTokens)
              = 9007199254740991 # 9007199254740992) by (vm_compute; reflexivity).
  split; [vm_compute; reflexivity|]. split; [exact E|].
  rewrite E. intros H. discriminate H.
Qed.

(** On these numbers the model computes what the IEEE 754 specification of
    the standard library computes for binary64 *)
Lemma binary64_agrees_with_ieee :
  valueOf (ieeeDiv (ieeeOfZ 1) (ieeeOfZ 10)) = fdiv 1 10
  /\ valueOf (ieeeDiv (ieeeOfZ 2) (ieeeOfZ 3)) = fdiv 2 3
  /\ valueOf (fold_left ieeeAdd (repeat (ieeeDiv (ieeeOfZ 1) (ieeeOfZ 10)) 10)
                (SpecFloat.S754_zero false))
     = fold_left fadd (repeat (fdiv 1 10) 10) 0
  /\ valueOf (ieeeDiv
                (fold_left ieeeAdd (repeat (ieeeDiv (ieeeOfZ 1) (ieeeOfZ 10)) 3)
                   (SpecFloat.S754_zero false))
                (ieeeOfZ 3))
     = avgScore64 (repeat (fdiv 1 10) 3).
Proof. repeat split; vm_compute; reflexivity. Qed.

End TfRounding.

(* ------------------------------------------------------------------ *)
(** ** The reported average in binary64 *)
(* ------------------------------------------------------------------ *)

Section AverageRounding.
Import QArith Qround Qabs Binary64.

Lemma exact_terms (scores : list Q) :
  Forall (fun x => 0 < x) scores ->
  Forall2 (fun v x => 0 < x /\ powN (1 - roundoff) 0 * x <= v /\ v <= powN (1 + roundoff) 0 * x)
    scores scores.
Proof.
  induction 1 as [|x scores Hx _ IH]; constructor; [|exact IH].
  cbn [powN]. split; [exact Hx|]. split; Lqa.lra.
Qed.

Lemma sumQ_between (lo hi : Q) (scores : list Q) :
  Forall (fun x => lo <= x /\ x <= hi) scores ->
  ofNat (List.length scores) * lo <= sumQ scores
  /\ sumQ scores <= ofNat (List.length scores) * hi.
Proof.
  induction 1 as [|x scores [Hx1 Hx2] _ [IH1 IH2]].
  - change (ofNat (List.length [])) with 0. simpl. split; Lqa.lra.
  - cbn [List.length sumQ fold_right]. fold (sumQ scores).
    unfold ofNat in *. rewrite Nat2Z.inj_succ, <- Z.add_1_r, inject_Z_plus.
    change (inject_Z 1) with 1. split; Lqa.lra.
Qed.

Lemma avgScore64_nonempty (lo hi : Q) (scores : list Q) :
  0 < lo -> scores <> [] -> Forall (fun x => lo <= x /\ x <= hi) scores ->
  powN (1 - roundoff) (S (List.length scores)) * lo <= avgScore64 scores
  /\ avgScore64 scores <= powN (1 + roundoff) (S (List.length scores)) * hi.
Proof.
  intros Hlo Hne Hall.
  assert (Hpos : Forall (fun x => 0 < x) scores).
  { eapply Forall_impl; [|exact Hall]. intros x [H _]. simpl in *. Lqa.lra. }
  destruct (fold_fadd_bounds 0 _ _ (exact_terms scores Hpos) 0 0 0) as [S1 S2];
    try (cbn [powN Nat.add]; Lqa.lra).
  cbn [Nat.add] in S1, S2.
  destruct (sumQ_between lo hi scores Hall) as [B1 B2].
  assert (Hm : match List.length scores with O => 1%nat | S n => S n end
               = List.length scores)
    by (destruct scores; [congruence | reflexivity]).
  unfold avgScore64. rewrite Hm.
  assert (Hn : 0 < ofNat (List.length scores)).
  { unfold ofNat. apply (inject_Z_lt' 0). destruct scores; [congruence | simpl; lia]. }
  set (N := ofNat (List.length scores)) in *.
  set (s := fold_left fadd scores 0) in *.
  set (A := powN (1 + roundoff) (List.length scores)) in *.
  set (B := powN (1 - roundoff) (List.length scores)) in *.
  assert (HA : 1 <= A) by apply powN_up.
  assert (HB : 0 < B) by apply powN_down.
  assert (Ht : 0 < / N) by now apply Qinv_lt_0_compat.
  assert (HtN : N * / N == 1) by (apply Qmult_inv_r; intros E; rewrite E in Hn; discriminate).
  destruct roundoff_range as [Hu Hu'].
  set (t := / N) in *.
  assert (Hmean1 : lo <= sumQ scores * t) by Lqa.nra.
  assert (Hmean2 : sumQ scores * t <= hi) by Lqa.nra.
  set (M := sumQ scores * t) in *.
  assert (Hs1 : B * M <= s * t).
  { unfold M. rewrite Qmult_assoc. apply Qmult_le_compat_r; [|Lqa.lra].
    rewrite Qplus_0_l in S1. exact S1. }
  assert (Hs2 : s * t <= A * M).
  { unfold M. rewrite Qmult_assoc. apply Qmult_le_compat_r; [|Lqa.lra].
    rewrite Qplus_0_l in S2. exact S2. }
  assert (Hq : 0 < s / N) by (unfold Qdiv; fold t; Lqa.nra).
  destruct (round64_error _ Hq) as [R1 R2].
  unfold fdiv. unfold Qdiv in R1, R2. fold t in R1, R2. unfold Qdiv. fold t.
  cbn [powN]. fold A B.
  assert (L1 : B * lo <= s * t) by Lqa.nra.
  assert (L2 : s * t <= A * hi) by Lqa.nra.
  set (y := s * t) in *. set (r := round64 y) in *.
  set (X := B * lo) in *. set (Y := A * hi) in *.
  split.
  - rewrite <- Qmult_assoc. fold X. Lqa.nra.
  - rewrite <- Qmult_assoc. fold Y. Lqa.nra.
Qed.

(** X20. The average that the handler reports, as binary64 computes it: 0
    when no link is selected (the divisor is then 1, not 0); otherwise,
    for [n] selected scores between [lo > 0] and [hi], a number between
    [lo (1 - 2^-53)^(n+1)] and [hi (1 + 2^-53)^(n+1)].  The factors
    cannot be dropped: three equal scores can have an average above
    themselves. *)
Theorem avgScore64_range (lo hi : Q) (scores : list Q) :
  0 < lo -> Forall (fun x => lo <= x /\ x <= hi) scores ->
  ((scores = [] /\ avgScore64 scores = 0)
   \/ (scores <> []
       /\ powN (1 - roundoff) (S (List.length scores)) * lo <= avgScore64 scores
       /\ avgScore64 scores <= powN (1 + roundoff) (S (List.length scores)) * hi))
  /\ exists x : Q, x < avgScore64 [x; x; x].
Proof.
  intros Hlo Hall. split.
  - destruct scores as [|x scores]; [left; split; reflexivity|].
    right. split; [discriminate|].
    apply (avgScore64_nonempty lo hi); [assumption | discriminate | assumption].
  - exists (fdiv 1 10). vm_compute. reflexivity.
Qed.

Lemma avgScore64_range_witness :
  (([fdiv 1 10; fdiv 2 10] = [] /\ avgScore64 [fdiv 1 10; fdiv 2 10] = 0)
   \/ ([fdiv 1 10; fdiv 2 10] <> []
       /\ powN (1 - roundoff) (S (List.length [fdiv 1 10; fdiv 2 10])) * (1 # 100)
          <= avgScore64 [fdiv 1 10; fdiv 2 10]
       /\ avgScore64 [fdiv 1 10; fdiv 2 10]
          <= powN (1 + roundoff) (S (List.length [fdiv 1 10; fdiv 2 10])) * 1))
  /\ exists x : Q, x < avgScore64 [x; x; x].
Proof.
  apply (avgScore64_range (1 # 100) 1 [fdiv 1 10; fdiv 2 10]).
  - reflexivity.
  - repeat constructor; vm_compute; discriminate.
Defined.

End AverageRounding.

(* ------------------------------------------------------------------ *)
(** ** The relevance floor of the scored pool *)
(* ------------------------------------------------------------------ *)

Section PoolFloor.
Import JsString Tokenizer TfIdf Anchor Placement Handler Notions Samples.
Local Open Scope R_scope.





End PoolFloor.
